(** * The topology assembly engine of [classes/topology/base.py]

    A shallow embedding of [Vertex], [Edge] and [Topology] and of the
    build pipeline [place_mols] -> [join_mols] -> [final_sub], followed by
    the properties of the pairing and bonding passes.

    Conventions of the embedding.
    - Python object references ([Vertex]/[Edge] instances, building
      blocks) are natural-number ids; a store maps every site id to the
      mutable fields of that object, so aliasing between [positions_A],
      [positions_B] and the [connected] lists is kept.
    - A Python exception is the name of its class; a call that can raise
      returns a [result].
    - Distances are the values of the floating-point computations of the
      cheminformatics collaborator ([euclidean], [atom_distance]).  Only
      their order is used by the code, every finite double is a rational,
      so they are read as [Q] from an environment of oracles. *)

From Stdlib Require Import QArith Lqa.
From stdpp Require Import base functions gmap sets list strings sorting.

Open Scope nat_scope.

(** ** Python primitives *)

Module Py.

(** An exception, identified by the name of its class. *)
Definition exn := string.

Definition StopIteration : exn := "StopIteration"%string.
Definition TypeError : exn := "TypeError"%string.
Definition IndexError : exn := "IndexError"%string.
Definition ValueError : exn := "ValueError"%string.
Definition RuntimeError : exn := "RuntimeError"%string.

Inductive result (A : Type) : Type :=
| Ok (a : A)
| Raise (e : exn).
Arguments Ok {A} a.
Arguments Raise {A} e.

Definition bind {A B} (m : result A) (k : A -> result B) : result B :=
  match m with
  | Ok a => k a
  | Raise e => Raise e
  end.

(** [next(x for x in l if p x)] without a default value. *)
Fixpoint next {A} (p : A -> bool) (l : list A) : result A :=
  match l with
  | [] => Raise StopIteration
  | x :: l' => if p x then Ok x else next p l'
  end.

(** [l[i]] on a list. *)
Definition getitem {A} (l : list A) (i : nat) : result A :=
  match l !! i with
  | Some x => Ok x
  | None => Raise IndexError
  end.

(** [list.sort] / [sorted]: a stable sort that only ever calls [<] on
    the elements; [<] may raise.  The result of a stable comparison
    sort is independent of the algorithm, insertion is used here. *)
Fixpoint insort {A} (lt : A -> A -> result bool) (x : A) (l : list A)
  : result (list A) :=
  match l with
  | [] => Ok [x]
  | y :: l' =>
      bind (lt x y) (fun b =>
        if b then Ok (x :: y :: l')
        else bind (insort lt x l') (fun r => Ok (y :: r)))
  end.

Fixpoint sort_into {A} (lt : A -> A -> result bool) (acc l : list A)
  : result (list A) :=
  match l with
  | [] => Ok acc
  | x :: l' => bind (insort lt x acc) (fun acc' => sort_into lt acc' l')
  end.

Definition sorted {A} (lt : A -> A -> result bool) (l : list A)
  : result (list A) :=
  sort_into lt [] l.

(** [<] on integers. *)
Definition int_lt (x y : nat) : result bool := Ok (x <? y).

Definition float_eq (x y : Q) : bool := Qeq_bool x y.
Definition float_lt (x y : Q) : bool := negb (Qle_bool y x).

(** [<] on tuples [(float, int, int)]: the first position where the
    tuples differ decides. *)
Definition tuple_lt_int (x y : Q * nat * nat) : result bool :=
  let '(d1, a1, b1) := x in
  let '(d2, a2, b2) := y in
  if negb (float_eq d1 d2) then Ok (float_lt d1 d2)
  else if negb (a1 =? a2) then Ok (a1 <? a2)
  else if negb (b1 =? b2) then Ok (b1 <? b2)
  else Ok false.

(** [<] on tuples [(float, int, obj)] whose last component is an
    instance of a class without [__eq__] and [__lt__] ([Vertex]):
    equality of the objects is identity, and ordering two distinct
    objects raises [TypeError]. *)
Definition tuple_lt_obj (x y : Q * nat * nat) : result bool :=
  let '(d1, a1, p1) := x in
  let '(d2, a2, p2) := y in
  if negb (float_eq d1 d2) then Ok (float_lt d1 d2)
  else if negb (a1 =? a2) then Ok (a1 <? a2)
  else if negb (p1 =? p2) then Raise TypeError
  else Ok false.

(** [collections.deque(maxlen=n).append(x)]: when the deque is full the
    leftmost item is discarded; with [maxlen = 0] nothing is kept. *)
Definition deque_append {A} (maxlen : nat) (dq : list A) (x : A) : list A :=
  if length dq <? maxlen then dq ++ [x] else drop 1 (dq ++ [x]).

(** [itertools.combinations(l, 2)]. *)
Fixpoint combinations2 {A} (l : list A) : list (A * A) :=
  match l with
  | [] => []
  | x :: l' => map (fun y => (x, y)) l' ++ combinations2 l'
  end.

End Py.

Import Py.

#[global] Instance result_bind : MBind result := fun _ _ k m => bind m k.
#[global] Instance result_ret : MRet result := fun _ a => Ok a.

(** ** The molecule of the cheminformatics collaborator *)

Inductive BondType : Type := SINGLE | DOUBLE.

(** An [rdkit] molecule as far as the engine looks at it: the atomic
    number of every atom, indexed by atom id, and the bonds. *)
Record Mol : Type := mkMol {
  mol_atoms : list nat;
  mol_bonds : list (nat * nat * BondType)
}.

(** [chem.Mol()] *)
Definition empty_mol : Mol := mkMol [] [].

(** [chem.CombineMols(m1, m2)]: the atoms of [m2] are numbered after
    those of [m1]. *)
Definition CombineMols (m1 m2 : Mol) : Mol :=
  let n := length (mol_atoms m1) in
  mkMol (mol_atoms m1 ++ mol_atoms m2)
        (mol_bonds m1 ++
         map (fun '(a, b, t) => (n + a, n + b, t)) (mol_bonds m2)).

(** [mol.GetAtomWithIdx(i).GetAtomicNum()]; an index out of range is a
    range error of the collaborator. *)
Definition GetAtomWithIdx (m : Mol) (i : nat) : result nat :=
  match mol_atoms m !! i with
  | Some z => Ok z
  | None => Raise RuntimeError
  end.

(** [editable_mol.AddBond(a, b, t)] *)
Definition AddBond (m : Mol) (a b : nat) (t : BondType) : Mol :=
  mkMol (mol_atoms m) (mol_bonds m ++ [(a, b, t)]).

(** ** The functional-group registry and the environment *)

(** An entry of [FGInfo.functional_group_list]. *)
Record FGInfo : Type := mkFGInfo {
  heavy_atomic_num : nat;
  heavy_symbol : string;
  target_atomic_num : nat
}.

(** What the engine reads from its collaborators.  [FGInfo] and the
    building-block classes live in modules outside this file; their
    tables and accessors are taken as given. *)
Record Env : Type := mkEnv {
  (** [FGInfo.functional_group_list] *)
  functional_group_list : list FGInfo;
  (** [FGInfo.heavy_atomic_nums] *)
  heavy_atomic_nums : list nat;
  (** [FGInfo.double_bond_combs] *)
  double_bond_combs : list (string * string);
  (** [bb.find_functional_group_atoms()] *)
  find_functional_group_atoms : nat -> list nat;
  (** [bb.heavy_mol] *)
  bb_heavy_mol : nat -> Mol;
  (** [bb.heavy_ids] *)
  bb_heavy_ids : nat -> list nat;
  (** [euclidean(macro_mol.atom_coords('heavy', atom), site.coord)] *)
  atom_site_distance : nat -> nat -> Q;
  (** [macro_mol.atom_distance('heavy', atom1, atom2)] *)
  atom_distance : nat -> nat -> Q;
  (** [chem.AddHs(mol, addCoords=True)] *)
  AddHs : Mol -> Mol
}.

(** ** Sites: [Vertex] and [Edge] *)

Inductive SiteKind : Type := IsVertex | IsEdge.

(** The mutable fields of a [Vertex] (an [Edge] is a [Vertex]); the
    neighbours are held by reference. *)
Record Site : Type := mkSite {
  kind : SiteKind;
  connected : list nat;
  heavy_ids : list nat;
  atom_position_pairs : list (nat * nat);
  distances : list (Q * nat * nat)
}.

Definition set_heavy_ids (s : Site) (l : list nat) : Site :=
  mkSite (kind s) (connected s) l (atom_position_pairs s) (distances s).

Definition set_atom_position_pairs (s : Site) (l : list (nat * nat)) : Site :=
  mkSite (kind s) (connected s) (heavy_ids s) l (distances s).

Definition set_distances (s : Site) (l : list (Q * nat * nat)) : Site :=
  mkSite (kind s) (connected s) (heavy_ids s) (atom_position_pairs s) l.

(** ** The topology and the molecule it assembles *)

Record Topology : Type := mkTopology {
  (** [macro_mol.building_blocks] *)
  building_blocks : list nat;
  (** [macro_mol.heavy_mol] *)
  heavy_mol : Mol;
  (** [macro_mol.prist_mol] *)
  prist_mol : Mol;
  positions_A : list nat;
  positions_B : list nat;
  (** the [Vertex] and [Edge] objects *)
  sites : nat -> Site;
  bonds_made : nat;
  bb_counter : gmap nat nat
}.

Definition set_heavy_mol (st : Topology) (m : Mol) : Topology :=
  mkTopology (building_blocks st) m (prist_mol st) (positions_A st)
    (positions_B st) (sites st) (bonds_made st) (bb_counter st).

Definition set_prist_mol (st : Topology) (m : Mol) : Topology :=
  mkTopology (building_blocks st) (heavy_mol st) m (positions_A st)
    (positions_B st) (sites st) (bonds_made st) (bb_counter st).

Definition set_site (st : Topology) (p : nat) (s : Site) : Topology :=
  mkTopology (building_blocks st) (heavy_mol st) (prist_mol st)
    (positions_A st) (positions_B st) (<[p := s]> (sites st))
    (bonds_made st) (bb_counter st).

Definition set_bonds_made (st : Topology) (n : nat) : Topology :=
  mkTopology (building_blocks st) (heavy_mol st) (prist_mol st)
    (positions_A st) (positions_B st) (sites st) n (bb_counter st).

(** [self.bb_counter.update([bb])] on a [Counter]. *)
Definition counter_update (c : gmap nat nat) (bb : nat) : gmap nat nat :=
  <[bb := S (default 0 (c !! bb))]> c.

Definition set_bb_counter (st : Topology) (c : gmap nat nat) : Topology :=
  mkTopology (building_blocks st) (heavy_mol st) (prist_mol st)
    (positions_A st) (positions_B st) (sites st) (bonds_made st) c.

(** [Topology.__init__], for a macromolecule with the given building
    blocks and a topology class with the given sites. *)
Definition Topology_init (bbs : list nat) (pos_A pos_B : list nat)
    (objs : nat -> Site) : Topology :=
  mkTopology bbs empty_mol empty_mol pos_A pos_B objs 0 ∅.

(** ** Loops over a list whose body may raise *)

Fixpoint for_each {A S : Type} (body : S -> A -> result S) (l : list A)
    (st : S) : result S :=
  match l with
  | [] => Ok st
  | x :: l' => st' ← body st x; for_each body l' st'
  end.

(** ** The bond-order rule *)

(** [Topology.determine_bond_type]. *)
Definition determine_bond_type (E : Env) (st : Topology)
    (atom1_id atom2_id : nat) : result BondType :=
  atom1_atomic_n ← GetAtomWithIdx (heavy_mol st) atom1_id;
  atom2_atomic_n ← GetAtomWithIdx (heavy_mol st) atom2_id;
  fg1 ← next (fun x => atom1_atomic_n =? heavy_atomic_num x)
             (functional_group_list E);
  let atom1_symbol := heavy_symbol fg1 in
  fg2 ← next (fun x => atom2_atomic_n =? heavy_atomic_num x)
             (functional_group_list E);
  let atom2_symbol := heavy_symbol fg2 in
  let double_bond_present :=
    map (fun tup => bool_decide ((atom1_symbol, atom2_symbol) = tup)
                    || bool_decide ((atom2_symbol, atom1_symbol) = tup))
        (double_bond_combs E) in
  if bool_decide (true ∈ double_bond_present) then Ok DOUBLE else Ok SINGLE.

(** ** Placement *)

(** [Vertex.place_mol] as the pipeline sees it.  The method flushes
    [distances], moves the conformer of the building block (seen by the
    pipeline only through the distance oracles of [Env]) and returns the
    block's [heavy_mol].  [edge_plane_normal] unpacks the first two of the
    pairwise edge-direction vectors, which raises [ValueError] when there
    are fewer than two; [building_block.heavy_ids[0]] raises [IndexError]
    on a block without heavy atoms. *)
Definition Vertex_place_mol (E : Env) (self : Site) (building_block : nat)
    : result (Site * Mol) :=
  let self := set_distances self [] in
  match take 2 (combinations2 (connected self)) with
  | [_; _] =>
      _ ← getitem (bb_heavy_ids E building_block) 0;
      Ok (self, bb_heavy_mol E building_block)
  | _ => Raise ValueError
  end.

(** [Edge.place_mol] as the pipeline sees it; the calls it makes on the
    linker are in [EdgePlacement] below. *)
Definition Edge_place_mol (E : Env) (self : Site) (linker : nat)
    : result (Site * Mol) :=
  let self := set_distances self [] in
  Ok (self, bb_heavy_mol E linker).

(** [position.place_mol(bb)], dispatched on the class of [position]. *)
Definition place_mol (E : Env) (self : Site) (bb : nat)
    : result (Site * Mol) :=
  match kind self with
  | IsVertex => Vertex_place_mol E self bb
  | IsEdge => Edge_place_mol E self bb
  end.

(** The scan of [place_mols]:
    [for atom in heavy_mol.GetAtoms():
       if atom.GetAtomicNum() in FGInfo.heavy_atomic_nums:
           heavy_ids.append(atom.GetIdx())]
    on a deque; [idx] is the index of the first atom of [atoms]. *)
Fixpoint collect_heavy_ids (E : Env) (maxlen idx : nat) (atoms : list nat)
    (heavy_ids : list nat) : list nat :=
  match atoms with
  | [] => heavy_ids
  | atomic_num :: rest =>
      collect_heavy_ids E maxlen (S idx) rest
        (if bool_decide (atomic_num ∈ heavy_atomic_nums E)
         then deque_append maxlen heavy_ids idx
         else heavy_ids)
  end.

(** One step of the matching loop of [pair_heavy_ids_with_connected];
    the state is [(atom_position_pairs, paired_ids, paired_pos)]. *)
Definition pair_step (acc : list (nat * nat) * gset nat * gset nat)
    (c : Q * nat * nat) : list (nat * nat) * gset nat * gset nat :=
  let '(pairs, paired_ids, paired_pos) := acc in
  let '(_, heavy_id, pos) := c in
  if bool_decide (heavy_id ∈ paired_ids) || bool_decide (pos ∈ paired_pos)
  then acc
  else (pairs ++ [(heavy_id, pos)],
        {[heavy_id]} ∪ paired_ids, {[pos]} ∪ paired_pos).

(** The candidate list of [pair_heavy_ids_with_connected]. *)
Definition site_candidates (E : Env) (v : Site) : list (Q * nat * nat) :=
  flat_map (fun heavy_id =>
    map (fun position =>
           (atom_site_distance E heavy_id position, heavy_id, position))
        (connected v))
    (heavy_ids v).

(** [Topology.pair_heavy_ids_with_connected]. *)
Definition pair_heavy_ids_with_connected (E : Env) (st : Topology)
    (vertex : nat) : result Topology :=
  let v := sites st vertex in
  let distances := site_candidates E v in
  distances ← sorted tuple_lt_obj distances;
  let '(pairs, _, _) := foldl pair_step ([], ∅, ∅) distances in
  Ok (set_site st vertex (set_atom_position_pairs v pairs)).

(** The body of the first loop of [place_mols]. *)
Definition place_on_A (E : Env) (n_bb bb : nat) (st : Topology)
    (position : nat) : result Topology :=
  placed ← place_mol E (sites st position) bb;
  let st := set_site st position placed.1 in
  let st := set_heavy_mol st (CombineMols (heavy_mol st) placed.2) in
  let st := set_bb_counter st (counter_update (bb_counter st) bb) in
  let heavy_ids := collect_heavy_ids E n_bb 0 (mol_atoms (heavy_mol st)) [] in
  heavy_ids ← sorted int_lt heavy_ids;
  let st := set_site st position (set_heavy_ids (sites st position) heavy_ids) in
  pair_heavy_ids_with_connected E st position.

(** The body of the second loop of [place_mols]. *)
Definition place_on_B (E : Env) (n_lk lk : nat) (st : Topology)
    (position : nat) : result Topology :=
  placed ← place_mol E (sites st position) lk;
  let st := set_site st position placed.1 in
  let st := set_heavy_mol st (CombineMols (heavy_mol st) placed.2) in
  let st := set_bb_counter st (counter_update (bb_counter st) lk) in
  let heavy_ids := collect_heavy_ids E n_lk 0 (mol_atoms (heavy_mol st)) [] in
  Ok (set_site st position (set_heavy_ids (sites st position) heavy_ids)).

(** The choice of core block and linker at the head of [place_mols]:
    [(lk, n_lk, bb, n_bb)]. *)
Definition assign_blocks (bb1 bb2 n_fg1 n_fg2 : nat)
    : nat * nat * nat * nat :=
  if n_fg1 <? n_fg2 then (bb1, n_fg1, bb2, n_fg2)
  else (bb2, n_fg2, bb1, n_fg1).

(** [Topology.place_mols]. *)
Definition place_mols (E : Env) (st : Topology) : result Topology :=
  let st := set_heavy_mol st empty_mol in
  bb1 ← getitem (building_blocks st) 0;
  bb2 ← getitem (building_blocks st) 1;
  let n_fg1 := length (find_functional_group_atoms E bb1) in
  let n_fg2 := length (find_functional_group_atoms E bb2) in
  let '(lk, n_lk, bb, n_bb) := assign_blocks bb1 bb2 n_fg1 n_fg2 in
  st ← for_each (place_on_A E n_bb bb) (positions_A st) st;
  for_each (place_on_B E n_lk lk) (positions_B st) st.

(** ** Bonding *)

(** The first loop of [join_mols], for one [position]. *)
Definition collect_distances (E : Env) (st : Topology) (position : nat)
    : Topology :=
  foldl (fun st '(atom_id, vertex) =>
    foldl (fun st atom2_id =>
      let p := sites st position in
      let distance := atom_distance E atom_id atom2_id in
      set_site st position
        (set_distances p (distances p ++ [(distance, atom_id, atom2_id)])))
      st (heavy_ids (sites st vertex)))
    st (atom_position_pairs (sites st position)).

(** The body of the inner loop of the second pass of [join_mols]; the
    state is the topology, the editable molecule and the set [paired]. *)
Definition bond_step (E : Env) (acc : Topology * Mol * gset nat)
    (c : Q * nat * nat) : result (Topology * Mol * gset nat) :=
  let '(st, editable_mol, paired) := acc in
  let '(_, atom1_id, atom2_id) := c in
  if bool_decide (atom1_id ∈ paired) || bool_decide (atom2_id ∈ paired)
  then Ok acc
  else
    bond_type ← determine_bond_type E st atom1_id atom2_id;
    let editable_mol := AddBond editable_mol atom1_id atom2_id bond_type in
    let st := set_bonds_made st (bonds_made st + 1) in
    Ok (st, editable_mol, {[atom2_id]} ∪ ({[atom1_id]} ∪ paired)).

(** The body of the outer loop of the second pass of [join_mols]. *)
Definition bond_site (E : Env) (acc : Topology * Mol * gset nat)
    (position : nat) : result (Topology * Mol * gset nat) :=
  distances ← sorted tuple_lt_int (distances (sites acc.1.1 position));
  for_each (bond_step E) distances acc.

(** [Topology.join_mols]. *)
Definition join_mols (E : Env) (st : Topology) : result Topology :=
  let editable_mol := heavy_mol st in
  let st := foldl (collect_distances E) st (positions_A st) in
  acc ← for_each (bond_site E) (positions_A st) (st, editable_mol, ∅);
  Ok (set_heavy_mol acc.1.1 acc.1.2).

(** ** Substitution *)

(** [Topology.final_sub]. *)
Definition final_sub (E : Env) (st : Topology) : result Topology :=
  let prist_mol := heavy_mol st in
  atoms ← mapM (fun atomic_num =>
      if bool_decide (atomic_num ∈ heavy_atomic_nums E)
      then fg ← next (fun x => heavy_atomic_num x =? atomic_num)
                     (functional_group_list E);
           Ok (target_atomic_num fg)
      else Ok atomic_num)
    (mol_atoms prist_mol);
  Ok (set_prist_mol st (AddHs E (mkMol atoms (mol_bonds prist_mol)))).

(** [Topology.build]. *)
Definition build (E : Env) (st : Topology) : result Topology :=
  st ← place_mols E st;
  st ← join_mols E st;
  final_sub E st.

(** ** The linker side of [Edge.place_mol] *)

Module EdgePlacement.

Definition Vec3 : Type := Q * Q * Q.

(** Equality of the float components. *)
Definition vec_eq (u v : Vec3) : Prop :=
  (u.1.1 == v.1.1)%Q ∧ (u.1.2 == v.1.2)%Q ∧ (u.2 == v.2)%Q.

(** [np.multiply(v, k)] for an integer [k]. *)
Definition np_multiply (v : Vec3) (k : Z) : Vec3 :=
  (v.1.1 * inject_Z k, v.1.2 * inject_Z k, v.2 * inject_Z k)%Q.

(** The [coord] and [direction] attributes of an [Edge]. *)
Record Edge : Type := mkEdge {
  coord : Vec3;
  direction : Vec3
}.

(** The methods of the linker that [place_mol] calls, with their
    arguments. *)
Inductive Call : Type :=
| set_heavy_atom_centroid (position : Vec3)
| set_heavy_mol_orientation (target : Vec3)
| minimize_theta (coord direction : Vec3).

(** A finite distribution: outcomes with their probabilities. *)
Definition Dist (A : Type) : Type := list (Q * A).

Definition dist_map {A B} (f : A -> B) (d : Dist A) : Dist B :=
  map (fun pa => (pa.1, f pa.2)) d.

(** [np.random.choice(a)]: every entry of [a] is equally likely. *)
Definition np_random_choice (a : list Z) : Dist Z :=
  map (fun x => ((1 / inject_Z (Z.of_nat (length a)))%Q, x)) a.

(** The body of [Edge.place_mol] once [flip] is drawn. *)
Definition place_mol_with (self : Edge) (flip : Z) : list Call :=
  [ set_heavy_atom_centroid (coord self);
    set_heavy_mol_orientation (np_multiply (direction self) flip);
    minimize_theta (coord self) (direction self) ].

(** [Edge.place_mol]: the calls made on the linker. *)
Definition place_mol (self : Edge) : Dist (list Call) :=
  dist_map (place_mol_with self) (np_random_choice [1; -1]%Z).

Definition zero : Vec3 := (0, 0, 0)%Q.

Definition vec_opp (v : Vec3) : Vec3 := (- v.1.1, - v.1.2, - v.2)%Q.

(** The orientation requested from the linker in a run. *)
Fixpoint orientation (calls : list Call) : option Vec3 :=
  match calls with
  | [] => None
  | set_heavy_mol_orientation v :: _ => Some v
  | _ :: rest => orientation rest
  end.

End EdgePlacement.

(** ** Greedy exclusive matching, as a reference *)

(** Accept a candidate pair when neither member is already claimed; the
    candidates are taken in the order given. *)
Fixpoint greedy_exclusive_match (claimed : list nat)
    (candidates : list (Q * nat * nat)) : list (nat * nat) :=
  match candidates with
  | [] => []
  | (_, a, b) :: rest =>
      if bool_decide (a ∈ claimed) || bool_decide (b ∈ claimed)
      then greedy_exclusive_match claimed rest
      else (a, b) :: greedy_exclusive_match (a :: b :: claimed) rest
  end.

(** The atoms claimed by a list of accepted pairs. *)
Definition claimed_atoms (pairs : list (nat * nat)) : list nat :=
  flat_map (fun ab => [ab.1; ab.2]) pairs.

(** The bonds a run of [join_mols] from [st] to [st'] has added. *)
Definition formed_bonds (st st' : Topology) : list (nat * nat * BondType) :=
  drop (length (mol_bonds (heavy_mol st))) (mol_bonds (heavy_mol st')).

Definition bond_atoms (b : nat * nat * BondType) : nat * nat := b.1.

(** One list of all triples of all [positions_A] sites, sorted. *)
Definition global_sorted_distances (st : Topology)
    : result (list (Q * nat * nat)) :=
  sorted tuple_lt_int
    (flat_map (fun p => distances (sites st p)) (positions_A st)).

(** Every site's own sorted list, one after the other in the order of
    [positions_A]. *)
Definition sitewise_sorted_distances (st : Topology)
    : result (list (Q * nat * nat)) :=
  per_site ← mapM (fun p => sorted tuple_lt_int (distances (sites st p)))
                  (positions_A st);
  Ok (concat per_site).

(** How many pairs of [pairs] have [a] as a member. *)
Definition pairs_at (a : nat) (pairs : list (nat * nat)) : nat :=
  length (filter (fun ab => a = ab.1 ∨ a = ab.2) pairs).

(** How many bonds of [bonds] have [a] at one of their ends. *)
Definition bonds_at (a : nat) (bonds : list (nat * nat * BondType)) : nat :=
  pairs_at a (bond_atoms <$> bonds).

(** The symbol under which an atomic number is registered. *)
Definition registered_symbol (E : Env) (atomic_n : nat) : option string :=
  (fun ix => heavy_symbol ix.2) <$>
    list_find (fun x => atomic_n = heavy_atomic_num x)
              (functional_group_list E).

(** No two candidates of a site tie on distance and heavy atom while
    naming different neighbours. *)
Definition no_tie (E : Env) (v : Site) : Prop :=
  ∀ h p q, h ∈ heavy_ids v → p ∈ connected v → q ∈ connected v →
    (atom_site_distance E h p == atom_site_distance E h q)%Q → p = q.

(** ** A two-plus-three cage, used for the concrete runs below *)

Module Cage.

(** Vertices 0 and 1, each joined to the edges 2, 3 and 4. *)
Definition objs (id : nat) : Site :=
  match id with
  | 0 | 1 => mkSite IsVertex [2; 3; 4] [] [] []
  | 2 | 3 | 4 => mkSite IsEdge [0; 1] [] [] []
  | _ => mkSite IsVertex [] [] [] []
  end.

(** Building block 10 has three functional groups, block 11 two. *)
Definition core : nat := 10.
Definition linker : nat := 11.

Definition groups (bb : nat) : list nat :=
  match bb with
  | 10 => [1; 2; 3]
  | 11 => [0; 2]
  | _ => []
  end.

Definition molecule (bb : nat) : Mol :=
  match bb with
  | 10 => mkMol [6; 39; 39; 39]
                [(0, 1, SINGLE); (0, 2, SINGLE); (0, 3, SINGLE)]
  | 11 => mkMol [40; 6; 40] [(0, 1, SINGLE); (1, 2, SINGLE)]
  | _ => empty_mol
  end.

(** The edge every heavy atom of a vertex block lies next to. *)
Definition nearest_edge (atom : nat) : nat :=
  match atom with
  | 1 | 5 => 2
  | 2 | 6 => 3
  | _ => 4
  end.

Definition to_site (atom site : nat) : Q :=
  if site =? nearest_edge atom then 1 else inject_Z (Z.of_nat (2 + site)).

(** Atom 8 of the linker on edge 2 is the nearer one for both atom 1
    (vertex 0) and atom 5 (vertex 1). *)
Definition between (a b : nat) : Q :=
  match a, b with
  | 1, 8 => 5 | 1, 10 => 6 | 5, 8 => 1 | 5, 10 => 7
  | 2, 11 => 1 | 6, 13 => 1 | 3, 14 => 1 | 7, 16 => 1
  | _, _ => 9
  end.

Definition env : Env :=
  mkEnv [mkFGInfo 39 "Y" 7; mkFGInfo 40 "Zr" 6] [39; 40]
        [("Y", "Zr")%string] groups molecule groups to_site between
        (fun m => m).

Definition start : Topology := Topology_init [core; linker] [0; 1] [2; 3; 4] objs.

(** The same cage with both blocks given the same functional-group
    count. *)
Definition env_tie : Env :=
  mkEnv [mkFGInfo 39 "Y" 7; mkFGInfo 40 "Zr" 6] [39; 40]
        [("Y", "Zr")%string] (fun _ => [1; 2; 3]) molecule groups to_site
        between (fun m => m).

(** A registry that does not know element 40. *)
Definition env_unregistered : Env :=
  mkEnv [mkFGInfo 39 "Y" 7] [39; 40] [] groups molecule groups to_site
        between (fun m => m).

(** The state a run ends in. *)
Definition outcome (r : result Topology) : Topology :=
  match r with
  | Ok st => st
  | Raise _ => start
  end.

Definition placed : Topology := outcome (place_mols env start).
Definition joined : Topology := outcome (join_mols env placed).
Definition built : Topology := outcome (build env start).
Definition placed_tie : Topology := outcome (place_mols env_tie start).

(** The cage after the core has been placed on vertex 0. *)
Definition first_placed : Topology :=
  outcome (place_on_A env 3 core (set_heavy_mol start empty_mol) 0).

(** The same block given twice. *)
Definition start_same : Topology :=
  Topology_init [core; core] [0; 1] [2; 3; 4] objs.

Definition placed_same : Topology := outcome (place_mols env start_same).

(** Vertex 0 of the placed cage, paired once more. *)
Definition paired_again : Topology :=
  outcome (pair_heavy_ids_with_connected env placed 0).

(** A molecule of two placeholder atoms, elements 39 and 40. *)
Definition two_atoms : Topology := set_heavy_mol start (mkMol [39; 40] []).

(** An edge along the x axis. *)
Definition edge_x : EdgePlacement.Edge :=
  EdgePlacement.mkEdge (0, 0, 0)%Q (1, 0, 0)%Q.

End Cage.

(** [st'] differs from [st] in the fields of its sites at most. *)
Definition same_but_sites (st st' : Topology) : Prop :=
  building_blocks st' = building_blocks st
  ∧ heavy_mol st' = heavy_mol st
  ∧ prist_mol st' = prist_mol st
  ∧ positions_A st' = positions_A st
  ∧ positions_B st' = positions_B st
  ∧ bonds_made st' = bonds_made st
  ∧ bb_counter st' = bb_counter st.

(** [counter[bb]] on a [Counter]: a missing key counts zero. *)
Definition tally (c : gmap nat nat) (bb : nat) : nat := default 0 (c !! bb).

(** What placing one copy of [bb] does outside the sites: the block's
    atoms are appended to the molecule and its tally grows by one. *)
Definition placed_one (E : Env) (bb : nat) (st st' : Topology) : Prop :=
  building_blocks st' = building_blocks st
  ∧ heavy_mol st' = CombineMols (heavy_mol st) (bb_heavy_mol E bb)
  ∧ prist_mol st' = prist_mol st
  ∧ positions_A st' = positions_A st
  ∧ positions_B st' = positions_B st
  ∧ bonds_made st' = bonds_made st
  ∧ bb_counter st' = counter_update (bb_counter st) bb.

(** The atoms of [n] copies of the block [bb], one copy after the other. *)
Definition placed_atoms (E : Env) (bb n : nat) : list nat :=
  concat (replicate n (mol_atoms (bb_heavy_mol E bb))).

(** The pairs [join_mols] bonds when run after [place_mols]. *)
Definition bonded_pairs (E : Env) (st : Topology) : result (list (nat * nat)) :=
  st1 ← place_mols E st;
  st2 ← join_mols E st1;
  Ok (bond_atoms <$> formed_bonds st1 st2).

(** The pairs that greedy exclusive matching accepts on the one sorted
    list of all the triples of that run. *)
Definition global_greedy_pairs (E : Env) (st : Topology)
    : result (list (nat * nat)) :=
  st1 ← place_mols E st;
  st2 ← join_mols E st1;
  L ← global_sorted_distances st2;
  Ok (greedy_exclusive_match [] L).

(** The state of the matching loop of [pair_heavy_ids_with_connected] is
    consistent: no heavy atom and no position is in two pairs, and the two
    sets hold the members of the pairs. *)
Definition matched (acc : list (nat * nat) * gset nat * gset nat) : Prop :=
  NoDup acc.1.1.*1
  ∧ NoDup acc.1.1.*2
  ∧ (∀ h, h ∈ acc.1.2 ↔ h ∈ acc.1.1.*1)
  ∧ (∀ p, p ∈ acc.2 ↔ p ∈ acc.1.1.*2).

(** [x <= y] on tuples [(float, int, int)]: [y < x] is false. *)
Definition tuple_le (x y : Q * nat * nat) : Prop :=
  tuple_lt_int y x = Ok false.

(** The error class the specification of the bond-order rule names; the
    code defines no class of this name. *)
Definition MissingFunctionalGroupError : exn :=
  "MissingFunctionalGroupError"%string.

(** The sites of [s] have the classes and the neighbours of those of
    [st]. *)
Definition same_layout (st s : Topology) : Prop :=
  ∀ q, kind (sites s q) = kind (sites st q)
       ∧ connected (sites s q) = connected (sites st q).

(** The triples the first pass of [join_mols] computes for the site [p]:
    one for every pair [(atom_id, vertex)] of the site and every heavy id
    of [vertex]. *)
Definition site_triples (E : Env) (st : Topology) (p : nat)
    : list (Q * nat * nat) :=
  flat_map (fun av =>
    map (fun atom2_id => (atom_distance E av.1 atom2_id, av.1, atom2_id))
        (heavy_ids (sites st av.2)))
    (atom_position_pairs (sites st p)).

(** [s'] is [s] up to its [distances]. *)
Definition same_but_distances (s s' : Site) : Prop :=
  kind s' = kind s
  ∧ connected s' = connected s
  ∧ heavy_ids s' = heavy_ids s
  ∧ atom_position_pairs s' = atom_position_pairs s.

(** ** Reference definitions for the further properties *)

(** The ids, counted from [idx], of the placeholder atoms of [atoms]. *)
Fixpoint heavy_indices (E : Env) (idx : nat) (atoms : list nat) : list nat :=
  match atoms with
  | [] => []
  | atomic_num :: rest =>
      if bool_decide (atomic_num ∈ heavy_atomic_nums E)
      then idx :: heavy_indices E (S idx) rest
      else heavy_indices E (S idx) rest
  end.

(** The last [n] items of a list. *)
Definition lastn {A} (n : nat) (l : list A) : list A :=
  drop (length l - n) l.


(** The element [final_sub] puts for a placeholder element. *)
Definition registered_target (E : Env) (atomic_num : nat) : option nat :=
  (fun ix => target_atomic_num ix.2) <$>
    list_find (fun x => heavy_atomic_num x = atomic_num)
              (functional_group_list E).

(** What [final_sub] makes of one atom: a placeholder element is replaced
    by the target of its registry entry, if it has one; every other
    element is kept. *)
Definition substitute (E : Env) (atomic_num : nat) : option nat :=
  if bool_decide (atomic_num ∈ heavy_atomic_nums E)
  then registered_target E atomic_num
  else Some atomic_num.

(** The atom [h] of the molecule under assembly has a placeholder
    element. *)
Definition placeholder (E : Env) (st : Topology) (h : nat) : Prop :=
  ∃ z, mol_atoms (heavy_mol st) !! h = Some z ∧ z ∈ heavy_atomic_nums E.

(** The heavy ids recorded at the site [q] are placeholder atoms of the
    molecule. *)
Definition heavy_ids_placed (E : Env) (st : Topology) (q : nat) : Prop :=
  ∀ h, h ∈ heavy_ids (sites st q) → placeholder E st h.

(** The pairs recorded at the site [q] join placeholder atoms of the
    molecule to neighbours of the site. *)
Definition pairs_placed (E : Env) (st : Topology) (q : nat) : Prop :=
  ∀ a v, (a, v) ∈ atom_position_pairs (sites st q) →
         placeholder E st a ∧ v ∈ connected (sites st q).

(** The order [distances.sort()] of [pair_heavy_ids_with_connected] can
    establish between two candidates: the distance decides, then the
    heavy id; two candidates equal in both can be ordered only when they
    name the same position. *)
Definition key_lt (x y : Q * nat * nat) : Prop :=
  (x.1.1 < y.1.1)%Q ∨ ((x.1.1 == y.1.1)%Q ∧ x.1.2 < y.1.2).

Definition key_eq (x y : Q * nat * nat) : Prop :=
  (x.1.1 == y.1.1)%Q ∧ x.1.2 = y.1.2.

Definition obj_le (x y : Q * nat * nat) : Prop :=
  key_lt x y ∨ (key_eq x y ∧ x.2 = y.2).

(** A heavy atom of the site is at the same distance from two different
    neighbours. *)
Definition tie (E : Env) (v : Site) : Prop :=
  ∃ h p q, h ∈ heavy_ids v ∧ p ∈ connected v ∧ q ∈ connected v ∧ p ≠ q
           ∧ (atom_site_distance E h p == atom_site_distance E h q)%Q.

(** * Properties *)

(** ** The error monad and the loops *)

Lemma bind_Ok {A B} (m : result A) (k : A -> result B) (b : B) :
  (x ← m; k x) = Ok b → ∃ a, m = Ok a ∧ k a = Ok b.
Proof.
  destruct m as [a|e]; simpl; intros H.
  - exists a. split; [reflexivity | exact H].
  - discriminate H.
Qed.

Lemma bind_Ok_l {A B} (a : A) (k : A -> result B) : (Ok a ≫= k) = k a.
Proof. reflexivity. Qed.

Lemma bind_Raise_l {A B} (e : exn) (k : A -> result B) :
  (Raise e ≫= k) = Raise e.
Proof. reflexivity. Qed.

Lemma Ok_inj {A} (a b : A) : Ok a = Ok b → a = b.
Proof. by intros [= ->]. Qed.

Ltac inv_bind H :=
  let x := fresh "x" in
  let Hx := fresh "Hx" in
  apply bind_Ok in H; destruct H as (x & Hx & H).

Lemma for_each_app {A S} (body : S -> A -> result S) (l1 l2 : list A) (st : S) :
  for_each body (l1 ++ l2) st = (st' ← for_each body l1 st; for_each body l2 st').
Proof.
  revert st. induction l1 as [|x l1 IH]; intros st; simpl; [reflexivity|].
  destruct (body st x) as [st1|e]; simpl; [apply IH | reflexivity].
Qed.

(** An invariant kept by the body is kept by the loop. *)
Lemma for_each_invariant {A S} (body : S -> A -> result S) (I : S -> Prop)
    (l : list A) (st st' : S) :
  (∀ s x s', x ∈ l → I s → body s x = Ok s' → I s') →
  I st → for_each body l st = Ok st' → I st'.
Proof.
  revert st. induction l as [|x l IH]; intros st Hbody HI H; simpl in H.
  - injection H as <-. exact HI.
  - inv_bind H. apply (IH x0).
    + intros s y s' Hy. apply Hbody. by apply list_elem_of_further.
    + apply (Hbody st x x0); [apply list_elem_of_here | exact HI | exact Hx].
    + exact H.
Qed.

(** ** Sorting *)

Section Sorting.
Context {A : Type} (lt : A -> A -> result bool).

Lemma insort_perm (x : A) (l r : list A) :
  insort lt x l = Ok r → r ≡ₚ x :: l.
Proof.
  revert r. induction l as [|y l IH]; intros r H; simpl in H.
  - by injection H as <-.
  - destruct (lt x y) as [[|]|e]; simpl in H; try discriminate.
    + by injection H as <-.
    + destruct (insort lt x l) as [r'|e] eqn:Hr; simpl in H; try discriminate.
      injection H as <-. rewrite (IH r' eq_refl). apply Permutation_swap.
Qed.

Lemma sort_into_perm (acc l r : list A) :
  sort_into lt acc l = Ok r → r ≡ₚ acc ++ l.
Proof.
  revert acc r. induction l as [|x l IH]; intros acc r H; simpl in H.
  - injection H as <-. by rewrite app_nil_r.
  - destruct (insort lt x acc) as [acc'|e] eqn:Hacc; simpl in H;
      try discriminate.
    rewrite (IH _ _ H), (insort_perm _ _ _ Hacc).
    simpl. apply Permutation_middle.
Qed.

Lemma sorted_perm (l r : list A) : sorted lt l = Ok r → r ≡ₚ l.
Proof. apply sort_into_perm. Qed.

(** Sorting completes when no comparison among the elements raises. *)
Lemma insort_total (x : A) (l : list A) :
  (∀ y, y ∈ l → ∃ b, lt x y = Ok b) → ∃ r, insort lt x l = Ok r.
Proof.
  induction l as [|y l IH]; intros H; simpl; [by eexists|].
  destruct (H y) as [b Hb]; [apply list_elem_of_here|]. rewrite Hb. simpl.
  destruct b; [by eexists|].
  destruct IH as [r Hr].
  { intros z Hz. apply H. by apply list_elem_of_further. }
  rewrite Hr. by eexists.
Qed.

Lemma sort_into_total (acc l : list A) :
  (∀ x y, x ∈ acc ++ l → y ∈ acc ++ l → ∃ b, lt x y = Ok b) →
  ∃ r, sort_into lt acc l = Ok r.
Proof.
  revert acc. induction l as [|x l IH]; intros acc H; simpl; [by eexists|].
  destruct (insort_total x acc) as [acc' Hacc'].
  { intros y Hy. apply H; rewrite elem_of_app, ?elem_of_cons; auto. }
  rewrite Hacc'. simpl. apply IH.
  assert (Hin : ∀ y, y ∈ acc' ++ l → y ∈ acc ++ x :: l).
  { intros y Hy. apply elem_of_app in Hy as [Hy|Hy].
    - rewrite (insort_perm _ _ _ Hacc') in Hy.
      apply elem_of_cons in Hy as [->|Hy]; apply elem_of_app.
      + right. apply elem_of_cons. by left.
      + by left.
    - apply elem_of_app. right. apply elem_of_cons. by right. }
  intros y z Hy Hz. apply H; by apply Hin.
Qed.

Lemma sorted_total (l : list A) :
  (∀ x y, x ∈ l → y ∈ l → ∃ b, lt x y = Ok b) → ∃ r, sorted lt l = Ok r.
Proof. intros H. apply sort_into_total. exact H. Qed.

End Sorting.

(** Two candidates that tie on distance and heavy atom but name two
    different positions cannot be ordered. *)
Example sorted_tie_raises :
  sorted tuple_lt_obj [(1%Q, 1, 2); (1%Q, 1, 3)] = Raise TypeError.
Proof. reflexivity. Qed.



(** [sorted] on tuples of a float and two integers returns an ascending
    list. *)
Lemma tuple_lt_int_asym (x y : Q * nat * nat) :
  tuple_lt_int x y = Ok true → tuple_lt_int y x = Ok false.
Proof.
  destruct x as [[d1 a1] b1], y as [[d2 a2] b2].
  unfold tuple_lt_int, float_eq, float_lt.
  destruct (Qeq_bool d1 d2) eqn:Hd.
  - apply Qeq_bool_iff in Hd. symmetry in Hd. apply Qeq_bool_iff in Hd.
    rewrite Hd. cbn [negb]. rewrite (Nat.eqb_sym a2 a1).
    destruct (a1 =? a2) eqn:Ha; cbn [negb].
    + rewrite (Nat.eqb_sym b2 b1). destruct (b1 =? b2) eqn:Hb; cbn [negb];
        [done|]. intros [= Hlt]. apply Nat.ltb_lt in Hlt. f_equal.
      apply Nat.ltb_ge. lia.
    + intros [= Hlt]. apply Nat.ltb_lt in Hlt. f_equal.
      apply Nat.ltb_ge. lia.
  - assert (Hd' : Qeq_bool d2 d1 = false).
    { destruct (Qeq_bool d2 d1) eqn:Hd'; [|done].
      apply Qeq_bool_iff in Hd'. symmetry in Hd'. apply Qeq_bool_iff in Hd'.
      congruence. }
    rewrite Hd'. cbn [negb]. intros [= Hlt]. f_equal.
    apply negb_true_iff in Hlt. apply negb_false_iff, Qle_bool_iff.
    destruct (Qle_bool d2 d1) eqn:Hle; [discriminate|].
    apply Qlt_le_weak, Qnot_le_lt. intros H. apply Qle_bool_iff in H. congruence.
Qed.

Lemma insort_HdRel (x y : Q * nat * nat) (l r : list (Q * nat * nat)) :
  insort tuple_lt_int x l = Ok r →
  HdRel tuple_le y l → tuple_le y x → HdRel tuple_le y r.
Proof.
  destruct l as [|z l]; cbn [insort]; intros H Hhd Hyx.
  - injection H as <-. by constructor.
  - destruct (tuple_lt_int x z) as [[|]|e]; cbn [bind] in H; try discriminate.
    + injection H as <-. by constructor.
    + destruct (insort tuple_lt_int x l); cbn [bind] in H; try discriminate.
      injection H as <-. constructor. by inversion Hhd.
Qed.

Lemma insort_Sorted (x : Q * nat * nat) (l r : list (Q * nat * nat)) :
  Sorted tuple_le l → insort tuple_lt_int x l = Ok r → Sorted tuple_le r.
Proof.
  revert r. induction l as [|y l IH]; intros r Hs H; cbn [insort] in H.
  - injection H as <-. by repeat constructor.
  - destruct (tuple_lt_int x y) as [[|]|e] eqn:Hxy; cbn [bind] in H;
      try discriminate.
    + injection H as <-. constructor; [exact Hs|]. constructor.
      by apply tuple_lt_int_asym.
    + destruct (insort tuple_lt_int x l) as [r'|e] eqn:Hr; cbn [bind] in H;
        try discriminate.
      injection H as <-. apply Sorted_inv in Hs as [Hs Hhd].
      constructor; [by apply IH|]. by apply (insort_HdRel x y l r').
Qed.

Lemma sort_into_Sorted (acc l r : list (Q * nat * nat)) :
  Sorted tuple_le acc → sort_into tuple_lt_int acc l = Ok r → Sorted tuple_le r.
Proof.
  revert acc. induction l as [|x l IH]; intros acc Hs H; cbn [sort_into] in H.
  - by injection H as <-.
  - destruct (insort tuple_lt_int x acc) as [acc'|e] eqn:Hacc; cbn [bind] in H;
      try discriminate.
    apply (IH acc'); [|exact H]. by apply (insort_Sorted x acc).
Qed.

Lemma sorted_tuple_lt_int_Sorted (l r : list (Q * nat * nat)) :
  sorted tuple_lt_int l = Ok r → Sorted tuple_le r.
Proof. apply sort_into_Sorted. constructor. Qed.

(** On an ascending list of integers [sorted] changes nothing. *)
Lemma insort_int_last (x : nat) (l : list nat) :
  Forall (fun y => y ≤ x) l → insort int_lt x l = Ok (l ++ [x]).
Proof.
  induction 1 as [|y l Hy _ IH]; [reflexivity|].
  cbn [insort]. unfold int_lt at 1. cbn [bind].
  destruct (x <? y) eqn:Hlt; [apply Nat.ltb_lt in Hlt; lia|].
  rewrite IH. reflexivity.
Qed.

Lemma sort_into_int_ascending (acc l : list nat) :
  StronglySorted lt (acc ++ l) → sort_into int_lt acc l = Ok (acc ++ l).
Proof.
  revert acc. induction l as [|x l IH]; intros acc H; simpl.
  - by rewrite app_nil_r.
  - rewrite insort_int_last.
    + simpl. rewrite IH; rewrite <- app_assoc; [reflexivity | exact H].
    + apply Forall_forall. intros y Hy. apply Nat.lt_le_incl.
      apply (StronglySorted_app_1_elem_of lt acc (x :: l)); [exact H | exact Hy |].
      apply list_elem_of_here.
Qed.

Lemma sorted_int_ascending (l : list nat) :
  StronglySorted lt l → sorted int_lt l = Ok l.
Proof. intros H. by apply (sort_into_int_ascending [] l). Qed.

(** ** The bond-order rule *)

(** [next] finds the first entry that [list_find] finds. *)
Lemma next_list_find (E : Env) (z : nat) :
  next (fun x => z =? heavy_atomic_num x) (functional_group_list E) =
  match list_find (fun x => z = heavy_atomic_num x) (functional_group_list E) with
  | Some ix => Ok ix.2
  | None => Raise StopIteration
  end.
Proof.
  induction (functional_group_list E) as [|x l IH]; [reflexivity|].
  cbn [next list_find]. destruct (decide (z = heavy_atomic_num x)) as [Heq|Hne].
  - apply Nat.eqb_eq in Heq. rewrite Heq. reflexivity.
  - apply Nat.eqb_neq in Hne. rewrite Hne, IH.
    destruct (list_find _ l) as [[i y]|]; reflexivity.
Qed.

Lemma next_registered (E : Env) (z : nat) (s : string) :
  registered_symbol E z = Some s →
  ∃ fg, next (fun x => z =? heavy_atomic_num x) (functional_group_list E) = Ok fg
        ∧ heavy_symbol fg = s.
Proof.
  unfold registered_symbol. rewrite next_list_find.
  destruct (list_find _ _) as [[i y]|]; simpl; [|discriminate].
  intros [= <-]. by exists y.
Qed.

Lemma next_unregistered (E : Env) (z : nat) :
  registered_symbol E z = None →
  next (fun x => z =? heavy_atomic_num x) (functional_group_list E)
  = Raise StopIteration.
Proof.
  unfold registered_symbol. rewrite next_list_find.
  destruct (list_find _ _) as [[i y]|]; simpl; [discriminate | reflexivity].
Qed.

Lemma GetAtomWithIdx_Some (m : Mol) (i z : nat) :
  mol_atoms m !! i = Some z → GetAtomWithIdx m i = Ok z.
Proof. unfold GetAtomWithIdx. by intros ->. Qed.

Lemma double_bond_present_iff (s1 s2 : string) (combs : list (string * string)) :
  true ∈ map (fun tup => bool_decide ((s1, s2) = tup)
                         || bool_decide ((s2, s1) = tup)) combs
  ↔ (s1, s2) ∈ combs ∨ (s2, s1) ∈ combs.
Proof.
  rewrite list_elem_of_fmap. split.
  - intros (tup & Htrue & Hin). symmetry in Htrue.
    apply orb_true_iff in Htrue as [H|H]; apply bool_decide_eq_true in H;
      subst tup; auto.
  - intros [H|H].
    + exists (s1, s2). split; [|exact H].
      rewrite (bool_decide_eq_true_2 _ eq_refl). reflexivity.
    + exists (s2, s1). split; [|exact H].
      rewrite (bool_decide_eq_true_2 ((s2, s1) = (s2, s1)) eq_refl).
      by rewrite orb_true_r.
Qed.

(** The value of [determine_bond_type] on two registered atoms. *)
Lemma determine_bond_type_registered (E : Env) (st : Topology)
    (a b z1 z2 : nat) (s1 s2 : string) :
  mol_atoms (heavy_mol st) !! a = Some z1 →
  mol_atoms (heavy_mol st) !! b = Some z2 →
  registered_symbol E z1 = Some s1 →
  registered_symbol E z2 = Some s2 →
  determine_bond_type E st a b =
  Ok (if bool_decide ((s1, s2) ∈ double_bond_combs E
                      ∨ (s2, s1) ∈ double_bond_combs E)
      then DOUBLE else SINGLE).
Proof.
  intros Ha Hb H1 H2. unfold determine_bond_type.
  rewrite (GetAtomWithIdx_Some _ _ _ Ha), (GetAtomWithIdx_Some _ _ _ Hb).
  destruct (next_registered E z1 s1 H1) as (fg1 & Hfg1 & Hs1).
  destruct (next_registered E z2 s2 H2) as (fg2 & Hfg2 & Hs2).
  rewrite !bind_Ok_l, Hfg1, bind_Ok_l, Hfg2, bind_Ok_l, Hs1, Hs2.
  destruct (bool_decide (true ∈ _)) eqn:Hd.
  - apply bool_decide_eq_true in Hd. apply double_bond_present_iff in Hd.
    by rewrite (bool_decide_eq_true_2 _ Hd).
  - apply bool_decide_eq_false in Hd. rewrite double_bond_present_iff in Hd.
    by rewrite (bool_decide_eq_false_2 _ Hd).
Qed.

(** C6.  On two atoms whose atomic numbers are registered,
    [determine_bond_type] returns DOUBLE exactly when the pair of their
    heavy symbols is an entry of [double_bond_combs] in one of the two
    orders, SINGLE otherwise, and the result does not depend on the order
    of the two arguments. *)
Theorem determine_bond_type_double_iff (E : Env) (st : Topology)
    (a b z1 z2 : nat) (s1 s2 : string) :
  mol_atoms (heavy_mol st) !! a = Some z1 →
  mol_atoms (heavy_mol st) !! b = Some z2 →
  registered_symbol E z1 = Some s1 →
  registered_symbol E z2 = Some s2 →
  (determine_bond_type E st a b = Ok DOUBLE
   ↔ (s1, s2) ∈ double_bond_combs E ∨ (s2, s1) ∈ double_bond_combs E)
  ∧ (determine_bond_type E st a b = Ok SINGLE
     ↔ ¬ ((s1, s2) ∈ double_bond_combs E ∨ (s2, s1) ∈ double_bond_combs E))
  ∧ determine_bond_type E st a b = determine_bond_type E st b a.
Proof.
  intros Ha Hb H1 H2.
  rewrite (determine_bond_type_registered E st a b z1 z2 s1 s2 Ha Hb H1 H2).
  rewrite (determine_bond_type_registered E st b a z2 z1 s2 s1 Hb Ha H2 H1).
  split; [|split].
  - case_bool_decide as Hd; split; intros H; done.
  - case_bool_decide as Hd; split; intros H; done.
  - f_equal. rewrite (bool_decide_ext _ ((s2, s1) ∈ double_bond_combs E
                                         ∨ (s1, s2) ∈ double_bond_combs E));
      [reflexivity | tauto].
Qed.

Lemma determine_bond_type_double_iff_witness :
  determine_bond_type Cage.env Cage.two_atoms 0 1 = Ok DOUBLE
  ∧ determine_bond_type Cage.env Cage.two_atoms 0 1
    = determine_bond_type Cage.env Cage.two_atoms 1 0.
Proof.
  destruct (determine_bond_type_double_iff Cage.env Cage.two_atoms 0 1 39 40
              "Y" "Zr" eq_refl eq_refl eq_refl eq_refl) as (Hd & _ & Hsym).
  split; [|exact Hsym].
  apply Hd. left. apply list_elem_of_here.
Defined.

(** C3 (as the code has it).  When the atomic number of one of the two
    atoms has no entry in [functional_group_list], [determine_bond_type]
    returns no bond order: the registry lookup [next(...)] raises
    [StopIteration]. *)
Theorem determine_bond_type_unregistered (E : Env) (st : Topology)
    (a b z1 z2 : nat) :
  mol_atoms (heavy_mol st) !! a = Some z1 →
  mol_atoms (heavy_mol st) !! b = Some z2 →
  registered_symbol E z1 = None ∨ registered_symbol E z2 = None →
  determine_bond_type E st a b = Raise StopIteration.
Proof.
  intros Ha Hb Hun. unfold determine_bond_type.
  rewrite (GetAtomWithIdx_Some _ _ _ Ha), (GetAtomWithIdx_Some _ _ _ Hb).
  rewrite !bind_Ok_l.
  destruct (registered_symbol E z1) as [s1|] eqn:H1.
  - destruct Hun as [Hun|Hun]; [discriminate|].
    destruct (next_registered E z1 s1 H1) as (fg1 & -> & _).
    rewrite bind_Ok_l, (next_unregistered E z2 Hun). reflexivity.
  - rewrite (next_unregistered E z1 H1). reflexivity.
Qed.

Lemma determine_bond_type_unregistered_witness :
  determine_bond_type Cage.env_unregistered Cage.two_atoms 0 1
  = Raise StopIteration.
Proof.
  apply (determine_bond_type_unregistered Cage.env_unregistered
           Cage.two_atoms 0 1 39 40 eq_refl eq_refl).
  right. reflexivity.
Defined.

(** C3 as stated fails: element 40 is not registered, and the call on
    atoms 0 and 1 does not raise [MissingFunctionalGroupError]. *)
Lemma determine_bond_type_not_missing_group_error :
  mol_atoms (heavy_mol Cage.two_atoms) !! 1 = Some 40
  ∧ registered_symbol Cage.env_unregistered 40 = None
  ∧ determine_bond_type Cage.env_unregistered Cage.two_atoms 0 1
    = Raise StopIteration
  ∧ determine_bond_type Cage.env_unregistered Cage.two_atoms 0 1
    ≠ Raise MissingFunctionalGroupError.
Proof.
  split; [reflexivity|]. split; [reflexivity|]. split; [reflexivity|].
  intros H. vm_compute in H. discriminate H.
Qed.

(** ** Greedy exclusive matching *)

Lemma greedy_ext (c1 c2 : list nat) (l : list (Q * nat * nat)) :
  (∀ x, x ∈ c1 ↔ x ∈ c2) →
  greedy_exclusive_match c1 l = greedy_exclusive_match c2 l.
Proof.
  revert c1 c2. induction l as [|[[d a] b] l IH]; intros c1 c2 Hc; [reflexivity|].
  cbn [greedy_exclusive_match].
  rewrite (bool_decide_ext (a ∈ c1) (a ∈ c2)) by apply Hc.
  rewrite (bool_decide_ext (b ∈ c1) (b ∈ c2)) by apply Hc.
  destruct (bool_decide (a ∈ c2) || bool_decide (b ∈ c2)).
  - by apply IH.
  - f_equal. apply IH. intros x. rewrite !elem_of_cons. by rewrite Hc.
Qed.

Lemma greedy_app (c : list nat) (l1 l2 : list (Q * nat * nat)) :
  greedy_exclusive_match c (l1 ++ l2) =
  greedy_exclusive_match c l1 ++
  greedy_exclusive_match (claimed_atoms (greedy_exclusive_match c l1) ++ c) l2.
Proof.
  revert c. induction l1 as [|[[d a] b] l1 IH]; intros c; [reflexivity|].
  cbn [greedy_exclusive_match app].
  destruct (bool_decide (a ∈ c) || bool_decide (b ∈ c)); [apply IH|].
  rewrite IH. cbn [app]. f_equal. f_equal. apply greedy_ext.
  intros x. unfold claimed_atoms. cbn [flat_map fst snd app].
  rewrite !elem_of_app, !elem_of_cons, !elem_of_app. tauto.
Qed.

Lemma pairs_at_cons (a : nat) (xy : nat * nat) (pairs : list (nat * nat)) :
  pairs_at a (xy :: pairs) =
  (if bool_decide (a = xy.1 ∨ a = xy.2) then 1 else 0) + pairs_at a pairs.
Proof.
  unfold pairs_at. rewrite filter_cons.
  destruct (decide (a = xy.1 ∨ a = xy.2)) as [H|H].
  - by rewrite (bool_decide_eq_true_2 _ H).
  - by rewrite (bool_decide_eq_false_2 _ H).
Qed.

Lemma pairs_at_app (a : nat) (p1 p2 : list (nat * nat)) :
  pairs_at a (p1 ++ p2) = pairs_at a p1 + pairs_at a p2.
Proof. unfold pairs_at. by rewrite filter_app, length_app. Qed.

Lemma pairs_at_claimed (a : nat) (pairs : list (nat * nat)) :
  a ∈ claimed_atoms pairs ↔ 0 < pairs_at a pairs.
Proof.
  induction pairs as [|xy pairs IH].
  - unfold claimed_atoms, pairs_at. simpl. rewrite elem_of_nil. lia.
  - rewrite pairs_at_cons. unfold claimed_atoms in *. cbn [flat_map app].
    rewrite !elem_of_cons, IH. case_bool_decide as H; [|lia].
    split; [lia | tauto].
Qed.

(** No atom is a member of two accepted pairs, and none of an atom that
    was claimed beforehand. *)
Lemma greedy_pairs_at (c : list nat) (l : list (Q * nat * nat)) (a : nat) :
  pairs_at a (greedy_exclusive_match c l) ≤ 1
  ∧ (a ∈ c → pairs_at a (greedy_exclusive_match c l) = 0).
Proof.
  revert c. induction l as [|[[d x] y] l IH]; intros c.
  - split; [apply Nat.le_0_l | reflexivity].
  - cbn [greedy_exclusive_match].
    destruct (bool_decide (x ∈ c) || bool_decide (y ∈ c)) eqn:Hxy; [apply IH|].
    apply orb_false_iff in Hxy as [Hx Hy].
    apply bool_decide_eq_false in Hx, Hy.
    destruct (IH (x :: y :: c)) as [Hle Hzero].
    rewrite pairs_at_cons. cbn [fst snd]. case_bool_decide as Ha.
    + rewrite Hzero; [|rewrite !elem_of_cons; tauto].
      split; [lia|]. intros Hc. destruct Ha; congruence.
    + split; [lia|]. intros Hc. apply Hzero. rewrite !elem_of_cons. tauto.
Qed.

(** A pair is accepted exactly at a candidate none of whose members is
    claimed by the pairs accepted before it. *)
Lemma greedy_elem (c : list nat) (l : list (Q * nat * nat)) (a b : nat) :
  (a, b) ∈ greedy_exclusive_match c l ↔
  ∃ l1 d l2, l = l1 ++ (d, a, b) :: l2
    ∧ (a ∉ claimed_atoms (greedy_exclusive_match c l1) ++ c)
    ∧ (b ∉ claimed_atoms (greedy_exclusive_match c l1) ++ c).
Proof.
  split.
  - revert c. induction l as [|[[d x] y] l IH]; intros c Hin.
    { by apply elem_of_nil in Hin. }
    cbn [greedy_exclusive_match] in Hin.
    destruct (bool_decide (x ∈ c) || bool_decide (y ∈ c)) eqn:Hxy.
    + destruct (IH c Hin) as (l1 & d' & l2 & -> & Ha & Hb).
      exists ((d, x, y) :: l1), d', l2. cbn [greedy_exclusive_match app].
      rewrite Hxy. auto.
    + apply orb_false_iff in Hxy as Hxy'. destruct Hxy' as [Hx Hy].
      apply bool_decide_eq_false in Hx, Hy.
      apply elem_of_cons in Hin as [[= -> ->]|Hin].
      * exists [], d, l. cbn. auto.
      * destruct (IH _ Hin) as (l1 & d' & l2 & -> & Ha & Hb).
        exists ((d, x, y) :: l1), d', l2. cbn [greedy_exclusive_match app].
        rewrite Hxy. unfold claimed_atoms in *. cbn [flat_map fst snd app].
        split; [reflexivity|].
        revert Ha Hb. rewrite !elem_of_cons, !elem_of_app, !elem_of_cons. tauto.
  - intros (l1 & d & l2 & -> & Ha & Hb). rewrite greedy_app.
    apply elem_of_app. right. cbn [greedy_exclusive_match].
    rewrite (bool_decide_eq_false_2 _ Ha), (bool_decide_eq_false_2 _ Hb).
    apply list_elem_of_here.
Qed.

(** ** The bonding pass of [join_mols] *)

Lemma set_bonds_made_same (st : Topology) :
  set_bonds_made st (bonds_made st + 0) = st.
Proof. destruct st. unfold set_bonds_made. simpl. by rewrite Nat.add_0_r. Qed.

(** The inner loop: the bonds added are those of the greedy matching of
    the list, started from the atoms already in [paired]. *)
Lemma bond_steps_greedy (E : Env) (l : list (Q * nat * nat)) (st : Topology)
    (em : Mol) (paired : gset nat) (claimed : list nat)
    (acc' : Topology * Mol * gset nat) :
  (∀ x, x ∈ paired ↔ x ∈ claimed) →
  for_each (bond_step E) l (st, em, paired) = Ok acc' →
  ∃ new,
    bond_atoms <$> new = greedy_exclusive_match claimed l
    ∧ acc'.1.1 = set_bonds_made st (bonds_made st + length new)
    ∧ acc'.1.2 = mkMol (mol_atoms em) (mol_bonds em ++ new)
    ∧ (∀ x, x ∈ acc'.2 ↔
            x ∈ claimed_atoms (greedy_exclusive_match claimed l) ++ claimed)
    ∧ Forall (fun b => determine_bond_type E st b.1.1 b.1.2 = Ok b.2) new.
Proof.
  revert st em paired claimed.
  induction l as [|[[d a] b] l IH]; intros st em paired claimed Hc H.
  - injection H as <-. exists []. cbn.
    rewrite set_bonds_made_same, app_nil_r. destruct em.
    repeat split; auto; apply Hc.
  - cbn [for_each] in H. inv_bind H. cbn [bond_step] in Hx.
    cbn [greedy_exclusive_match].
    rewrite <- (bool_decide_ext _ _ (Hc a)), <- (bool_decide_ext _ _ (Hc b)).
    destruct (bool_decide (a ∈ paired) || bool_decide (b ∈ paired)) eqn:Hab.
    + injection Hx as <-. exact (IH _ _ _ _ Hc H).
    + inv_bind Hx. injection Hx as <-.
      assert (Hc' : ∀ x, x ∈ ({[b]} ∪ ({[a]} ∪ paired) : gset nat)
                         ↔ x ∈ a :: b :: claimed).
      { intros x. rewrite !elem_of_union, !elem_of_singleton, !elem_of_cons, Hc.
        tauto. }
      destruct (IH _ _ _ _ Hc' H) as (new & Hnew & Hst & Hem & Hp & Hdet).
      exists ((a, b, x0) :: new). cbn [fmap list_fmap length].
      split; [cbn; by f_equal|].
      split; [rewrite Hst; unfold set_bonds_made; cbn; f_equal; lia|].
      split; [rewrite Hem; cbn; by rewrite <- app_assoc|].
      split.
      * intros x. rewrite Hp. unfold claimed_atoms. cbn [flat_map fst snd app].
        rewrite !elem_of_app, !elem_of_cons, !elem_of_app. tauto.
      * constructor; [exact Hx0 | exact Hdet].
Qed.

Lemma mapM_cons_Ok {A B} (f : A -> result B) (x : A) (l : list A)
    (y : B) (k : list B) :
  f x = Ok y → mapM f l = Ok k → mapM f (x :: l) = Ok (y :: k).
Proof. intros Hy Hk. cbn [mapM]. rewrite Hy, bind_Ok_l, Hk. reflexivity. Qed.

(** The outer loop: the sites are taken in the order of [positions_A],
    each with its own sorted list, and [paired] is carried from one site
    to the next. *)
Lemma bond_sites_greedy (E : Env) (ps : list nat) (st : Topology)
    (em : Mol) (paired : gset nat) (claimed : list nat)
    (acc' : Topology * Mol * gset nat) :
  (∀ x, x ∈ paired ↔ x ∈ claimed) →
  for_each (bond_site E) ps (st, em, paired) = Ok acc' →
  ∃ per_site new,
    mapM (fun p => sorted tuple_lt_int (distances (sites st p))) ps
      = Ok per_site
    ∧ bond_atoms <$> new = greedy_exclusive_match claimed (concat per_site)
    ∧ acc'.1.1 = set_bonds_made st (bonds_made st + length new)
    ∧ acc'.1.2 = mkMol (mol_atoms em) (mol_bonds em ++ new)
    ∧ Forall (fun b => determine_bond_type E st b.1.1 b.1.2 = Ok b.2) new.
Proof.
  revert st em paired claimed.
  induction ps as [|p ps IH]; intros st em paired claimed Hc H.
  - injection H as <-. exists [], []. cbn.
    rewrite set_bonds_made_same, app_nil_r. destruct em. auto.
  - cbn [for_each] in H. inv_bind H. unfold bond_site in Hx. inv_bind Hx.
    cbn [fst] in Hx0.
    destruct (bond_steps_greedy E _ _ _ _ _ _ Hc Hx)
      as (new1 & Hnew1 & Hst1 & Hem1 & Hp1 & Hdet1).
    destruct x as [[st1 em1] paired1]. cbn [fst snd] in Hst1, Hem1, Hp1.
    destruct (IH _ _ _ _ Hp1 H) as (per_site & new2 & Hmap & Hnew2 & Hst2 & Hem2 & Hdet2).
    exists (x0 :: per_site), (new1 ++ new2).
    split.
    { apply mapM_cons_Ok; [exact Hx0|]. rewrite <- Hmap, Hst1. reflexivity. }
    split.
    { cbn [concat]. rewrite greedy_app, fmap_app, Hnew1, Hnew2. reflexivity. }
    split.
    { rewrite Hst2, Hst1. unfold set_bonds_made. cbn. f_equal.
      rewrite length_app. lia. }
    split.
    { rewrite Hem2, Hem1. cbn. by rewrite <- app_assoc. }
    apply Forall_app. split; [exact Hdet1|]. rewrite Hst1 in Hdet2. exact Hdet2.
Qed.

Lemma same_but_sites_refl (st : Topology) : same_but_sites st st.
Proof. by repeat split. Qed.

Lemma same_but_sites_trans (st1 st2 st3 : Topology) :
  same_but_sites st1 st2 → same_but_sites st2 st3 → same_but_sites st1 st3.
Proof.
  unfold same_but_sites. intros (?&?&?&?&?&?&?) (?&?&?&?&?&?&?).
  repeat split; congruence.
Qed.

Lemma foldl_invariant {A S} (f : S -> A -> S) (I : S -> Prop) (l : list A)
    (s : S) :
  (∀ s x, I s → I (f s x)) → I s → I (foldl f s l).
Proof.
  intros Hf. revert s. induction l as [|x l IH]; intros s Hs; [exact Hs|].
  cbn [foldl]. apply IH, Hf, Hs.
Qed.

(** The first pass of [join_mols] writes to [distances] only. *)
Lemma collect_distances_same (E : Env) (st : Topology) (p : nat) :
  same_but_sites st (collect_distances E st p).
Proof.
  unfold collect_distances.
  apply (foldl_invariant _ (same_but_sites st)); [|apply same_but_sites_refl].
  intros s [a v] Hs.
  apply (foldl_invariant _ (same_but_sites st)); [|exact Hs].
  intros s' b Hs'. apply (same_but_sites_trans _ _ _ Hs').
  by repeat split.
Qed.

Lemma collect_all_distances_same (E : Env) (st : Topology) (ps : list nat) :
  same_but_sites st (foldl (collect_distances E) st ps).
Proof.
  apply (foldl_invariant _ (same_but_sites st)); [|apply same_but_sites_refl].
  intros s p Hs. apply (same_but_sites_trans _ _ _ Hs), collect_distances_same.
Qed.

(** What a run of [join_mols] does to the molecule and to the counter. *)
Lemma join_mols_inv (E : Env) (st st' : Topology) :
  join_mols E st = Ok st' →
  ∃ new L,
    sitewise_sorted_distances st' = Ok L
    ∧ bond_atoms <$> new = greedy_exclusive_match [] L
    ∧ heavy_mol st' = mkMol (mol_atoms (heavy_mol st))
                            (mol_bonds (heavy_mol st) ++ new)
    ∧ bonds_made st' = bonds_made st + length new
    ∧ Forall (fun b => determine_bond_type E st b.1.1 b.1.2 = Ok b.2) new
    ∧ positions_A st' = positions_A st
    ∧ sites st' = sites (foldl (collect_distances E) st (positions_A st)).
Proof.
  unfold join_mols. intros H. inv_bind H. injection H as <-.
  pose proof (collect_all_distances_same E st (positions_A st)) as Hsame.
  set (st1 := foldl (collect_distances E) st (positions_A st)) in *.
  destruct Hsame as (Hbb & Hmol & Hprist & HA & HB & Hmade & Hcnt).
  assert (Hc : ∀ y, y ∈ (∅ : gset nat) ↔ y ∈ ([] : list nat)).
  { intros y. rewrite elem_of_nil. set_solver. }
  destruct (bond_sites_greedy E _ _ _ _ _ _ Hc Hx)
    as (per_site & new & Hmap & Hnew & Hst & Hem & Hdet).
  exists new, (concat per_site). rewrite Hst, Hem.
  unfold sitewise_sorted_distances. cbn. rewrite Hmap, bind_Ok_l.
  repeat split; auto; try lia.
  eapply Forall_impl; [exact Hdet|]. intros b Hb. cbn in Hb.
  unfold determine_bond_type in *. rewrite <- Hmol. exact Hb.
Qed.

Lemma formed_bonds_app (st st' : Topology) (new : list (nat * nat * BondType)) :
  mol_bonds (heavy_mol st') = mol_bonds (heavy_mol st) ++ new →
  formed_bonds st st' = new.
Proof. unfold formed_bonds. intros ->. by rewrite drop_app_length. Qed.

Lemma mapM_Ok_Forall2 {A B} (f : A -> result B) (l : list A) (k : list B) :
  mapM f l = Ok k → Forall2 (fun x y => f x = Ok y) l k.
Proof.
  revert k. induction l as [|x l IH]; intros k H; cbn [mapM] in H.
  - injection H as <-. constructor.
  - inv_bind H. inv_bind H. injection H as <-. constructor; [exact Hx|].
    by apply IH.
Qed.

(** C1 (as the code has it).  The bonds [join_mols] forms are, in order,
    the result of greedy exclusive matching over the sites' own ascending
    sorted distance lists taken one after the other in the order of
    [positions_A], with the set of claimed atoms carried across the
    sites: a pair is bonded exactly at a triple none of whose atoms is
    claimed by a pair accepted earlier in that order. *)
Theorem join_mols_sitewise_greedy (E : Env) (st st' : Topology) :
  join_mols E st = Ok st' →
  ∃ per_site,
    Forall2 (fun p seg => seg ≡ₚ distances (sites st' p) ∧ Sorted tuple_le seg)
            (positions_A st) per_site
    ∧ sitewise_sorted_distances st' = Ok (concat per_site)
    ∧ bond_atoms <$> formed_bonds st st'
      = greedy_exclusive_match [] (concat per_site)
    ∧ ∀ a b, (a, b) ∈ bond_atoms <$> formed_bonds st st' ↔
        ∃ L1 d L2, concat per_site = L1 ++ (d, a, b) :: L2
          ∧ (a ∉ claimed_atoms (greedy_exclusive_match [] L1))
          ∧ (b ∉ claimed_atoms (greedy_exclusive_match [] L1)).
Proof.
  intros H.
  destruct (join_mols_inv E st st' H)
    as (new & L & HL & Hnew & Hmol & _ & _ & HA & _).
  pose proof HL as HL'. unfold sitewise_sorted_distances in HL'.
  inv_bind HL'. injection HL' as <-. rename x into per_site.
  exists per_site. rewrite (formed_bonds_app st st' new) by (by rewrite Hmol).
  split.
  { rewrite <- HA. apply mapM_Ok_Forall2 in Hx.
    eapply Forall2_impl; [exact Hx|]. intros p seg Hseg. cbn in Hseg.
    split; [by apply (sorted_perm tuple_lt_int) | by eapply sorted_tuple_lt_int_Sorted]. }
  split; [exact HL|]. split; [exact Hnew|].
  intros a b. rewrite Hnew, greedy_elem.
  split; intros (L1 & d & L2 & HLeq & Ha & Hb); exists L1, d, L2;
    rewrite app_nil_r in *; auto.
Qed.

(** ** Placement *)

Lemma place_mol_Ok (E : Env) (s : Site) (bb : nat) (r : Site * Mol) :
  place_mol E s bb = Ok r → r = (set_distances s [], bb_heavy_mol E bb).
Proof.
  unfold place_mol, Vertex_place_mol, Edge_place_mol.
  destruct (kind s).
  - destruct (take 2 _) as [|? [|? [|? ?]]]; try discriminate.
    intros H. inv_bind H. by injection H as <-.
  - by intros [= <-].
Qed.

Lemma pair_heavy_ids_with_connected_Ok (E : Env) (st st' : Topology) (v : nat) :
  pair_heavy_ids_with_connected E st v = Ok st' →
  ∃ sorted_d,
    sorted tuple_lt_obj (site_candidates E (sites st v)) = Ok sorted_d
    ∧ st' = set_site st v
              (set_atom_position_pairs (sites st v)
                 (foldl pair_step ([], ∅, ∅) sorted_d).1.1).
Proof.
  unfold pair_heavy_ids_with_connected. intros H. inv_bind H.
  exists x. split; [exact Hx|].
  destruct (foldl pair_step _ x) as [[pairs ids] pos]. by injection H as <-.
Qed.

(** The deque of the scan stays in increasing order. *)
Lemma deque_append_sorted (maxlen idx : nat) (dq : list nat) :
  StronglySorted lt dq → Forall (fun x => x < idx) dq →
  StronglySorted lt (deque_append maxlen dq idx)
  ∧ Forall (fun x => x < S idx) (deque_append maxlen dq idx).
Proof.
  intros Hs Hlt.
  assert (Hs' : StronglySorted lt (dq ++ [idx])).
  { apply StronglySorted_app_2; [|exact Hs|repeat constructor].
    intros x1 x2 H1 H2. apply list_elem_of_singleton in H2 as ->.
    rewrite Forall_forall in Hlt. by apply Hlt. }
  assert (Hlt' : Forall (fun x => x < S idx) (dq ++ [idx])).
  { apply Forall_app. split; [|repeat constructor].
    eapply Forall_impl; [exact Hlt|]. intros x Hx. simpl in Hx. lia. }
  unfold deque_append. destruct (length dq <? maxlen); [by split|].
  destruct (dq ++ [idx]) as [|y l]; [by split|]. cbn [drop].
  apply StronglySorted_inv in Hs' as [Hs' _].
  apply Forall_cons in Hlt' as [_ Hlt']. by split.
Qed.

Lemma collect_heavy_ids_sorted (E : Env) (maxlen idx : nat) (atoms dq : list nat) :
  StronglySorted lt dq → Forall (fun x => x < idx) dq →
  StronglySorted lt (collect_heavy_ids E maxlen idx atoms dq).
Proof.
  revert idx dq. induction atoms as [|z atoms IH]; intros idx dq Hs Hlt;
    [exact Hs|].
  cbn [collect_heavy_ids]. destruct (bool_decide (z ∈ heavy_atomic_nums E)).
  - destruct (deque_append_sorted maxlen idx dq Hs Hlt) as [Hs' Hlt'].
    by apply IH.
  - apply IH; [exact Hs|]. eapply Forall_impl; [exact Hlt|].
    intros x Hx. simpl in Hx. lia.
Qed.

(** On the deque of the scan [sorted] is the identity. *)
Lemma sorted_collect_heavy_ids (E : Env) (maxlen : nat) (atoms : list nat) :
  sorted int_lt (collect_heavy_ids E maxlen 0 atoms [])
  = Ok (collect_heavy_ids E maxlen 0 atoms []).
Proof.
  apply sorted_int_ascending, collect_heavy_ids_sorted; constructor.
Qed.

(** The body of the first loop of [place_mols]. *)
Lemma place_on_A_inv (E : Env) (n bb : nat) (st st' : Topology) (p : nat) :
  place_on_A E n bb st p = Ok st' →
  placed_one E bb st st'
  ∧ heavy_ids (sites st' p) =
      collect_heavy_ids E n 0 (mol_atoms (heavy_mol st')) []
  ∧ (∀ q, q ≠ p → sites st' q = sites st q).
Proof.
  unfold place_on_A. intros H. inv_bind H.
  apply place_mol_Ok in Hx as ->. cbn [fst snd] in H.
  rewrite sorted_collect_heavy_ids, bind_Ok_l in H.
  apply pair_heavy_ids_with_connected_Ok in H as (sorted_d & _ & ->).
  split; [by repeat split|]. split.
  - cbn. by rewrite !fn_lookup_insert.
  - intros q Hq. cbn. by rewrite !fn_lookup_insert_ne.
Qed.

(** The body of the second loop of [place_mols]. *)
Lemma place_on_B_inv (E : Env) (n lk : nat) (st st' : Topology) (p : nat) :
  place_on_B E n lk st p = Ok st' →
  placed_one E lk st st'
  ∧ heavy_ids (sites st' p) =
      collect_heavy_ids E n 0 (mol_atoms (heavy_mol st')) []
  ∧ (∀ q, q ≠ p → sites st' q = sites st q).
Proof.
  unfold place_on_B. intros H. inv_bind H.
  apply place_mol_Ok in Hx as ->. cbn [fst snd] in H. injection H as <-.
  split; [by repeat split|]. split.
  - cbn. by rewrite !fn_lookup_insert.
  - intros q Hq. cbn. by rewrite !fn_lookup_insert_ne.
Qed.

Lemma tally_counter_update (c : gmap nat nat) (bb k : nat) :
  tally (counter_update c bb) k =
  if decide (bb = k) then S (tally c k) else tally c k.
Proof.
  unfold tally, counter_update. rewrite lookup_insert.
  destruct (decide (bb = k)) as [->|]; reflexivity.
Qed.

(** A loop that places one copy of [bb] per site. *)
Lemma place_loop_inv (E : Env) (bb : nat)
    (body : Topology -> nat -> result Topology) (ps : list nat)
    (st st' : Topology) :
  (∀ s p s', body s p = Ok s' → placed_one E bb s s') →
  for_each body ps st = Ok st' →
  building_blocks st' = building_blocks st
  ∧ mol_atoms (heavy_mol st') =
      mol_atoms (heavy_mol st) ++ placed_atoms E bb (length ps)
  ∧ positions_A st' = positions_A st
  ∧ positions_B st' = positions_B st
  ∧ bonds_made st' = bonds_made st
  ∧ tally (bb_counter st') bb = tally (bb_counter st) bb + length ps
  ∧ (∀ k, k ≠ bb → tally (bb_counter st') k = tally (bb_counter st) k).
Proof.
  intros Hbody. revert st. induction ps as [|p ps IH]; intros st H.
  - injection H as <-. unfold placed_atoms. cbn. rewrite app_nil_r.
    repeat split; auto.
  - cbn [for_each] in H. inv_bind H.
    destruct (Hbody _ _ _ Hx) as (Hbb & Hmol & _ & HA & HB & Hmade & Hcnt).
    destruct (IH _ H) as (Hbb' & Hmol' & HA' & HB' & Hmade' & Htally & Hother).
    rewrite Hbb', Hmol', HA', HB', Hmade', Htally, Hbb, HA, HB, Hmade, Hcnt, Hmol.
    repeat split; auto.
    + unfold placed_atoms. cbn. by rewrite <- app_assoc.
    + rewrite tally_counter_update. rewrite decide_True by done. cbn. lia.
    + intros k Hk. rewrite (Hother k Hk), Hcnt, tally_counter_update.
      by rewrite decide_False.
Qed.

(** A loop that sets the [heavy_ids] of the site it visits and leaves
    the other sites alone. *)
Lemma place_loop_heavy_ids (P : list nat -> Prop)
    (body : Topology -> nat -> result Topology) (ps : list nat)
    (st st' : Topology) :
  (∀ s p s', body s p = Ok s' →
     P (heavy_ids (sites s' p)) ∧ ∀ q, q ≠ p → sites s' q = sites s q) →
  for_each body ps st = Ok st' →
  (∀ q, q ∈ ps → P (heavy_ids (sites st' q)))
  ∧ (∀ q, q ∉ ps → sites st' q = sites st q).
Proof.
  intros Hbody. revert st. induction ps as [|p ps IH]; intros st H.
  - injection H as <-. split; [|done]. intros q Hq. by apply elem_of_nil in Hq.
  - cbn [for_each] in H. inv_bind H.
    destruct (Hbody _ _ _ Hx) as [HP Hframe].
    destruct (IH _ H) as [HPs Hother]. split.
    + intros q Hq. destruct (decide (q ∈ ps)) as [Hin|Hnin]; [by apply HPs|].
      apply elem_of_cons in Hq as [->|Hq]; [|done].
      by rewrite (Hother p Hnin).
    + intros q Hq. rewrite elem_of_cons in Hq.
      rewrite Hother by tauto. apply Hframe. tauto.
Qed.

(** [place_mols] is the two loops, run on the blocks that
    [assign_blocks] chooses. *)
Lemma place_mols_inv (E : Env) (st st' : Topology) :
  place_mols E st = Ok st' →
  ∃ bb1 bb2 st_mid,
    building_blocks st !! 0 = Some bb1
    ∧ building_blocks st !! 1 = Some bb2
    ∧ let n_fg1 := length (find_functional_group_atoms E bb1) in
      let n_fg2 := length (find_functional_group_atoms E bb2) in
      let a := assign_blocks bb1 bb2 n_fg1 n_fg2 in
      for_each (place_on_A E a.2 a.1.2) (positions_A st)
               (set_heavy_mol st empty_mol) = Ok st_mid
      ∧ for_each (place_on_B E a.1.1.2 a.1.1.1) (positions_B st_mid) st_mid
        = Ok st'.
Proof.
  unfold place_mols, getitem. cbn [building_blocks set_heavy_mol].
  destruct (building_blocks st !! 0) as [bb1|]; [|discriminate].
  destruct (building_blocks st !! 1) as [bb2|]; [|discriminate].
  rewrite !bind_Ok_l.
  destruct (assign_blocks bb1 bb2 _ _) as [[[lk n_lk] bb] n_bb] eqn:Ha.
  intros H. inv_bind H. exists bb1, bb2, x. cbn zeta. rewrite Ha. auto.
Qed.

Lemma Cage_place_mols : place_mols Cage.env Cage.start = Ok Cage.placed.
Proof. vm_compute. reflexivity. Defined.

Lemma Cage_join_mols : join_mols Cage.env Cage.placed = Ok Cage.joined.
Proof. vm_compute. reflexivity. Defined.

Lemma Cage_build : build Cage.env Cage.start = Ok Cage.built.
Proof. vm_compute. reflexivity. Defined.

Lemma Cage_place_mols_tie : place_mols Cage.env_tie Cage.start = Ok Cage.placed_tie.
Proof. vm_compute. reflexivity. Defined.

(** C7.  When the two building blocks differ in their number of
    functional groups, [place_mols] runs its first loop, over
    [positions_A], with the block that has more groups and its second
    loop, over [positions_B], with the block that has fewer; the molecule
    then holds one copy of the core per site of [positions_A] followed by
    one copy of the linker per site of [positions_B], and the tally of the
    core has grown by [len(positions_A)], that of the linker by
    [len(positions_B)] (from a fresh [Counter] they are exactly these
    numbers). *)
Theorem place_mols_core_and_linker (E : Env) (st st' : Topology) (bb1 bb2 : nat) :
  building_blocks st !! 0 = Some bb1 →
  building_blocks st !! 1 = Some bb2 →
  length (find_functional_group_atoms E bb1)
    ≠ length (find_functional_group_atoms E bb2) →
  place_mols E st = Ok st' →
  let n_fg1 := length (find_functional_group_atoms E bb1) in
  let n_fg2 := length (find_functional_group_atoms E bb2) in
  let core := if n_fg1 <? n_fg2 then bb2 else bb1 in
  let linker := if n_fg1 <? n_fg2 then bb1 else bb2 in
  let n_core := length (find_functional_group_atoms E core) in
  let n_linker := length (find_functional_group_atoms E linker) in
  n_linker < n_core
  ∧ (∃ st_mid,
       for_each (place_on_A E n_core core) (positions_A st)
                (set_heavy_mol st empty_mol) = Ok st_mid
       ∧ for_each (place_on_B E n_linker linker) (positions_B st) st_mid
         = Ok st')
  ∧ mol_atoms (heavy_mol st') =
      placed_atoms E core (length (positions_A st))
      ++ placed_atoms E linker (length (positions_B st))
  ∧ tally (bb_counter st') core
    = tally (bb_counter st) core + length (positions_A st)
  ∧ tally (bb_counter st') linker
    = tally (bb_counter st) linker + length (positions_B st)
  ∧ (bb_counter st = ∅ →
     tally (bb_counter st') core = length (positions_A st)
     ∧ tally (bb_counter st') linker = length (positions_B st)).
Proof.
  intros H1 H2 Hne H. cbn zeta.
  destruct (place_mols_inv E st st' H) as (b1 & b2 & st_mid & H1' & H2' & HA & HB).
  rewrite H1 in H1'. rewrite H2 in H2'. injection H1' as <-. injection H2' as <-.
  cbn zeta in HA, HB. unfold assign_blocks in HA, HB.
  set (c := if _ <? _ then bb2 else bb1).
  set (l := if _ <? _ then bb1 else bb2).
  assert (Hc : length (find_functional_group_atoms E l)
               < length (find_functional_group_atoms E c)).
  { subst c l. destruct (_ <? _) eqn:Hlt.
    - by apply Nat.ltb_lt in Hlt.
    - apply Nat.ltb_ge in Hlt. lia. }
  assert (HA' : for_each (place_on_A E (length (find_functional_group_atoms E c)) c)
                  (positions_A st) (set_heavy_mol st empty_mol) = Ok st_mid).
  { subst c. destruct (_ <? _); exact HA. }
  assert (HB' : for_each (place_on_B E (length (find_functional_group_atoms E l)) l)
                  (positions_B st_mid) st_mid = Ok st').
  { subst l. destruct (_ <? _); exact HB. }
  clear HA HB.
  destruct (place_loop_inv E c _ _ _ _
              (fun s p s' Hs => proj1 (place_on_A_inv E _ c s s' p Hs)) HA')
    as (_ & HmolA & _ & HposB & _ & HtA & HoA).
  destruct (place_loop_inv E l _ _ _ _
              (fun s p s' Hs => proj1 (place_on_B_inv E _ l s s' p Hs)) HB')
    as (_ & HmolB & _ & _ & _ & HtB & HoB).
  cbn [set_heavy_mol heavy_mol positions_A positions_B bb_counter] in *.
  rewrite HposB in *.
  assert (Hcl : c ≠ l) by (intros Heq; rewrite Heq in Hc; lia).
  assert (Htc : tally (bb_counter st') c
                = tally (bb_counter st) c + length (positions_A st)).
  { rewrite (HoB c Hcl). exact HtA. }
  assert (Htl : tally (bb_counter st') l
                = tally (bb_counter st) l + length (positions_B st)).
  { rewrite HtB, (HoA l); [reflexivity | congruence]. }
  split; [exact Hc|]. split; [by exists st_mid|].
  split; [by rewrite HmolB, HmolA|]. split; [exact Htc|]. split; [exact Htl|].
  intros Hempty. rewrite Htc, Htl, Hempty. unfold tally.
  rewrite !lookup_empty. done.
Qed.

Lemma place_mols_core_and_linker_witness :
  tally (bb_counter Cage.placed) Cage.core = 2
  ∧ tally (bb_counter Cage.placed) Cage.linker = 3.
Proof.
  destruct (place_mols_core_and_linker Cage.env Cage.start Cage.placed
              Cage.core Cage.linker eq_refl eq_refl ltac:(vm_compute; lia)
              Cage_place_mols) as (_ & _ & _ & _ & _ & Hfresh).
  exact (Hfresh eq_refl).
Defined.

(** C10.  When the two building blocks have the same number of
    functional groups, [place_mols] runs its first loop, over
    [positions_A], with [building_blocks[0]] and its second loop, over
    [positions_B], with [building_blocks[1]]: the molecule holds one copy
    of the first block per site of [positions_A] followed by one copy of
    the second block per site of [positions_B]. *)
Theorem place_mols_tie_first_is_core (E : Env) (st st' : Topology) (bb1 bb2 : nat) :
  building_blocks st !! 0 = Some bb1 →
  building_blocks st !! 1 = Some bb2 →
  length (find_functional_group_atoms E bb1)
    = length (find_functional_group_atoms E bb2) →
  place_mols E st = Ok st' →
  let n_fg1 := length (find_functional_group_atoms E bb1) in
  let n_fg2 := length (find_functional_group_atoms E bb2) in
  assign_blocks bb1 bb2 n_fg1 n_fg2 = (bb2, n_fg2, bb1, n_fg1)
  ∧ (∃ st_mid,
       for_each (place_on_A E n_fg1 bb1) (positions_A st)
                (set_heavy_mol st empty_mol) = Ok st_mid
       ∧ for_each (place_on_B E n_fg2 bb2) (positions_B st) st_mid = Ok st')
  ∧ mol_atoms (heavy_mol st') =
      placed_atoms E bb1 (length (positions_A st))
      ++ placed_atoms E bb2 (length (positions_B st))
  ∧ (bb1 ≠ bb2 →
     tally (bb_counter st') bb1
       = tally (bb_counter st) bb1 + length (positions_A st)
     ∧ tally (bb_counter st') bb2
       = tally (bb_counter st) bb2 + length (positions_B st)).
Proof.
  intros H1 H2 Heq H. cbn zeta.
  destruct (place_mols_inv E st st' H) as (b1 & b2 & st_mid & H1' & H2' & HA & HB).
  rewrite H1 in H1'. rewrite H2 in H2'. injection H1' as <-. injection H2' as <-.
  cbn zeta in HA, HB.
  assert (Ha : assign_blocks bb1 bb2 (length (find_functional_group_atoms E bb1))
                 (length (find_functional_group_atoms E bb2))
               = (bb2, length (find_functional_group_atoms E bb2), bb1,
                  length (find_functional_group_atoms E bb1))).
  { unfold assign_blocks. rewrite Heq, Nat.ltb_irrefl. reflexivity. }
  rewrite Ha in HA, HB. cbn [fst snd] in HA, HB.
  destruct (place_loop_inv E bb1 _ _ _ _
              (fun s p s' Hs => proj1 (place_on_A_inv E _ bb1 s s' p Hs)) HA)
    as (_ & HmolA & _ & HposB & _ & HtA & HoA).
  destruct (place_loop_inv E bb2 _ _ _ _
              (fun s p s' Hs => proj1 (place_on_B_inv E _ bb2 s s' p Hs)) HB)
    as (_ & HmolB & _ & _ & _ & HtB & HoB).
  cbn [set_heavy_mol heavy_mol positions_A positions_B bb_counter] in *.
  rewrite HposB in *.
  split; [exact Ha|]. split; [by exists st_mid|].
  split; [by rewrite HmolB, HmolA|].
  intros Hne. split.
  - rewrite (HoB bb1 Hne). exact HtA.
  - rewrite HtB, (HoA bb2); [reflexivity | congruence].
Qed.

Lemma place_mols_tie_first_is_core_witness :
  mol_atoms (heavy_mol Cage.placed_tie) =
    placed_atoms Cage.env_tie Cage.core 2
    ++ placed_atoms Cage.env_tie Cage.linker 3.
Proof.
  destruct (place_mols_tie_first_is_core Cage.env_tie Cage.start
              Cage.placed_tie Cage.core Cage.linker eq_refl eq_refl eq_refl
              Cage_place_mols_tie) as (_ & _ & Hmol & _).
  exact Hmol.
Defined.

(** C9.  After [place_mols] the [heavy_ids] of every site of
    [positions_A] and of [positions_B] are in strictly increasing order;
    the deque filled by the scan is always increasing, so [sorted] returns
    it unchanged and both loops record the same list, the deque of the
    scan. *)
Theorem place_mols_heavy_ids_increasing (E : Env) (st st' : Topology) :
  place_mols E st = Ok st' →
  (∀ p, p ∈ positions_A st ++ positions_B st →
        StronglySorted lt (heavy_ids (sites st' p)))
  ∧ (∀ maxlen atoms,
       StronglySorted lt (collect_heavy_ids E maxlen 0 atoms [])
       ∧ sorted int_lt (collect_heavy_ids E maxlen 0 atoms [])
         = Ok (collect_heavy_ids E maxlen 0 atoms []))
  ∧ (∀ n bb s p s',
       (place_on_A E n bb s p = Ok s' ∨ place_on_B E n bb s p = Ok s') →
       heavy_ids (sites s' p)
       = collect_heavy_ids E n 0 (mol_atoms (heavy_mol s')) []).
Proof.
  intros H. split; [|split].
  3:{ intros n bb s p s' [Hs|Hs].
      - by apply place_on_A_inv in Hs as (_ & ? & _).
      - by apply place_on_B_inv in Hs as (_ & ? & _). }
  - destruct (place_mols_inv E st st' H) as (b1 & b2 & st_mid & _ & _ & HA & HB).
    cbn zeta in HA, HB.
    destruct (place_loop_inv E _ _ _ _ _
                (fun s p s' Hs => proj1 (place_on_A_inv E _ _ s s' p Hs)) HA)
      as (_ & _ & _ & HposB & _).
    cbn [set_heavy_mol positions_B] in HposB. rewrite HposB in HB.
    apply (place_loop_heavy_ids (StronglySorted lt)) in HA as [HPA _].
    2:{ intros s p s' Hs. apply place_on_A_inv in Hs as (_ & -> & Hframe).
        split; [|exact Hframe]. apply collect_heavy_ids_sorted; constructor. }
    apply (place_loop_heavy_ids (StronglySorted lt)) in HB as [HPB HoB].
    2:{ intros s p s' Hs. apply place_on_B_inv in Hs as (_ & -> & Hframe).
        split; [|exact Hframe]. apply collect_heavy_ids_sorted; constructor. }
    intros p Hp. destruct (decide (p ∈ positions_B st)) as [Hin|Hnin].
    + by apply HPB.
    + apply elem_of_app in Hp as [Hp|Hp]; [|done].
      rewrite (HoB p Hnin). by apply HPA.
  - intros maxlen atoms. split; [|apply sorted_collect_heavy_ids].
    apply collect_heavy_ids_sorted; constructor.
Qed.

Lemma place_mols_heavy_ids_increasing_witness :
  StronglySorted lt (heavy_ids (sites Cage.placed 1))
  ∧ StronglySorted lt (heavy_ids (sites Cage.placed 3)).
Proof.
  destruct (place_mols_heavy_ids_increasing Cage.env Cage.start Cage.placed
              Cage_place_mols) as (H & _ & _).
  split; apply H; cbn; rewrite !elem_of_cons; auto 10.
Defined.

(** ** The whole build *)

Lemma place_mols_bonds_made (E : Env) (st st' : Topology) :
  place_mols E st = Ok st' → bonds_made st' = bonds_made st.
Proof.
  intros H.
  destruct (place_mols_inv E st st' H) as (b1 & b2 & st_mid & _ & _ & HA & HB).
  cbn zeta in HA, HB.
  destruct (place_loop_inv E _ _ _ _ _
              (fun s p s' Hs => proj1 (place_on_A_inv E _ _ s s' p Hs)) HA)
    as (_ & _ & _ & _ & HmA & _).
  destruct (place_loop_inv E _ _ _ _ _
              (fun s p s' Hs => proj1 (place_on_B_inv E _ _ s s' p Hs)) HB)
    as (_ & _ & _ & _ & HmB & _).
  by rewrite HmB, HmA.
Qed.

Lemma final_sub_inv (E : Env) (st st' : Topology) :
  final_sub E st = Ok st' →
  heavy_mol st' = heavy_mol st ∧ bonds_made st' = bonds_made st.
Proof. unfold final_sub. intros H. inv_bind H. by injection H as <-. Qed.

(** C2.  After a successful [build], [bonds_made] has grown by the number
    of bonds the matching pass of [join_mols] added to the molecule (from
    the zero of [__init__] it is exactly that number), these bonds are the
    accepted pairs of the pass, and no atom is at an end of two of them:
    an atom of an accepted pair is in exactly one formed bond. *)
Theorem build_bonds_made (E : Env) (st st' : Topology) :
  build E st = Ok st' →
  ∃ st1 st2,
    place_mols E st = Ok st1
    ∧ join_mols E st1 = Ok st2
    ∧ final_sub E st2 = Ok st'
    ∧ mol_bonds (heavy_mol st') =
        mol_bonds (heavy_mol st1) ++ formed_bonds st1 st2
    ∧ bonds_made st' = bonds_made st + length (formed_bonds st1 st2)
    ∧ (bonds_made st = 0 → bonds_made st' = length (formed_bonds st1 st2))
    ∧ (∃ L, sitewise_sorted_distances st2 = Ok L
            ∧ bond_atoms <$> formed_bonds st1 st2
              = greedy_exclusive_match [] L)
    ∧ ∀ a, bonds_at a (formed_bonds st1 st2) ≤ 1
           ∧ (a ∈ claimed_atoms (bond_atoms <$> formed_bonds st1 st2) →
              bonds_at a (formed_bonds st1 st2) = 1).
Proof.
  unfold build. intros H. inv_bind H. inv_bind H.
  rename x into st1, x0 into st2. exists st1, st2.
  destruct (join_mols_inv E st1 st2 Hx0)
    as (new & L & HL & Hnew & Hmol & Hmade & _).
  destruct (final_sub_inv E st2 st' H) as [Hmol' Hmade'].
  rewrite (formed_bonds_app st1 st2 new) by (by rewrite Hmol).
  rewrite Hmol', Hmade', Hmol, Hmade, (place_mols_bonds_made E st st1 Hx).
  repeat split; auto.
  - intros ->. reflexivity.
  - by exists L.
  - unfold bonds_at. rewrite Hnew. apply greedy_pairs_at.
  - intros Ha. unfold bonds_at. rewrite Hnew in *.
    apply pairs_at_claimed in Ha.
    pose proof (proj1 (greedy_pairs_at [] L a)). lia.
Qed.

Lemma build_bonds_made_witness :
  bonds_made Cage.built = length (formed_bonds Cage.placed Cage.joined)
  ∧ length (formed_bonds Cage.placed Cage.joined) = 6.
Proof.
  destruct (build_bonds_made Cage.env Cage.start Cage.built Cage_build)
    as (st1 & st2 & H1 & H2 & _ & _ & _ & H0 & _).
  assert (E1 : st1 = Cage.placed)
    by (apply Ok_inj; rewrite <- H1; exact Cage_place_mols).
  subst st1.
  assert (E2 : st2 = Cage.joined)
    by (apply Ok_inj; rewrite <- H2; exact Cage_join_mols).
  subst st2.
  split; [exact (H0 eq_refl) | vm_compute; reflexivity].
Defined.

Lemma join_mols_sitewise_greedy_witness :
  ∃ per_site,
    sitewise_sorted_distances Cage.joined = Ok (concat per_site)
    ∧ bond_atoms <$> formed_bonds Cage.placed Cage.joined
      = greedy_exclusive_match [] (concat per_site).
Proof.
  destruct (join_mols_sitewise_greedy Cage.env Cage.placed Cage.joined
              Cage_join_mols) as (per_site & _ & HL & Hg & _).
  exists per_site. split; [exact HL | exact Hg].
Defined.

(** C1 as stated fails on the cage: atom 8 is the nearest linker atom
    both for atom 1 of vertex 0 (distance 5) and for atom 5 of vertex 1
    (distance 1).  [join_mols] bonds 1 to 8, since vertex 0 comes first,
    and then 5 to 10; matching over the one sorted list of all triples
    bonds 5 to 8 and 1 to 10. *)
Lemma join_mols_not_global_greedy :
  bonded_pairs Cage.env Cage.start
    = Ok [(2, 11); (3, 14); (1, 8); (6, 13); (7, 16); (5, 10)]
  ∧ global_greedy_pairs Cage.env Cage.start
    = Ok [(2, 11); (3, 14); (5, 8); (6, 13); (7, 16); (1, 10)]
  ∧ ¬ (∀ pairs global,
         bonded_pairs Cage.env Cage.start = Ok pairs →
         global_greedy_pairs Cage.env Cage.start = Ok global →
         ∀ a b, (a, b) ∈ pairs ↔ (a, b) ∈ global).
Proof.
  assert (H1 : bonded_pairs Cage.env Cage.start
               = Ok [(2, 11); (3, 14); (1, 8); (6, 13); (7, 16); (5, 10)])
    by (vm_compute; reflexivity).
  assert (H2 : global_greedy_pairs Cage.env Cage.start
               = Ok [(2, 11); (3, 14); (5, 8); (6, 13); (7, 16); (1, 10)])
    by (vm_compute; reflexivity).
  split; [exact H1|]. split; [exact H2|].
  intros H. specialize (H _ _ H1 H2 1 8).
  assert (Hin : (1, 8) ∈ [(2, 11); (3, 14); (1, 8); (6, 13); (7, 16); (5, 10)])
    by (rewrite !elem_of_cons; auto).
  apply H in Hin. rewrite !elem_of_cons, elem_of_nil in Hin.
  repeat destruct Hin as [Hin|Hin]; try discriminate Hin. exact Hin.
Qed.

(** ** Pairing heavy atoms with neighbouring positions *)

Lemma pair_step_inv (acc : list (nat * nat) * gset nat * gset nat)
    (d : Q) (h p : nat) :
  matched acc →
  matched (pair_step acc (d, h, p))
  ∧ (∀ hp, hp ∈ acc.1.1 → hp ∈ (pair_step acc (d, h, p)).1.1)
  ∧ (∀ hp, hp ∈ (pair_step acc (d, h, p)).1.1 → hp ∈ acc.1.1 ∨ hp = (h, p))
  ∧ (h ∈ (pair_step acc (d, h, p)).1.1.*1
     ∨ p ∈ (pair_step acc (d, h, p)).1.1.*2).
Proof.
  destruct acc as [[pairs ids] pos]. intros Hm.
  pose proof Hm as (N1 & N2 & Hids & Hpos).
  cbn [fst snd] in N1, N2, Hids, Hpos |- *. cbn [pair_step].
  destruct (bool_decide (h ∈ ids) || bool_decide (p ∈ pos)) eqn:Hhp.
  - cbn [fst snd]. split; [exact Hm|]. split; [auto|]. split; [auto|].
    apply orb_true_iff in Hhp as [H|H]; apply bool_decide_eq_true in H.
    + left. by apply Hids.
    + right. by apply Hpos.
  - apply orb_false_iff in Hhp as [Hh Hp].
    apply bool_decide_eq_false in Hh, Hp. rewrite Hids in Hh. rewrite Hpos in Hp.
    cbn [fst snd]. rewrite !fmap_app. cbn [fmap list_fmap fst snd].
    split; [|split; [|split]].
    + unfold matched. cbn [fst snd]. rewrite !fmap_app.
      cbn [fmap list_fmap fst snd]. split; [|split; [|split]].
      * apply NoDup_app. split; [exact N1|]. split; [|apply NoDup_singleton].
        intros x Hx Hx'. apply list_elem_of_singleton in Hx' as ->. done.
      * apply NoDup_app. split; [exact N2|]. split; [|apply NoDup_singleton].
        intros x Hx Hx'. apply list_elem_of_singleton in Hx' as ->. done.
      * intros x. rewrite elem_of_union, elem_of_singleton, elem_of_app,
          list_elem_of_singleton, Hids. tauto.
      * intros x. rewrite elem_of_union, elem_of_singleton, elem_of_app,
          list_elem_of_singleton, Hpos. tauto.
    + intros hp Hin. apply elem_of_app. by left.
    + intros hp Hin. apply elem_of_app in Hin as [Hin|Hin]; [by left|].
      right. by apply list_elem_of_singleton in Hin.
    + left. apply elem_of_app. right. by apply list_elem_of_singleton.
Qed.

(** The matching loop: it keeps the state consistent, accepts candidates
    only, and leaves no candidate with both members unclaimed. *)
Lemma pair_steps_inv (l : list (Q * nat * nat))
    (acc : list (nat * nat) * gset nat * gset nat) :
  matched acc →
  matched (foldl pair_step acc l)
  ∧ (∀ hp, hp ∈ acc.1.1 → hp ∈ (foldl pair_step acc l).1.1)
  ∧ (∀ hp, hp ∈ (foldl pair_step acc l).1.1 →
           hp ∈ acc.1.1 ∨ ∃ d, (d, hp.1, hp.2) ∈ l)
  ∧ (∀ d h p, (d, h, p) ∈ l →
       h ∈ (foldl pair_step acc l).1.1.*1 ∨ p ∈ (foldl pair_step acc l).1.1.*2).
Proof.
  revert acc. induction l as [|[[d h] p] l IH]; intros acc Hm.
  - cbn [foldl]. split; [exact Hm|]. split; [auto|]. split; [auto|].
    intros d h p Hin. by apply elem_of_nil in Hin.
  - cbn [foldl].
    destruct (pair_step_inv acc d h p Hm) as (Hm1 & Hmono1 & Hfrom1 & Hmax1).
    destruct (IH _ Hm1) as (Hm2 & Hmono2 & Hfrom2 & Hmax2).
    split; [exact Hm2|]. split; [auto|]. split.
    + intros hp Hin. destruct (Hfrom2 hp Hin) as [H|[d' H]].
      * destruct (Hfrom1 hp H) as [H'| ->]; [by left|].
        right. exists d. apply list_elem_of_here.
      * right. exists d'. by apply list_elem_of_further.
    + intros d' h' p' Hin. apply elem_of_cons in Hin as [[= -> -> ->]|Hin].
      * destruct Hmax1 as [H|H].
        -- left. apply list_elem_of_fmap in H as ([h2 p2] & -> & H).
           apply list_elem_of_fmap. exists (h2, p2). split; [done|]. by apply Hmono2.
        -- right. apply list_elem_of_fmap in H as ([h2 p2] & -> & H).
           apply list_elem_of_fmap. exists (h2, p2). split; [done|]. by apply Hmono2.
      * by apply (Hmax2 d').
Qed.

Lemma matched_empty : matched ([], ∅, ∅).
Proof.
  unfold matched. cbn.
  split; [apply NoDup_nil_2|]. split; [apply NoDup_nil_2|].
  split; intros x; rewrite elem_of_nil; set_solver.
Qed.

Lemma elem_of_site_candidates (E : Env) (v : Site) (d : Q) (h p : nat) :
  (d, h, p) ∈ site_candidates E v ↔
  h ∈ heavy_ids v ∧ p ∈ connected v ∧ d = atom_site_distance E h p.
Proof.
  unfold site_candidates. rewrite list_elem_of_In, in_flat_map. split.
  - intros (h' & Hh & Hin). apply in_map_iff in Hin as (p' & [= <- <- <-] & Hp).
    rewrite !list_elem_of_In. auto.
  - intros (Hh & Hp & ->). exists h. rewrite <- list_elem_of_In. split; [exact Hh|].
    apply in_map_iff. exists p. rewrite <- list_elem_of_In. auto.
Qed.

Lemma NoDup_fst_unique {A B} (l : list (A * B)) (x : A) (y1 y2 : B) :
  NoDup l.*1 → (x, y1) ∈ l → (x, y2) ∈ l → y1 = y2.
Proof.
  induction l as [|[a b] l IH]; intros Hnd H1 H2.
  - by apply elem_of_nil in H1.
  - cbn in Hnd. apply NoDup_cons in Hnd as [Hnin Hnd].
    apply elem_of_cons in H1, H2.
    destruct H1 as [E1|H1], H2 as [E2|H2].
    + congruence.
    + injection E1 as -> ->. destruct Hnin.
      apply list_elem_of_fmap. by exists (a, y2).
    + injection E2 as -> ->. destruct Hnin.
      apply list_elem_of_fmap. by exists (a, y1).
    + by apply IH.
Qed.

(** Sorting the candidates of a site completes when no two of them tie. *)
Lemma sorted_site_candidates_total (E : Env) (v : Site) :
  no_tie E v → ∃ r, sorted tuple_lt_obj (site_candidates E v) = Ok r.
Proof.
  intros Hnt. apply sorted_total. intros [[d1 h1] p1] [[d2 h2] p2] H1 H2.
  apply elem_of_site_candidates in H1 as (Hh1 & Hp1 & ->).
  apply elem_of_site_candidates in H2 as (Hh2 & Hp2 & ->).
  unfold tuple_lt_obj, float_eq.
  destruct (Qeq_bool _ _) eqn:Hd; cbn [negb]; [|by eexists].
  destruct (h1 =? h2) eqn:Hh; cbn [negb]; [|by eexists].
  apply Nat.eqb_eq in Hh as ->. apply Qeq_bool_iff in Hd.
  rewrite (Hnt h2 p1 p2 Hh2 Hp1 Hp2 Hd), Nat.eqb_refl. by eexists.
Qed.

(** C4.  [pair_heavy_ids_with_connected] completes whenever no heavy
    atom is at the same distance from two different neighbours, and when
    it completes no heavy atom and no neighbouring position is in two of
    the pairs it leaves in [atom_position_pairs], every pair joins a
    heavy atom of the site to one of its neighbours, there are at most
    min(number of heavy atoms, number of neighbours) pairs, and, all
    combinations being candidates, if the site has no more heavy atoms
    than (distinct) neighbours every heavy atom is paired with exactly
    one neighbouring position. *)
Theorem pair_heavy_ids_with_connected_matching (E : Env) (st : Topology)
    (vertex : nat) :
  (no_tie E (sites st vertex) →
   ∃ st', pair_heavy_ids_with_connected E st vertex = Ok st')
  ∧ ∀ st', pair_heavy_ids_with_connected E st vertex = Ok st' →
      let v := sites st vertex in
      let pairs := atom_position_pairs (sites st' vertex) in
      NoDup pairs.*1
      ∧ NoDup pairs.*2
      ∧ (∀ h p, (h, p) ∈ pairs → h ∈ heavy_ids v ∧ p ∈ connected v)
      ∧ length pairs ≤ length (remove_dups (heavy_ids v))
                       `min` length (remove_dups (connected v))
      ∧ length pairs ≤ length (heavy_ids v) `min` length (connected v)
      ∧ (length (heavy_ids v) ≤ length (remove_dups (connected v)) →
         ∀ h, h ∈ heavy_ids v →
              ∃ p, (h, p) ∈ pairs ∧ ∀ p', (h, p') ∈ pairs → p' = p).
Proof.
  split.
  - intros Hnt. destruct (sorted_site_candidates_total E _ Hnt) as [r Hr].
    unfold pair_heavy_ids_with_connected. rewrite Hr, bind_Ok_l.
    destruct (foldl pair_step _ r) as [[pairs ids] pos]. by eexists.
  - intros st' H. cbn zeta.
    apply pair_heavy_ids_with_connected_Ok in H as (sorted_d & Hsort & ->).
    cbn [set_site sites]. rewrite fn_lookup_insert.
    cbn [set_atom_position_pairs atom_position_pairs].
    set (v := sites st vertex) in *.
    destruct (pair_steps_inv sorted_d _ matched_empty)
      as ((N1 & N2 & _ & _) & _ & Hfrom & Hmax).
    set (pairs := (foldl pair_step ([], ∅, ∅) sorted_d).1.1) in *.
    apply sorted_perm in Hsort.
    assert (Hsub : ∀ h p, (h, p) ∈ pairs → h ∈ heavy_ids v ∧ p ∈ connected v).
    { intros h p Hin. destruct (Hfrom _ Hin) as [Hnil|[d Hd]].
      - by apply elem_of_nil in Hnil.
      - rewrite Hsort in Hd. apply elem_of_site_candidates in Hd. tauto. }
    assert (H1 : ∀ h, h ∈ pairs.*1 → h ∈ heavy_ids v).
    { intros h Hh. apply list_elem_of_fmap in Hh as ([h' p] & -> & Hin).
      by apply Hsub in Hin as [? _]. }
    assert (H2 : ∀ p, p ∈ pairs.*2 → p ∈ connected v).
    { intros p Hp. apply list_elem_of_fmap in Hp as ([h p'] & -> & Hin).
      by apply Hsub in Hin as [_ ?]. }
    assert (L1 : length pairs ≤ length (remove_dups (heavy_ids v))).
    { rewrite <- (length_fmap fst pairs). apply submseteq_length.
      apply NoDup_submseteq; [exact N1|].
      intros x Hx. apply elem_of_remove_dups. by apply H1. }
    assert (L2 : length pairs ≤ length (remove_dups (connected v))).
    { rewrite <- (length_fmap snd pairs). apply submseteq_length.
      apply NoDup_submseteq; [exact N2|].
      intros x Hx. apply elem_of_remove_dups. by apply H2. }
    assert (R1 : length (remove_dups (heavy_ids v)) ≤ length (heavy_ids v)).
    { apply submseteq_length, NoDup_submseteq; [apply NoDup_remove_dups|].
      intros x. by rewrite elem_of_remove_dups. }
    assert (R2 : length (remove_dups (connected v)) ≤ length (connected v)).
    { apply submseteq_length, NoDup_submseteq; [apply NoDup_remove_dups|].
      intros x. by rewrite elem_of_remove_dups. }
    split; [exact N1|]. split; [exact N2|]. split; [exact Hsub|].
    split; [lia|]. split; [lia|].
    intros Hle h Hh.
    assert (Hpaired : h ∈ pairs.*1).
    { destruct (decide (h ∈ pairs.*1)) as [Hin|Hnin]; [exact Hin|exfalso].
      assert (Hall : length (remove_dups (connected v)) ≤ length pairs).
      { rewrite <- (length_fmap snd pairs). apply submseteq_length.
        apply NoDup_submseteq; [apply NoDup_remove_dups|].
        intros p Hp. rewrite elem_of_remove_dups in Hp.
        destruct (Hmax (atom_site_distance E h p) h p) as [Hl|Hr]; [|done|done].
        rewrite Hsort. apply elem_of_site_candidates. auto. }
      assert (Hless : S (length pairs) ≤ length (heavy_ids v)).
      { rewrite <- (length_fmap fst pairs).
        change (length (h :: pairs.*1) ≤ length (heavy_ids v)).
        apply submseteq_length, NoDup_submseteq.
        - by apply NoDup_cons.
        - intros x Hx. apply elem_of_cons in Hx as [->|Hx]; [exact Hh | by apply H1]. }
      lia. }
    apply list_elem_of_fmap in Hpaired as ([h' p] & Heq & Hin).
    cbn in Heq. subst h'. exists p. split; [exact Hin|].
    intros p' Hin'. exact (NoDup_fst_unique pairs h p' p N1 Hin' Hin).
Qed.

Lemma Cage_vertex_0 :
  heavy_ids (sites Cage.placed 0) = [1; 2; 3]
  ∧ connected (sites Cage.placed 0) = [2; 3; 4].
Proof. split; vm_compute; reflexivity. Qed.

Lemma Cage_no_tie : no_tie Cage.env (sites Cage.placed 0).
Proof.
  destruct Cage_vertex_0 as [Hh Hc]. unfold no_tie. rewrite Hh, Hc.
  intros h p q H1 H2 H3 Hd.
  rewrite !elem_of_cons, elem_of_nil in H1, H2, H3.
  destruct H1 as [->|[->|[->|[]]]], H2 as [->|[->|[->|[]]]],
    H3 as [->|[->|[->|[]]]];
    first [reflexivity | vm_compute in Hd; discriminate Hd].
Qed.

Lemma pair_heavy_ids_with_connected_matching_witness :
  ∃ st', pair_heavy_ids_with_connected Cage.env Cage.placed 0 = Ok st'
         ∧ NoDup (atom_position_pairs (sites st' 0)).*1
         ∧ ∀ h, h ∈ heavy_ids (sites Cage.placed 0) →
                ∃ p, (h, p) ∈ atom_position_pairs (sites st' 0).
Proof.
  destruct (pair_heavy_ids_with_connected_matching Cage.env Cage.placed 0)
    as [Htotal Hpairs].
  destruct (Htotal Cage_no_tie) as [st' Hst']. exists st'.
  split; [exact Hst'|].
  destruct (Hpairs st' Hst') as (N1 & _ & _ & _ & _ & Hall).
  split; [exact N1|].
  intros h Hh. destruct (Hall ltac:(vm_compute; lia) h Hh) as (p & Hp & _).
  by exists p.
Defined.

(** ** The random flip of [Edge.place_mol] *)

Lemma np_multiply_opp (v : EdgePlacement.Vec3) :
  EdgePlacement.vec_eq (EdgePlacement.np_multiply v (-1))
                       (EdgePlacement.vec_opp (EdgePlacement.np_multiply v 1)).
Proof.
  destruct v as [[x y] z].
  unfold EdgePlacement.vec_eq, EdgePlacement.np_multiply,
    EdgePlacement.vec_opp. cbn [fst snd].
  repeat split; unfold inject_Z; lra.
Qed.

Lemma np_multiply_flip_differs (v : EdgePlacement.Vec3) :
  ¬ EdgePlacement.vec_eq v EdgePlacement.zero →
  ¬ EdgePlacement.vec_eq (EdgePlacement.np_multiply v 1)
                         (EdgePlacement.np_multiply v (-1)).
Proof.
  destruct v as [[x y] z].
  unfold EdgePlacement.vec_eq, EdgePlacement.np_multiply, EdgePlacement.zero.
  cbn [fst snd]. unfold inject_Z. intros Hnz (Hx & Hy & Hz). apply Hnz.
  repeat split; lra.
Qed.

(** C8.  [Edge.place_mol] draws [flip] from [1, -1], each with
    probability one half, and asks the linker for the orientation
    [flip * direction].  For an edge whose direction is not the zero
    vector the two possible runs request opposite, different orientations,
    so the outcome is not a function of the arguments; it is one once the
    draw is fixed, and two runs agree only if their draws do. *)
Theorem Edge_place_mol_random_flip (e : EdgePlacement.Edge) :
  ¬ EdgePlacement.vec_eq (EdgePlacement.direction e) EdgePlacement.zero →
  EdgePlacement.np_random_choice [1; -1]%Z = [((1 # 2)%Q, 1%Z); ((1 # 2)%Q, (-1)%Z)]
  ∧ EdgePlacement.place_mol e =
      [((1 # 2)%Q, EdgePlacement.place_mol_with e 1);
       ((1 # 2)%Q, EdgePlacement.place_mol_with e (-1))]
  ∧ (∀ flip, EdgePlacement.orientation (EdgePlacement.place_mol_with e flip)
             = Some (EdgePlacement.np_multiply (EdgePlacement.direction e) flip))
  ∧ EdgePlacement.vec_eq
      (EdgePlacement.np_multiply (EdgePlacement.direction e) (-1))
      (EdgePlacement.vec_opp
         (EdgePlacement.np_multiply (EdgePlacement.direction e) 1))
  ∧ ¬ EdgePlacement.vec_eq
        (EdgePlacement.np_multiply (EdgePlacement.direction e) 1)
        (EdgePlacement.np_multiply (EdgePlacement.direction e) (-1))
  ∧ (∀ flip1 flip2, flip1 ∈ [1; -1]%Z → flip2 ∈ [1; -1]%Z →
       (EdgePlacement.place_mol_with e flip1
        = EdgePlacement.place_mol_with e flip2 ↔ flip1 = flip2)).
Proof.
  intros Hnz.
  split; [reflexivity|]. split; [reflexivity|]. split; [reflexivity|].
  split; [apply np_multiply_opp|].
  pose proof (np_multiply_flip_differs _ Hnz) as Hdiff.
  split; [exact Hdiff|].
  assert (Hne : EdgePlacement.place_mol_with e 1
                ≠ EdgePlacement.place_mol_with e (-1)).
  { intros Heq. apply Hdiff.
    assert (Ho : EdgePlacement.orientation (EdgePlacement.place_mol_with e 1)
                 = EdgePlacement.orientation (EdgePlacement.place_mol_with e (-1)))
      by (by rewrite Heq).
    cbn [EdgePlacement.orientation EdgePlacement.place_mol_with] in Ho.
    apply (inj Some) in Ho. rewrite Ho.
    repeat split; apply Qeq_refl. }
  intros flip1 flip2 H1 H2. split; [|by intros ->].
  rewrite !elem_of_cons, elem_of_nil in H1, H2.
  destruct H1 as [->|[->|[]]], H2 as [->|[->|[]]]; intros Heq;
    first [reflexivity | by destruct Hne].
Qed.

Lemma Edge_place_mol_random_flip_witness :
  EdgePlacement.place_mol Cage.edge_x =
    [((1 # 2)%Q, EdgePlacement.place_mol_with Cage.edge_x 1);
     ((1 # 2)%Q, EdgePlacement.place_mol_with Cage.edge_x (-1))]
  ∧ EdgePlacement.place_mol_with Cage.edge_x 1
    ≠ EdgePlacement.place_mol_with Cage.edge_x (-1).
Proof.
  assert (Hnz : ¬ EdgePlacement.vec_eq (EdgePlacement.direction Cage.edge_x)
                    EdgePlacement.zero).
  { intros (Hx & _). vm_compute in Hx. discriminate Hx. }
  destruct (Edge_place_mol_random_flip Cage.edge_x Hnz)
    as (_ & Hdist & _ & _ & _ & Hinj).
  split; [exact Hdist|].
  intros Heq. apply (Hinj 1%Z (-1)%Z) in Heq; [discriminate Heq| |];
    rewrite !elem_of_cons; auto.
Defined.

(** * Further properties of the engine *)

(** ** What the scan of [place_mols] records *)

Lemma lastn_all {A} (n : nat) (l : list A) : length l ≤ n → lastn n l = l.
Proof.
  intros H. unfold lastn. replace (length l - n) with 0 by lia. reflexivity.
Qed.

Lemma length_lastn {A} (n : nat) (l : list A) : length (lastn n l) ≤ n.
Proof. unfold lastn. rewrite length_drop. lia. Qed.

Lemma lastn_lastn_app {A} (n : nat) (l k : list A) :
  lastn n (lastn n l ++ k) = lastn n (l ++ k).
Proof.
  destruct (decide (length l ≤ n)) as [Hle|Hgt].
  - by rewrite (lastn_all n l).
  - unfold lastn at 1 3. rewrite !length_app. unfold lastn.
    rewrite length_drop.
    replace (length l - (length l - n) + length k - n) with (length k) by lia.
    replace (length l + length k - n) with ((length l - n) + length k) by lia.
    rewrite <- (drop_app_le l k (length l - n)) by lia.
    rewrite drop_drop. reflexivity.
Qed.

Lemma lastn_app_length {A} (l k : list A) : lastn (length k) (l ++ k) = k.
Proof.
  unfold lastn. rewrite length_app.
  replace (length l + length k - length k) with (length l) by lia.
  apply drop_app_length.
Qed.

Lemma deque_append_lastn {A} (maxlen : nat) (dq : list A) (x : A) :
  length dq ≤ maxlen → deque_append maxlen dq x = lastn maxlen (dq ++ [x]).
Proof.
  intros Hle. unfold deque_append.
  destruct (length dq <? maxlen) eqn:Hlt.
  - apply Nat.ltb_lt in Hlt. rewrite lastn_all; [reflexivity|].
    rewrite length_app. cbn. lia.
  - apply Nat.ltb_ge in Hlt. unfold lastn. rewrite length_app. cbn.
    replace (length dq + 1 - maxlen) with 1 by lia. reflexivity.
Qed.

Lemma collect_heavy_ids_lastn (E : Env) (maxlen idx : nat) (atoms dq : list nat) :
  length dq ≤ maxlen →
  collect_heavy_ids E maxlen idx atoms dq
  = lastn maxlen (dq ++ heavy_indices E idx atoms).
Proof.
  revert idx dq. induction atoms as [|z atoms IH]; intros idx dq Hle.
  - cbn. rewrite app_nil_r. by rewrite lastn_all.
  - cbn [collect_heavy_ids heavy_indices].
    destruct (bool_decide (z ∈ heavy_atomic_nums E)); [|by apply IH].
    rewrite IH.
    + rewrite deque_append_lastn by exact Hle.
      rewrite lastn_lastn_app, <- app_assoc. reflexivity.
    + rewrite deque_append_lastn by exact Hle. apply length_lastn.
Qed.

Lemma elem_of_heavy_indices (E : Env) (idx : nat) (atoms : list nat) (h : nat) :
  h ∈ heavy_indices E idx atoms ↔
  ∃ i z, h = idx + i ∧ atoms !! i = Some z ∧ z ∈ heavy_atomic_nums E.
Proof.
  revert idx. induction atoms as [|a atoms IH]; intros idx.
  - cbn. rewrite elem_of_nil. split; [done|]. by intros (i & z & _ & ? & _).
  - cbn [heavy_indices]. case_bool_decide as Ha.
    + rewrite elem_of_cons, IH. split.
      * intros [->|(i & z & -> & Hi & Hz)].
        -- exists 0, a. rewrite Nat.add_0_r. auto.
        -- exists (S i), z. split; [lia | auto].
      * intros ([|i] & z & -> & Hi & Hz).
        -- left. lia.
        -- right. exists i, z. split; [lia | auto].
    + rewrite IH. split.
      * intros (i & z & -> & Hi & Hz). exists (S i), z. split; [lia | auto].
      * intros ([|i] & z & -> & Hi & Hz).
        -- cbn in Hi. injection Hi as ->. done.
        -- exists i, z. split; [lia | auto].
Qed.

Lemma heavy_indices_app (E : Env) (idx : nat) (a b : list nat) :
  heavy_indices E idx (a ++ b)
  = heavy_indices E idx a ++ heavy_indices E (idx + length a) b.
Proof.
  revert idx. induction a as [|z a IH]; intros idx.
  - cbn. by rewrite Nat.add_0_r.
  - cbn [app heavy_indices length].
    replace (idx + S (length a)) with (S idx + length a) by lia.
    destruct (bool_decide _); rewrite IH; reflexivity.
Qed.

Lemma heavy_indices_add (E : Env) (k idx : nat) (atoms : list nat) :
  heavy_indices E (k + idx) atoms
  = (fun i => k + i) <$> heavy_indices E idx atoms.
Proof.
  revert idx. induction atoms as [|z atoms IH]; intros idx; [reflexivity|].
  cbn [heavy_indices]. replace (S (k + idx)) with (k + S idx) by lia.
  rewrite IH. by destruct (bool_decide _).
Qed.

Lemma heavy_indices_shift (E : Env) (idx : nat) (atoms : list nat) :
  heavy_indices E idx atoms = (fun i => idx + i) <$> heavy_indices E 0 atoms.
Proof. rewrite <- heavy_indices_add. by rewrite Nat.add_0_r. Qed.

Lemma elem_of_lastn {A} (n : nat) (l : list A) (x : A) :
  x ∈ lastn n l → x ∈ l.
Proof.
  unfold lastn. intros H. rewrite <- (take_drop (length l - n) l).
  apply elem_of_app. by right.
Qed.

Lemma lastn_app_le {A} (n : nat) (a b : list A) :
  length b ≤ n → lastn n (a ++ b) = lastn (n - length b) a ++ b.
Proof.
  intros Hle. unfold lastn. rewrite length_app.
  rewrite drop_app_le by lia. f_equal. f_equal. lia.
Qed.

Lemma collect_heavy_ids_from_empty (E : Env) (maxlen : nat)
    (atoms : list nat) :
  collect_heavy_ids E maxlen 0 atoms []
  = lastn maxlen (heavy_indices E 0 atoms).
Proof. rewrite collect_heavy_ids_lastn by (cbn; lia). reflexivity. Qed.

(** X1.  The scan of [place_mols] leaves in the deque the last [maxlen]
    ids of the placeholder atoms of the molecule, in the order of the
    atoms: never more than [maxlen] ids, each the id of an atom whose
    atomic number is in [heavy_atomic_nums], and none when [maxlen] is
    zero. *)
Theorem collect_heavy_ids_newest (E : Env) (maxlen : nat) (atoms : list nat) :
  collect_heavy_ids E maxlen 0 atoms []
  = lastn maxlen (heavy_indices E 0 atoms)
  ∧ length (collect_heavy_ids E maxlen 0 atoms []) ≤ maxlen
  ∧ (∀ h, h ∈ collect_heavy_ids E maxlen 0 atoms [] →
          ∃ z, atoms !! h = Some z ∧ z ∈ heavy_atomic_nums E)
  ∧ (maxlen = 0 → collect_heavy_ids E maxlen 0 atoms [] = []).
Proof.
  pose proof (collect_heavy_ids_from_empty E maxlen atoms) as Heq.
  split; [exact Heq|]. rewrite Heq. split; [apply length_lastn|]. split.
  - intros h Hh. apply elem_of_lastn, elem_of_heavy_indices in Hh
      as (i & z & -> & Hi & Hz). by exists z.
  - intros ->. pose proof (length_lastn 0 (heavy_indices E 0 atoms)) as Hlen.
    destruct (lastn 0 _); [reflexivity | cbn in Hlen; lia].
Qed.

(** X2.  The [heavy_ids] a loop body of [place_mols] records for a site
    are the last [n] placeholder ids of the molecule after the block was
    appended.  If the block has exactly [n] placeholder atoms they are
    the block's own atoms, renumbered by the size of the molecule before;
    if it has fewer, the ids of the newest placeholder atoms of the blocks
    placed before fill the deque in front of them. *)
Theorem place_records_newest_heavy_atoms (E : Env) (n bb : nat)
    (st st' : Topology) (p : nat) :
  (place_on_A E n bb st p = Ok st' ∨ place_on_B E n bb st p = Ok st') →
  let before := mol_atoms (heavy_mol st) in
  let own := (fun i => length before + i)
             <$> heavy_indices E 0 (mol_atoms (bb_heavy_mol E bb)) in
  heavy_ids (sites st' p) = lastn n (heavy_indices E 0 before ++ own)
  ∧ (length own = n → heavy_ids (sites st' p) = own)
  ∧ (length own ≤ n →
     heavy_ids (sites st' p)
     = lastn (n - length own) (heavy_indices E 0 before) ++ own).
Proof.
  intros H. cbn zeta.
  assert (Hids : heavy_ids (sites st' p)
                 = collect_heavy_ids E n 0 (mol_atoms (heavy_mol st')) []
                 ∧ heavy_mol st'
                   = CombineMols (heavy_mol st) (bb_heavy_mol E bb)).
  { destruct H as [H|H].
    - apply place_on_A_inv in H as ((_ & Hm & _) & Hh & _). by split.
    - apply place_on_B_inv in H as ((_ & Hm & _) & Hh & _). by split. }
  destruct Hids as [-> ->]. cbn [CombineMols mol_atoms].
  rewrite collect_heavy_ids_from_empty, heavy_indices_app.
  cbn [plus]. rewrite (heavy_indices_shift E (length _)).
  split; [reflexivity|]. split.
  - intros <-. apply lastn_app_length.
  - intros Hle. by apply lastn_app_le.
Qed.

Lemma Cage_first_placed :
  place_on_A Cage.env 3 Cage.core (set_heavy_mol Cage.start empty_mol) 0
  = Ok Cage.first_placed.
Proof. vm_compute. reflexivity. Defined.

Lemma place_records_newest_heavy_atoms_witness :
  heavy_ids (sites Cage.first_placed 0) = [1; 2; 3].
Proof.
  destruct (place_records_newest_heavy_atoms Cage.env 3 Cage.core
              (set_heavy_mol Cage.start empty_mol) Cage.first_placed 0
              (or_introl Cage_first_placed)) as (_ & Hown & _).
  exact (Hown eq_refl).
Defined.

(** ** What [place_mols] does to the sites *)

Lemma place_on_A_site (E : Env) (n bb : nat) (st st' : Topology) (p : nat) :
  place_on_A E n bb st p = Ok st' →
  kind (sites st' p) = kind (sites st p)
  ∧ connected (sites st' p) = connected (sites st p)
  ∧ distances (sites st' p) = [].
Proof.
  unfold place_on_A. intros H. inv_bind H.
  apply place_mol_Ok in Hx as ->. cbn [fst snd] in H.
  rewrite sorted_collect_heavy_ids, bind_Ok_l in H.
  apply pair_heavy_ids_with_connected_Ok in H as (sorted_d & _ & ->).
  cbn. by rewrite !fn_lookup_insert.
Qed.

Lemma place_on_B_site (E : Env) (n lk : nat) (st st' : Topology) (p : nat) :
  place_on_B E n lk st p = Ok st' →
  kind (sites st' p) = kind (sites st p)
  ∧ connected (sites st' p) = connected (sites st p)
  ∧ distances (sites st' p) = []
  ∧ atom_position_pairs (sites st' p) = atom_position_pairs (sites st p).
Proof.
  unfold place_on_B. intros H. inv_bind H.
  apply place_mol_Ok in Hx as ->. cbn [fst snd] in H. injection H as <-.
  cbn. by rewrite !fn_lookup_insert.
Qed.

(** A loop that establishes [P] at the site it visits and leaves the
    other sites alone. *)
Lemma place_loop_sites (P : Site -> Prop)
    (body : Topology -> nat -> result Topology) (ps : list nat)
    (st st' : Topology) :
  (∀ s p s', body s p = Ok s' →
     P (sites s' p) ∧ ∀ q, q ≠ p → sites s' q = sites s q) →
  for_each body ps st = Ok st' →
  (∀ q, q ∈ ps → P (sites st' q))
  ∧ (∀ q, q ∉ ps → sites st' q = sites st q).
Proof.
  intros Hbody. revert st. induction ps as [|p ps IH]; intros st H.
  - injection H as <-. split; [|done]. intros q Hq. by apply elem_of_nil in Hq.
  - cbn [for_each] in H. inv_bind H.
    destruct (Hbody _ _ _ Hx) as [HP Hframe].
    destruct (IH _ H) as [HPs Hother]. split.
    + intros q Hq. destruct (decide (q ∈ ps)) as [Hin|Hnin]; [by apply HPs|].
      apply elem_of_cons in Hq as [->|Hq]; [|done].
      by rewrite (Hother p Hnin).
    + intros q Hq. rewrite elem_of_cons in Hq.
      rewrite Hother by tauto. apply Hframe. tauto.
Qed.

(** A property of every site that each visit keeps is kept by the loop. *)
Lemma place_loop_all_sites (R : Site -> Site -> Prop)
    (body : Topology -> nat -> result Topology) (ps : list nat)
    (st st' : Topology) :
  (∀ s, R s s) → (∀ s1 s2 s3, R s1 s2 → R s2 s3 → R s1 s3) →
  (∀ s p s', body s p = Ok s' →
     R (sites s p) (sites s' p) ∧ ∀ q, q ≠ p → sites s' q = sites s q) →
  for_each body ps st = Ok st' →
  ∀ q, R (sites st q) (sites st' q).
Proof.
  intros Hrefl Htrans Hbody H.
  apply (for_each_invariant body (fun s => ∀ q, R (sites st q) (sites s q))
           ps st st'); [|by intros q|exact H].
  intros s p s' _ Hs Hp q. destruct (Hbody _ _ _ Hp) as [HR Hframe].
  destruct (decide (q = p)) as [->|Hne].
  - by apply (Htrans _ (sites s p)).
  - rewrite (Hframe q Hne). apply Hs.
Qed.

(** X3.  [place_mols] flushes the [distances] of every site of
    [positions_A] and [positions_B], leaves every other site as it was,
    never changes the class or the neighbours of a site, and writes
    [atom_position_pairs] only for the sites of [positions_A]. *)
Theorem place_mols_sites (E : Env) (st st' : Topology) :
  place_mols E st = Ok st' →
  (∀ p, p ∈ positions_A st ++ positions_B st → distances (sites st' p) = [])
  ∧ (∀ q, q ∉ positions_A st ++ positions_B st → sites st' q = sites st q)
  ∧ (∀ q, kind (sites st' q) = kind (sites st q)
          ∧ connected (sites st' q) = connected (sites st q))
  ∧ (∀ q, q ∉ positions_A st →
          atom_position_pairs (sites st' q) = atom_position_pairs (sites st q)).
Proof.
  intros H.
  destruct (place_mols_inv E st st' H) as (b1 & b2 & st_mid & _ & _ & HA & HB).
  cbn zeta in HA, HB.
  destruct (place_loop_inv E _ _ _ _ _
              (fun s p s' Hs => proj1 (place_on_A_inv E _ _ s s' p Hs)) HA)
    as (_ & _ & _ & HposB & _).
  cbn [set_heavy_mol positions_B] in HposB. rewrite HposB in HB.
  set (a := assign_blocks _ _ _ _) in *.
  assert (HbodyA : ∀ s p s', place_on_A E a.2 a.1.2 s p = Ok s' →
            ∀ q, q ≠ p → sites s' q = sites s q).
  { intros s p s' Hs. by apply place_on_A_inv in Hs as (_ & _ & ?). }
  assert (HbodyB : ∀ s p s', place_on_B E a.1.1.2 a.1.1.1 s p = Ok s' →
            ∀ q, q ≠ p → sites s' q = sites s q).
  { intros s p s' Hs. by apply place_on_B_inv in Hs as (_ & _ & ?). }
  destruct (place_loop_sites (fun s => distances s = []) _ _ _ _
              (fun s p s' Hs => conj (proj2 (proj2 (place_on_A_site E _ _ s s' p Hs)))
                                     (HbodyA s p s' Hs)) HA) as [HdA HoA].
  destruct (place_loop_sites (fun s => distances s = []) _ _ _ _
              (fun s p s' Hs =>
                 conj (proj1 (proj2 (proj2 (place_on_B_site E _ _ s s' p Hs))))
                      (HbodyB s p s' Hs)) HB) as [HdB HoB].
  cbn [set_heavy_mol sites positions_A] in HdA, HoA.
  split; [|split; [|split]].
  - intros p Hp. destruct (decide (p ∈ positions_B st)) as [Hin|Hnin].
    + by apply HdB.
    + apply elem_of_app in Hp as [Hp|Hp]; [|done]. rewrite (HoB p Hnin).
      by apply HdA.
  - intros q Hq. rewrite elem_of_app in Hq.
    rewrite HoB, HoA by tauto. reflexivity.
  - intros q.
    pose proof (place_loop_all_sites
      (fun s s' => kind s' = kind s ∧ connected s' = connected s) _ _ _ _
      ltac:(done) ltac:(intros ? ? ? [? ?] [? ?]; split; congruence)
      (fun s p s' Hs =>
         conj (conj (proj1 (place_on_A_site E _ _ s s' p Hs))
                    (proj1 (proj2 (place_on_A_site E _ _ s s' p Hs))))
              (HbodyA s p s' Hs)) HA q) as [Hk1 Hc1].
    pose proof (place_loop_all_sites
      (fun s s' => kind s' = kind s ∧ connected s' = connected s) _ _ _ _
      ltac:(done) ltac:(intros ? ? ? [? ?] [? ?]; split; congruence)
      (fun s p s' Hs =>
         conj (conj (proj1 (place_on_B_site E _ _ s s' p Hs))
                    (proj1 (proj2 (place_on_B_site E _ _ s s' p Hs))))
              (HbodyB s p s' Hs)) HB q) as [Hk2 Hc2].
    cbn [set_heavy_mol sites] in Hk1, Hc1. split; congruence.
  - intros q Hq. rewrite <- (HoA q Hq).
    exact (place_loop_all_sites
      (fun s s' => atom_position_pairs s' = atom_position_pairs s) _ _ _ _
      ltac:(done) ltac:(intros ? ? ? ? ?; congruence)
      (fun s p s' Hs =>
         conj (proj2 (proj2 (proj2 (place_on_B_site E _ _ s s' p Hs))))
              (HbodyB s p s' Hs)) HB q).
Qed.

Lemma place_mols_sites_witness :
  distances (sites Cage.placed 0) = []
  ∧ connected (sites Cage.placed 0) = connected (sites Cage.start 0).
Proof.
  destruct (place_mols_sites Cage.env Cage.start Cage.placed Cage_place_mols)
    as (Hd & _ & Hk & _).
  split; [|apply Hk]. apply Hd. cbn. rewrite !elem_of_cons. auto.
Defined.

(** ** The tally of [place_mols] *)

(** X4.  [place_mols] adds [len(positions_A)] to the tally of the block
    it chose as core and [len(positions_B)] to that of the linker, and
    changes the tally of no other block; when the same block object is
    given twice it is tallied [len(positions_A) + len(positions_B)]
    times. *)
Theorem place_mols_tally (E : Env) (st st' : Topology) (bb1 bb2 : nat) :
  building_blocks st !! 0 = Some bb1 →
  building_blocks st !! 1 = Some bb2 →
  place_mols E st = Ok st' →
  let a := assign_blocks bb1 bb2
             (length (find_functional_group_atoms E bb1))
             (length (find_functional_group_atoms E bb2)) in
  let core := a.1.2 in
  let linker := a.1.1.1 in
  ∀ k, tally (bb_counter st') k
       = tally (bb_counter st) k
         + (if decide (k = core) then length (positions_A st) else 0)
         + (if decide (k = linker) then length (positions_B st) else 0).
Proof.
  intros H1 H2 H. cbn zeta.
  destruct (place_mols_inv E st st' H) as (b1 & b2 & st_mid & H1' & H2' & HA & HB).
  rewrite H1 in H1'. rewrite H2 in H2'. injection H1' as <-. injection H2' as <-.
  cbn zeta in HA, HB. set (a := assign_blocks _ _ _ _) in *.
  destruct (place_loop_inv E _ _ _ _ _
              (fun s p s' Hs => proj1 (place_on_A_inv E _ _ s s' p Hs)) HA)
    as (_ & _ & _ & HposB & _ & HtA & HoA).
  destruct (place_loop_inv E _ _ _ _ _
              (fun s p s' Hs => proj1 (place_on_B_inv E _ _ s s' p Hs)) HB)
    as (_ & _ & _ & _ & _ & HtB & HoB).
  cbn [set_heavy_mol positions_A positions_B bb_counter] in *.
  rewrite HposB in *. intros k.
  destruct (decide (k = a.1.1.1)) as [->|Hl].
  - rewrite HtB. destruct (decide (a.1.1.1 = a.1.2)) as [Heq|Hc].
    + rewrite Heq at 1. rewrite HtA, Heq. lia.
    + rewrite (HoA _ Hc). lia.
  - rewrite (HoB k Hl). destruct (decide (k = a.1.2)) as [->|Hc].
    + rewrite HtA. lia.
    + rewrite (HoA k Hc). lia.
Qed.

Lemma Cage_place_mols_same :
  place_mols Cage.env Cage.start_same = Ok Cage.placed_same.
Proof. vm_compute. reflexivity. Defined.

Lemma place_mols_tally_witness :
  tally (bb_counter Cage.placed_same) Cage.core = 5
  ∧ tally (bb_counter Cage.placed) Cage.linker = 3.
Proof.
  split.
  - exact (place_mols_tally Cage.env Cage.start_same Cage.placed_same
             Cage.core Cage.core eq_refl eq_refl Cage_place_mols_same
             Cage.core).
  - exact (place_mols_tally Cage.env Cage.start Cage.placed
             Cage.core Cage.linker eq_refl eq_refl Cage_place_mols
             Cage.linker).
Defined.

(** ** When placement fails and when it completes *)

Lemma length_combinations2_cons {A} (x : A) (l : list A) :
  length (combinations2 (x :: l)) = length l + length (combinations2 l).
Proof. cbn [combinations2]. by rewrite length_app, length_map. Qed.

(** There are [n (n - 1) / 2] pairs of [n] neighbours. *)
Lemma length_combinations2 {A} (l : list A) :
  2 * length (combinations2 l) = length l * (length l - 1).
Proof.
  induction l as [|x l IH]; [reflexivity|].
  rewrite length_combinations2_cons. cbn [length].
  replace (S (length l) - 1) with (length l) by lia.
  destruct l as [|y l]; [reflexivity|]. cbn [length] in *. nia.
Qed.

Lemma take_2_combinations2 {A} (l : list A) :
  (length l < 3 → length (take 2 (combinations2 l)) < 2)
  ∧ (3 ≤ length l → length (take 2 (combinations2 l)) = 2).
Proof.
  pose proof (length_combinations2 l) as H. rewrite length_take. split; intros Hl.
  - destruct l as [|x [|y [|z l]]]; cbn in *; lia.
  - assert (2 ≤ length (combinations2 l)) by nia. lia.
Qed.

(** The outcomes of [place_mol], by the class of the site. *)
Lemma place_mol_cases (E : Env) (self : Site) (bb : nat) :
  place_mol E self bb =
  match kind self with
  | IsEdge => Ok (set_distances self [], bb_heavy_mol E bb)
  | IsVertex =>
      if length (connected self) <? 3 then Raise ValueError
      else match bb_heavy_ids E bb with
           | [] => Raise IndexError
           | _ :: _ => Ok (set_distances self [], bb_heavy_mol E bb)
           end
  end.
Proof.
  unfold place_mol, Vertex_place_mol, Edge_place_mol.
  destruct (kind self); [|reflexivity].
  cbn [connected set_distances].
  destruct (take_2_combinations2 (connected self)) as [Hlt Hge].
  destruct (length (connected self) <? 3) eqn:Hn.
  - apply Nat.ltb_lt in Hn. specialize (Hlt Hn).
    destruct (take 2 _) as [|? [|? [|? ?]]]; cbn in Hlt; try lia; reflexivity.
  - apply Nat.ltb_ge in Hn. specialize (Hge Hn).
    destruct (take 2 _) as [|? [|? [|? ?]]]; cbn in Hge; try lia.
    unfold getitem. by destruct (bb_heavy_ids E bb).
Qed.

(** X5.  [place_mol] on a [Vertex] with fewer than three neighbours
    raises [ValueError] (there are not two edge-direction vectors to
    unpack), with three or more and a block without heavy ids it raises
    [IndexError]; otherwise, and always on an [Edge], it flushes
    [distances] and returns the block's heavy molecule. *)
Theorem place_mol_outcome (E : Env) (self : Site) (bb : nat) :
  (kind self = IsVertex → length (connected self) < 3 →
   place_mol E self bb = Raise ValueError)
  ∧ (kind self = IsVertex → 3 ≤ length (connected self) →
     bb_heavy_ids E bb = [] →
     place_mol E self bb = Raise IndexError)
  ∧ (kind self = IsEdge
     ∨ (3 ≤ length (connected self) ∧ bb_heavy_ids E bb ≠ []) →
     place_mol E self bb = Ok (set_distances self [], bb_heavy_mol E bb)).
Proof.
  rewrite place_mol_cases. split; [|split].
  - intros -> Hn. apply Nat.ltb_lt in Hn. by rewrite Hn.
  - intros -> Hn ->. apply Nat.ltb_ge in Hn. by rewrite Hn.
  - intros [->|[Hn Hids]]; [reflexivity|].
    apply Nat.ltb_ge in Hn. rewrite Hn.
    destruct (kind self); [|reflexivity].
    by destruct (bb_heavy_ids E bb).
Qed.

Lemma for_each_visits {A S} (body : S -> A -> result S) (I : S -> Prop)
    (l : list A) (st st' : S) :
  (∀ s x s', I s → body s x = Ok s' → I s') →
  I st → for_each body l st = Ok st' →
  ∀ x, x ∈ l → ∃ s s', I s ∧ body s x = Ok s'.
Proof.
  intros Hbody. revert st. induction l as [|y l IH]; intros st HI H x Hx.
  - by apply elem_of_nil in Hx.
  - cbn [for_each] in H. inv_bind H.
    apply elem_of_cons in Hx as [->|Hx].
    + by exists st, x0.
    + apply (IH x0); [by apply (Hbody st y)|exact H|exact Hx].
Qed.

Lemma for_each_total {A S} (body : S -> A -> result S) (I : S -> Prop)
    (l : list A) (st : S) :
  (∀ s x, x ∈ l → I s → ∃ s', body s x = Ok s' ∧ I s') →
  I st → ∃ st', for_each body l st = Ok st' ∧ I st'.
Proof.
  revert st. induction l as [|y l IH]; intros st Hbody HI.
  - by exists st.
  - destruct (Hbody st y) as (s' & Hs' & HI'); [apply list_elem_of_here|exact HI|].
    cbn [for_each]. rewrite Hs', bind_Ok_l. apply IH; [|exact HI'].
    intros s x Hx. apply Hbody. by apply list_elem_of_further.
Qed.

Lemma place_on_A_layout (E : Env) (n bb : nat) (s s' : Topology) (p : nat) :
  place_on_A E n bb s p = Ok s' → same_layout s s'.
Proof.
  intros H q. destruct (decide (q = p)) as [->|Hne].
  - apply place_on_A_site in H. tauto.
  - apply place_on_A_inv in H as (_ & _ & Hframe). by rewrite (Hframe q Hne).
Qed.

Lemma place_on_B_layout (E : Env) (n bb : nat) (s s' : Topology) (p : nat) :
  place_on_B E n bb s p = Ok s' → same_layout s s'.
Proof.
  intros H q. destruct (decide (q = p)) as [->|Hne].
  - apply place_on_B_site in H. tauto.
  - apply place_on_B_inv in H as (_ & _ & Hframe). by rewrite (Hframe q Hne).
Qed.

Lemma same_layout_trans (st1 st2 st3 : Topology) :
  same_layout st1 st2 → same_layout st2 st3 → same_layout st1 st3.
Proof.
  intros H12 H23 q. destruct (H12 q), (H23 q). split; congruence.
Qed.

(** X6.  [place_mols] completes only if the macromolecule has at least
    two building blocks and every [Vertex] among the sites of
    [positions_A] and [positions_B] has at least three neighbours. *)
Theorem place_mols_needs (E : Env) (st st' : Topology) :
  place_mols E st = Ok st' →
  2 ≤ length (building_blocks st)
  ∧ ∀ p, p ∈ positions_A st ++ positions_B st →
         kind (sites st p) = IsVertex →
         3 ≤ length (connected (sites st p)).
Proof.
  intros H.
  destruct (place_mols_inv E st st' H) as (b1 & b2 & st_mid & _ & H2 & HA & HB).
  split; [apply lookup_lt_Some in H2; lia|].
  cbn zeta in HA, HB. set (a := assign_blocks _ _ _ _) in *.
  destruct (place_loop_inv E _ _ _ _ _
              (fun s p s' Hs => proj1 (place_on_A_inv E _ _ s s' p Hs)) HA)
    as (_ & _ & _ & HposB & _).
  cbn [set_heavy_mol positions_B] in HposB. rewrite HposB in HB.
  assert (Hmid : same_layout st st_mid).
  { apply (for_each_invariant (place_on_A E a.2 a.1.2) (same_layout st)
             (positions_A st) (set_heavy_mol st empty_mol)); [|done|exact HA].
    intros s x s' _ Hs Hx. apply (same_layout_trans _ _ _ Hs).
    by eapply place_on_A_layout. }
  assert (Hplace : ∀ s p r, same_layout st s →
            kind (sites st p) = IsVertex →
            place_mol E (sites s p) r.1 = Ok r.2 →
            3 ≤ length (connected (sites st p))).
  { intros s p r Hs Hk Hp. rewrite place_mol_cases in Hp.
    destruct (Hs p) as [Hk' Hc']. rewrite Hk', Hc', Hk in Hp.
    destruct (_ <? 3) eqn:Hn; [discriminate|]. by apply Nat.ltb_ge in Hn. }
  intros p Hp Hk. apply elem_of_app in Hp as [Hp|Hp].
  - assert (H0 : same_layout st (set_heavy_mol st empty_mol)) by done.
    destruct (for_each_visits (place_on_A E a.2 a.1.2) (same_layout st) _ _ _
                (fun s x s' Hs Hx => same_layout_trans _ _ _ Hs
                                       (place_on_A_layout E _ _ s s' x Hx))
                H0 HA p Hp) as (s & s' & Hs & Hbody).
    unfold place_on_A in Hbody. inv_bind Hbody.
    exact (Hplace s p (a.1.2, x) Hs Hk Hx).
  - destruct (for_each_visits (place_on_B E a.1.1.2 a.1.1.1) (same_layout st) _ _ _
                (fun s x s' Hs Hx => same_layout_trans _ _ _ Hs
                                       (place_on_B_layout E _ _ s s' x Hx))
                Hmid HB p Hp) as (s & s' & Hs & Hbody).
    unfold place_on_B in Hbody. inv_bind Hbody.
    exact (Hplace s p (a.1.1.1, x) Hs Hk Hx).
Qed.

Lemma place_mols_needs_witness :
  2 ≤ length (building_blocks Cage.start)
  ∧ 3 ≤ length (connected (sites Cage.start 0)).
Proof.
  destruct (place_mols_needs Cage.env Cage.start Cage.placed Cage_place_mols)
    as [H2 H3].
  split; [exact H2|]. apply H3; [|reflexivity].
  cbn. rewrite !elem_of_cons. auto.
Defined.

Lemma place_on_A_total (E : Env) (n bb : nat) (s : Topology) (p : nat) :
  (kind (sites s p) = IsVertex → 3 ≤ length (connected (sites s p))) →
  bb_heavy_ids E bb ≠ [] →
  (∀ h q1 q2, q1 ∈ connected (sites s p) → q2 ∈ connected (sites s p) →
     (atom_site_distance E h q1 == atom_site_distance E h q2)%Q → q1 = q2) →
  ∃ s', place_on_A E n bb s p = Ok s'.
Proof.
  intros Hv Hids Hnt. unfold place_on_A. rewrite place_mol_cases.
  assert (Hplace : ∃ r, (match kind (sites s p) with
            | IsEdge => Ok (set_distances (sites s p) [], bb_heavy_mol E bb)
            | IsVertex =>
                if length (connected (sites s p)) <? 3 then Raise ValueError
                else match bb_heavy_ids E bb with
                     | [] => Raise IndexError
                     | _ :: _ => Ok (set_distances (sites s p) [], bb_heavy_mol E bb)
                     end
            end) = Ok r ∧ r = (set_distances (sites s p) [], bb_heavy_mol E bb)).
  { destruct (kind (sites s p)); [|by eexists].
    specialize (Hv eq_refl). apply Nat.ltb_ge in Hv. rewrite Hv.
    destruct (bb_heavy_ids E bb); [done | by eexists]. }
  destruct Hplace as (r & -> & ->). rewrite bind_Ok_l. cbn [fst snd].
  rewrite sorted_collect_heavy_ids, bind_Ok_l.
  apply pair_heavy_ids_with_connected_matching.
  intros h q1 q2 _ H1 H2. apply Hnt.
  - revert H1. cbn. by rewrite !fn_lookup_insert.
  - revert H2. cbn. by rewrite !fn_lookup_insert.
Qed.

Lemma place_on_B_total (E : Env) (n bb : nat) (s : Topology) (p : nat) :
  (kind (sites s p) = IsVertex → 3 ≤ length (connected (sites s p))) →
  bb_heavy_ids E bb ≠ [] →
  ∃ s', place_on_B E n bb s p = Ok s'.
Proof.
  intros Hv Hids. unfold place_on_B. rewrite place_mol_cases.
  destruct (kind (sites s p)).
  - specialize (Hv eq_refl). apply Nat.ltb_ge in Hv. rewrite Hv.
    destruct (bb_heavy_ids E bb); [done | by eexists].
  - by eexists.
Qed.

(** X7.  [place_mols] completes when the macromolecule has two building
    blocks, both with heavy ids, every [Vertex] among the sites of
    [positions_A] and [positions_B] has at least three neighbours, and no
    atom is at the same distance from two different neighbours of a site
    of [positions_A]. *)
Theorem place_mols_completes (E : Env) (st : Topology) (bb1 bb2 : nat) :
  building_blocks st !! 0 = Some bb1 →
  building_blocks st !! 1 = Some bb2 →
  bb_heavy_ids E bb1 ≠ [] →
  bb_heavy_ids E bb2 ≠ [] →
  (∀ p, p ∈ positions_A st ++ positions_B st →
        kind (sites st p) = IsVertex →
        3 ≤ length (connected (sites st p))) →
  (∀ p h q1 q2, p ∈ positions_A st →
     q1 ∈ connected (sites st p) → q2 ∈ connected (sites st p) →
     (atom_site_distance E h q1 == atom_site_distance E h q2)%Q → q1 = q2) →
  ∃ st', place_mols E st = Ok st'.
Proof.
  intros H1 H2 Hh1 Hh2 Hv Hnt. unfold place_mols, getitem.
  cbn [building_blocks set_heavy_mol positions_A]. rewrite H1, H2, !bind_Ok_l.
  destruct (assign_blocks bb1 bb2 _ _) as [[[lk n_lk] bb] n_bb] eqn:Ha.
  assert (Hblocks : bb_heavy_ids E bb ≠ [] ∧ bb_heavy_ids E lk ≠ []).
  { unfold assign_blocks in Ha. destruct (_ <? _); injection Ha as <- <- <- <-;
      by split. }
  destruct Hblocks as [Hbb Hlk].
  set (st0 := set_heavy_mol st empty_mol).
  assert (HI0 : same_layout st st0 ∧ positions_B st0 = positions_B st) by done.
  destruct (for_each_total (place_on_A E n_bb bb)
              (fun s => same_layout st s ∧ positions_B s = positions_B st)
              (positions_A st) st0) as (st_mid & -> & Hmid & HposB);
    [|exact HI0|].
  { intros s p Hp [Hs HB].
    destruct (place_on_A_total E n_bb bb s p) as [s' Hs'].
    - destruct (Hs p) as [-> ->]. apply Hv, elem_of_app. by left.
    - exact Hbb.
    - destruct (Hs p) as [_ ->]. intros h q1 q2. by apply Hnt.
    - exists s'. split; [exact Hs'|]. split.
      + apply (same_layout_trans _ _ _ Hs). by eapply place_on_A_layout.
      + apply place_on_A_inv in Hs' as ((_ & _ & _ & _ & -> & _) & _). exact HB. }
  rewrite bind_Ok_l, HposB.
  destruct (for_each_total (place_on_B E n_lk lk) (same_layout st)
              (positions_B st) st_mid) as (st' & Hst' & _); [|exact Hmid|].
  { intros s p Hp Hs.
    destruct (place_on_B_total E n_lk lk s p) as [s' Hs'].
    - destruct (Hs p) as [-> ->]. apply Hv, elem_of_app. by right.
    - exact Hlk.
    - exists s'. split; [exact Hs'|].
      apply (same_layout_trans _ _ _ Hs). by eapply place_on_B_layout. }
  by exists st'.
Qed.

Lemma Cage_to_site_no_tie (p h q1 q2 : nat) :
  p ∈ positions_A Cage.start →
  q1 ∈ connected (sites Cage.start p) → q2 ∈ connected (sites Cage.start p) →
  (atom_site_distance Cage.env h q1 == atom_site_distance Cage.env h q2)%Q →
  q1 = q2.
Proof.
  intros Hp. cbn in Hp. rewrite !elem_of_cons, elem_of_nil in Hp.
  cbn [atom_site_distance Cage.env]. unfold Cage.to_site.
  generalize (Cage.nearest_edge h). intros n.
  destruct Hp as [->|[->|[]]]; cbn; rewrite !elem_of_cons, !elem_of_nil;
    intros [->|[->|[->|[]]]] [->|[->|[->|[]]]] Hd; try reflexivity;
    repeat match type of Hd with
           | context [?a =? n] =>
               let He := fresh "He" in
               destruct (a =? n) eqn:He;
               [apply Nat.eqb_eq in He|]
           end;
    first [lia | vm_compute in Hd; discriminate Hd].
Qed.

Lemma place_mols_completes_witness :
  ∃ st', place_mols Cage.env Cage.start = Ok st'.
Proof.
  apply (place_mols_completes Cage.env Cage.start Cage.core Cage.linker
           eq_refl eq_refl); try discriminate.
  - intros p Hp Hk. cbn in Hp. rewrite !elem_of_cons, elem_of_nil in Hp.
    destruct Hp as [->|[->|[->|[->|[->|[]]]]]];
      first [discriminate Hk | cbn; lia].
  - exact Cage_to_site_no_tie.
Defined.

(** ** The first pass of [join_mols] *)

Lemma collect_inner (E : Env) (p atom_id : nat) (l : list nat) (st : Topology) :
  let st' :=
    foldl (fun st atom2_id =>
      let s := sites st p in
      let distance := atom_distance E atom_id atom2_id in
      set_site st p
        (set_distances s (distances s ++ [(distance, atom_id, atom2_id)])))
      st l in
  sites st' p
  = set_distances (sites st p)
      (distances (sites st p)
       ++ map (fun b => (atom_distance E atom_id b, atom_id, b)) l)
  ∧ ∀ q, q ≠ p → sites st' q = sites st q.
Proof.
  cbn zeta. revert st. induction l as [|b l IH]; intros st.
  - cbn. rewrite app_nil_r. split; [by destruct (sites st p) | done].
  - cbn [foldl map]. destruct (IH (set_site st p
      (set_distances (sites st p)
         (distances (sites st p) ++ [(atom_distance E atom_id b, atom_id, b)]))))
      as [Hp Hq].
    split.
    + rewrite Hp. cbn. rewrite fn_lookup_insert. cbn.
      by rewrite <- app_assoc.
    + intros q Hne. rewrite (Hq q Hne). cbn. by rewrite fn_lookup_insert_ne.
Qed.

Lemma collect_outer (E : Env) (p : nat) (pairs : list (nat * nat))
    (st0 st : Topology) :
  (∀ q, heavy_ids (sites st q) = heavy_ids (sites st0 q)) →
  let st' :=
    foldl (fun st '(atom_id, vertex) =>
      foldl (fun st atom2_id =>
        let s := sites st p in
        let distance := atom_distance E atom_id atom2_id in
        set_site st p
          (set_distances s (distances s ++ [(distance, atom_id, atom2_id)])))
        st (heavy_ids (sites st vertex)))
      st pairs in
  sites st' p
  = set_distances (sites st p)
      (distances (sites st p)
       ++ flat_map (fun av =>
            map (fun b => (atom_distance E av.1 b, av.1, b))
                (heavy_ids (sites st0 av.2))) pairs)
  ∧ ∀ q, q ≠ p → sites st' q = sites st q.
Proof.
  cbn zeta. revert st. induction pairs as [|[a v] pairs IH]; intros st Hh.
  - cbn. rewrite app_nil_r. split; [by destruct (sites st p) | done].
  - cbn [foldl flat_map fst snd].
    destruct (collect_inner E p a (heavy_ids (sites st v)) st) as [Hp Hq].
    cbn zeta in Hp, Hq.
    set (st1 := foldl _ st (heavy_ids (sites st v))) in *.
    assert (Hh1 : ∀ q, heavy_ids (sites st1 q) = heavy_ids (sites st0 q)).
    { intros q. destruct (decide (q = p)) as [->|Hne].
      - rewrite Hp. cbn. apply Hh.
      - rewrite (Hq q Hne). apply Hh. }
    destruct (IH st1 Hh1) as [Hp' Hq']. split.
    + rewrite Hp', Hp. cbn. rewrite (Hh v), <- app_assoc. reflexivity.
    + intros q Hne. by rewrite (Hq' q Hne), (Hq q Hne).
Qed.

(** One site of the first pass: its triples are appended to its
    [distances], nothing else changes. *)
Lemma collect_distances_site (E : Env) (st : Topology) (p : nat) :
  sites (collect_distances E st p) p
  = set_distances (sites st p) (distances (sites st p) ++ site_triples E st p)
  ∧ ∀ q, q ≠ p → sites (collect_distances E st p) q = sites st q.
Proof.
  exact (collect_outer E p (atom_position_pairs (sites st p)) st st
           (fun q => eq_refl)).
Qed.

Lemma collect_distances_same_but_distances (E : Env) (st : Topology) (p q : nat) :
  same_but_distances (sites st q) (sites (collect_distances E st p) q).
Proof.
  destruct (collect_distances_site E st p) as [Hp Hq].
  destruct (decide (q = p)) as [->|Hne].
  - rewrite Hp. by repeat split.
  - rewrite (Hq q Hne). by repeat split.
Qed.

Lemma site_triples_ext (E : Env) (st st' : Topology) (p : nat) :
  (∀ q, same_but_distances (sites st q) (sites st' q)) →
  site_triples E st' p = site_triples E st p.
Proof.
  intros H. unfold site_triples.
  destruct (H p) as (_ & _ & _ & ->).
  apply flat_map_ext. intros [a v]. cbn.
  by destruct (H v) as (_ & _ & -> & _).
Qed.

(** The whole first pass. *)
Lemma collect_all_distances_sites (E : Env) (ps : list nat) (st : Topology) :
  NoDup ps →
  let st' := foldl (collect_distances E) st ps in
  (∀ p, p ∈ ps →
        distances (sites st' p) = distances (sites st p) ++ site_triples E st p)
  ∧ (∀ q, q ∉ ps → sites st' q = sites st q)
  ∧ (∀ q, same_but_distances (sites st q) (sites st' q)).
Proof.
  cbn zeta. revert st. induction ps as [|p ps IH]; intros st Hnd.
  - cbn. split; [|split]; [|done|by repeat split].
    intros p Hp. by apply elem_of_nil in Hp.
  - apply NoDup_cons in Hnd as [Hnin Hnd]. cbn [foldl].
    destruct (collect_distances_site E st p) as [Hp Hq].
    pose proof (collect_distances_same_but_distances E st p) as Hs.
    destruct (IH (collect_distances E st p) Hnd) as (Hin & Hout & Hall).
    split; [|split].
    + intros q Hq'. apply elem_of_cons in Hq' as [->|Hq'].
      * rewrite (Hout p Hnin), Hp. reflexivity.
      * rewrite (Hin q Hq'), (site_triples_ext E st _ q Hs).
        assert (q ≠ p) by (intros ->; done). by rewrite (Hq q).
    + intros q Hq'. rewrite elem_of_cons in Hq'.
      rewrite Hout by tauto. apply Hq. tauto.
    + intros q. destruct (Hs q) as (?&?&?&?), (Hall q) as (?&?&?&?).
      repeat split; congruence.
Qed.

(** X8.  When the sites of [positions_A] are distinct, [join_mols]
    appends to the [distances] of each of them one triple
    [(distance, atom_id, atom2_id)] for every pair [(atom_id, vertex)] of
    the site and every heavy id of [vertex], in that order; it changes no
    other site and no other field of a site. *)
Theorem join_mols_distances (E : Env) (st st' : Topology) :
  join_mols E st = Ok st' →
  NoDup (positions_A st) →
  (∀ p, p ∈ positions_A st →
        distances (sites st' p) = distances (sites st p) ++ site_triples E st p)
  ∧ (∀ q, q ∉ positions_A st → sites st' q = sites st q)
  ∧ (∀ q, same_but_distances (sites st q) (sites st' q)).
Proof.
  intros H Hnd.
  destruct (join_mols_inv E st st' H) as (_ & _ & _ & _ & _ & _ & _ & _ & ->).
  exact (collect_all_distances_sites E (positions_A st) st Hnd).
Qed.

Lemma Cage_NoDup_positions_A : NoDup (positions_A Cage.placed).
Proof.
  assert (H : positions_A Cage.placed = [0; 1]) by (vm_compute; reflexivity).
  rewrite H. apply NoDup_cons. split.
  - rewrite elem_of_cons, elem_of_nil. lia.
  - apply NoDup_singleton.
Qed.

Lemma join_mols_distances_witness :
  distances (sites Cage.joined 0)
  = distances (sites Cage.placed 0) ++ site_triples Cage.env Cage.placed 0.
Proof.
  destruct (join_mols_distances Cage.env Cage.placed Cage.joined
              Cage_join_mols Cage_NoDup_positions_A) as (H & _ & _).
  apply H. vm_compute. apply list_elem_of_here.
Defined.

Lemma sitewise_sorted_distances_elem (st : Topology) (L : list (Q * nat * nat))
    (x : Q * nat * nat) :
  sitewise_sorted_distances st = Ok L →
  x ∈ L ↔ ∃ p, p ∈ positions_A st ∧ x ∈ distances (sites st p).
Proof.
  unfold sitewise_sorted_distances. intros H. inv_bind H. injection H as <-.
  apply mapM_Ok_Forall2 in Hx. revert Hx.
  generalize (positions_A st). intros ps Hx.
  induction Hx as [|p seg ps segs Hseg _ IH]; cbn [concat].
  - split; [by intros ?%elem_of_nil|]. by intros (p & ?%elem_of_nil & _).
  - rewrite elem_of_app, IH, (sorted_perm _ _ _ Hseg). split.
    + intros [Hin|(q & Hq & Hin)].
      * exists p. split; [apply list_elem_of_here | exact Hin].
      * exists q. split; [by apply list_elem_of_further | exact Hin].
    + intros (q & Hq & Hin). apply elem_of_cons in Hq as [->|Hq]; [by left|].
      right. by exists q.
Qed.

Lemma elem_of_site_triples (E : Env) (st : Topology) (p : nat)
    (d : Q) (a b : nat) :
  (d, a, b) ∈ site_triples E st p ↔
  ∃ v, (a, v) ∈ atom_position_pairs (sites st p)
       ∧ b ∈ heavy_ids (sites st v)
       ∧ d = atom_distance E a b.
Proof.
  unfold site_triples. rewrite list_elem_of_In, in_flat_map. split.
  - intros ([a' v] & Hav & Hin). cbn in Hin.
    apply in_map_iff in Hin as (b' & [= <- <- <-] & Hb).
    exists v. rewrite !list_elem_of_In. auto.
  - intros (v & Hav & Hb & ->). exists (a, v).
    rewrite <- list_elem_of_In. split; [exact Hav|]. cbn.
    apply in_map_iff. exists b. rewrite <- list_elem_of_In. auto.
Qed.

(** The candidates of the second pass, when the [distances] were flushed
    beforehand. *)
Lemma join_mols_candidates (E : Env) (st st' : Topology)
    (L : list (Q * nat * nat)) :
  join_mols E st = Ok st' →
  NoDup (positions_A st) →
  (∀ p, p ∈ positions_A st → distances (sites st p) = []) →
  sitewise_sorted_distances st' = Ok L →
  ∀ d a b, (d, a, b) ∈ L ↔
    ∃ p v, p ∈ positions_A st
           ∧ (a, v) ∈ atom_position_pairs (sites st p)
           ∧ b ∈ heavy_ids (sites st v)
           ∧ d = atom_distance E a b.
Proof.
  intros H Hnd Hflushed HL d a b.
  destruct (join_mols_inv E st st' H) as (_ & _ & _ & _ & _ & _ & _ & HA & Hs).
  destruct (collect_all_distances_sites E (positions_A st) st Hnd)
    as (Hdist & _ & _).
  rewrite (sitewise_sorted_distances_elem st' L _ HL), HA, Hs. split.
  - intros (p & Hp & Hd). rewrite (Hdist p Hp), (Hflushed p Hp) in Hd.
    cbn [app] in Hd. apply elem_of_site_triples in Hd as (v & Hd).
    by exists p, v.
  - intros (p & v & Hp & Hd). exists p. split; [exact Hp|].
    rewrite (Hdist p Hp), (Hflushed p Hp). cbn [app].
    apply elem_of_site_triples. by exists v.
Qed.

(** An accepted pair is one of the candidates. *)
Lemma accepted_candidate (E : Env) (st st' : Topology)
    (L : list (Q * nat * nat)) (a b : nat) :
  join_mols E st = Ok st' →
  NoDup (positions_A st) →
  (∀ p, p ∈ positions_A st → distances (sites st p) = []) →
  sitewise_sorted_distances st' = Ok L →
  (a, b) ∈ greedy_exclusive_match [] L →
  ∃ p v, p ∈ positions_A st
         ∧ (a, v) ∈ atom_position_pairs (sites st p)
         ∧ b ∈ heavy_ids (sites st v).
Proof.
  intros H Hnd Hflushed HL Hab.
  apply greedy_elem in Hab as (L1 & d & L2 & HL12 & _).
  destruct (proj1 (join_mols_candidates E st st' L H Hnd Hflushed HL d a b))
    as (p & v & Hp & Hav & Hb & _).
  { rewrite HL12. apply elem_of_app. right. apply list_elem_of_here. }
  by exists p, v.
Qed.

(** X9.  [join_mols] keeps the atoms and the bonds the molecule has and
    only appends bonds.  When the sites of [positions_A] are distinct and
    their [distances] were flushed, every bond it appends joins a heavy
    atom [a] that a site of [positions_A] has paired with a neighbour to
    a heavy atom [b] of that neighbour, with the bond order
    [determine_bond_type] gives for [a] and [b]. *)
Theorem join_mols_bonds_provenance (E : Env) (st st' : Topology) :
  join_mols E st = Ok st' →
  NoDup (positions_A st) →
  (∀ p, p ∈ positions_A st → distances (sites st p) = []) →
  mol_atoms (heavy_mol st') = mol_atoms (heavy_mol st)
  ∧ mol_bonds (heavy_mol st')
    = mol_bonds (heavy_mol st) ++ formed_bonds st st'
  ∧ ∀ a b t, (a, b, t) ∈ formed_bonds st st' →
      determine_bond_type E st a b = Ok t
      ∧ ∃ p v, p ∈ positions_A st
               ∧ (a, v) ∈ atom_position_pairs (sites st p)
               ∧ b ∈ heavy_ids (sites st v).
Proof.
  intros H Hnd Hflushed.
  destruct (join_mols_inv E st st' H)
    as (new & L & HL & Hnew & Hmol & _ & Hdet & _).
  rewrite (formed_bonds_app st st' new) by (by rewrite Hmol).
  rewrite Hmol. cbn [mol_atoms mol_bonds].
  split; [reflexivity|]. split; [reflexivity|].
  intros a b t Hin. split.
  - rewrite Forall_forall in Hdet. exact (Hdet (a, b, t) Hin).
  - apply (accepted_candidate E st st' L a b H Hnd Hflushed HL).
    rewrite <- Hnew. apply list_elem_of_fmap. by exists (a, b, t).
Qed.

Lemma Cage_flushed (p : nat) :
  p ∈ positions_A Cage.placed → distances (sites Cage.placed p) = [].
Proof.
  assert (H : positions_A Cage.placed = [0; 1]) by (vm_compute; reflexivity).
  rewrite H, !elem_of_cons, elem_of_nil.
  intros [->|[->|[]]]; vm_compute; reflexivity.
Qed.

Lemma join_mols_bonds_provenance_witness :
  mol_atoms (heavy_mol Cage.joined) = mol_atoms (heavy_mol Cage.placed)
  ∧ determine_bond_type Cage.env Cage.placed 1 8 = Ok DOUBLE.
Proof.
  destruct (join_mols_bonds_provenance Cage.env Cage.placed Cage.joined
              Cage_join_mols Cage_NoDup_positions_A Cage_flushed)
    as (Hatoms & _ & Hbonds).
  split; [exact Hatoms|]. apply (Hbonds 1 8 DOUBLE).
  apply list_elem_of_In, (nth_error_In _ 2). vm_compute. reflexivity.
Defined.

Lemma elem_of_fst_claimed (x : nat) (pairs : list (nat * nat)) :
  x ∈ pairs.*1 → x ∈ claimed_atoms pairs.
Proof.
  intros H. apply list_elem_of_fmap in H as ([a b] & -> & Hin).
  unfold claimed_atoms. apply list_elem_of_In, in_flat_map. exists (a, b).
  split; [by apply list_elem_of_In|]. cbn. auto.
Qed.

(** The first members of the accepted pairs are distinct. *)
Lemma greedy_NoDup_fst (c : list nat) (l : list (Q * nat * nat)) :
  NoDup (greedy_exclusive_match c l).*1.
Proof.
  revert c. induction l as [|[[d x] y] l IH]; intros c.
  - apply NoDup_nil_2.
  - cbn [greedy_exclusive_match].
    destruct (bool_decide (x ∈ c) || bool_decide (y ∈ c)); [apply IH|].
    rewrite fmap_cons. apply NoDup_cons. split; [|apply IH].
    cbn [fst]. intros Hin. apply elem_of_fst_claimed, pairs_at_claimed in Hin.
    pose proof (proj2 (greedy_pairs_at (x :: y :: c) l x)) as Hz.
    rewrite Hz in Hin; [lia | apply list_elem_of_here].
Qed.

(** X10.  [join_mols] forms at most one bond for every heavy atom that a
    site of [positions_A] has paired with a neighbour: the number of bonds
    it appends is at most the number of distinct first members of the
    [atom_position_pairs] of these sites. *)
Theorem join_mols_bond_count (E : Env) (st st' : Topology) :
  join_mols E st = Ok st' →
  NoDup (positions_A st) →
  (∀ p, p ∈ positions_A st → distances (sites st p) = []) →
  length (formed_bonds st st')
  ≤ length (remove_dups
      (flat_map (fun p => (atom_position_pairs (sites st p)).*1)
                (positions_A st))).
Proof.
  intros H Hnd Hflushed.
  destruct (join_mols_inv E st st' H) as (new & L & HL & Hnew & Hmol & _).
  rewrite (formed_bonds_app st st' new) by (by rewrite Hmol).
  rewrite <- (length_fmap bond_atoms new), Hnew.
  rewrite <- (length_fmap fst (greedy_exclusive_match [] L)).
  apply submseteq_length, NoDup_submseteq; [apply greedy_NoDup_fst|].
  intros a Ha. apply list_elem_of_fmap in Ha as ([a' b] & -> & Hab).
  cbn [fst].
  destruct (accepted_candidate E st st' L a' b H Hnd Hflushed HL Hab)
    as (p & v & Hp & Hav & _).
  apply elem_of_remove_dups, list_elem_of_In, in_flat_map. exists p.
  split; [by apply list_elem_of_In|].
  apply list_elem_of_In, list_elem_of_fmap. by exists (a', v).
Qed.

Lemma join_mols_bond_count_witness :
  length (formed_bonds Cage.placed Cage.joined)
  ≤ length (remove_dups
      (flat_map (fun p => (atom_position_pairs (sites Cage.placed p)).*1)
                (positions_A Cage.placed))).
Proof.
  exact (join_mols_bond_count Cage.env Cage.placed Cage.joined
           Cage_join_mols Cage_NoDup_positions_A Cage_flushed).
Defined.

(** Of every candidate, one member at least ends up claimed. *)
Lemma greedy_maximal (c : list nat) (l : list (Q * nat * nat))
    (d : Q) (a b : nat) :
  (d, a, b) ∈ l →
  a ∈ claimed_atoms (greedy_exclusive_match c l) ++ c
  ∨ b ∈ claimed_atoms (greedy_exclusive_match c l) ++ c.
Proof.
  revert c. induction l as [|[[d' x] y] l IH]; intros c Hin.
  { by apply elem_of_nil in Hin. }
  cbn [greedy_exclusive_match].
  destruct (bool_decide (x ∈ c) || bool_decide (y ∈ c)) eqn:Hxy.
  - apply elem_of_cons in Hin as [[= -> -> ->]|Hin]; [|by apply IH].
    apply orb_true_iff in Hxy as [Hx|Hy].
    + apply bool_decide_eq_true in Hx. left. apply elem_of_app. by right.
    + apply bool_decide_eq_true in Hy. right. apply elem_of_app. by right.
  - unfold claimed_atoms in *. cbn [flat_map fst snd app].
    apply elem_of_cons in Hin as [[= -> -> ->]|Hin].
    + left. apply list_elem_of_here.
    + destruct (IH (x :: y :: c) Hin) as [Hc|Hc]; [left|right];
        revert Hc; rewrite !elem_of_cons, !elem_of_app, !elem_of_cons; tauto.
Qed.

(** X11.  The bonds [join_mols] forms are a maximal matching of its
    candidates: for every heavy atom [a] that a site of [positions_A] has
    paired with a neighbour and every heavy atom [b] of that neighbour,
    [a] or [b] is at an end of exactly one of the bonds formed. *)
Theorem join_mols_maximal (E : Env) (st st' : Topology) :
  join_mols E st = Ok st' →
  NoDup (positions_A st) →
  ∀ p a v b,
    p ∈ positions_A st →
    (a, v) ∈ atom_position_pairs (sites st p) →
    b ∈ heavy_ids (sites st v) →
    bonds_at a (formed_bonds st st') = 1
    ∨ bonds_at b (formed_bonds st st') = 1.
Proof.
  intros H Hnd p a v b Hp Hav Hb.
  destruct (join_mols_inv E st st' H)
    as (new & L & HL & Hnew & Hmol & _ & _ & HA & Hs).
  destruct (collect_all_distances_sites E (positions_A st) st Hnd)
    as (Hdist & _ & _).
  rewrite (formed_bonds_app st st' new) by (by rewrite Hmol).
  unfold bonds_at. rewrite Hnew.
  assert (Hin : (atom_distance E a b, a, b) ∈ L).
  { apply (sitewise_sorted_distances_elem st' L _ HL). exists p.
    rewrite HA, Hs, (Hdist p Hp). split; [exact Hp|].
    apply elem_of_app. right. apply elem_of_site_triples. by exists v. }
  pose proof (proj1 (greedy_pairs_at [] L a)) as Ha1.
  pose proof (proj1 (greedy_pairs_at [] L b)) as Hb1.
  destruct (greedy_maximal [] L _ a b Hin) as [Hc|Hc];
    rewrite app_nil_r in Hc; apply pairs_at_claimed in Hc; [left|right]; lia.
Qed.

Lemma join_mols_maximal_witness :
  bonds_at 1 (formed_bonds Cage.placed Cage.joined) = 1
  ∨ bonds_at 8 (formed_bonds Cage.placed Cage.joined) = 1.
Proof.
  apply (join_mols_maximal Cage.env Cage.placed Cage.joined
           Cage_join_mols Cage_NoDup_positions_A 0 1 2 8).
  - vm_compute. apply list_elem_of_here.
  - apply list_elem_of_In, (nth_error_In _ 0). vm_compute. reflexivity.
  - apply list_elem_of_In, (nth_error_In _ 0). vm_compute. reflexivity.
Defined.

(** ** Completion of [join_mols] *)










(** ** [final_sub] *)

Lemma next_target (E : Env) (z : nat) :
  (fg ← next (fun x => heavy_atomic_num x =? z) (functional_group_list E);
   Ok (target_atomic_num fg)) =
  match registered_target E z with
  | Some t => Ok t
  | None => Raise StopIteration
  end.
Proof.
  unfold registered_target.
  induction (functional_group_list E) as [|x l IH]; [reflexivity|].
  cbn [next list_find]. destruct (decide (heavy_atomic_num x = z)) as [Heq|Hne].
  - apply Nat.eqb_eq in Heq. rewrite Heq. reflexivity.
  - apply Nat.eqb_neq in Hne. rewrite Hne, IH.
    destruct (list_find _ l) as [[i y]|]; reflexivity.
Qed.



(** The body of the loop of [final_sub] on one atom. *)
Lemma final_sub_atom (E : Env) (z : nat) :
  (if bool_decide (z ∈ heavy_atomic_nums E)
   then fg ← next (fun x => heavy_atomic_num x =? z)
                  (functional_group_list E);
        Ok (target_atomic_num fg)
   else Ok z) =
  match substitute E z with
  | Some t => Ok t
  | None => Raise StopIteration
  end.
Proof.
  unfold substitute. case_bool_decide; [apply next_target | reflexivity].
Qed.


(** X14.  A successful [final_sub] leaves the heavy molecule, the sites,
    the counters and the site lists as they are; the pristine molecule is
    the result of [chem.AddHs] on a molecule with the bonds of the heavy
    molecule and, atom for atom, the element of the heavy molecule, a
    placeholder element being replaced by the target of its registry
    entry. *)
Theorem final_sub_substitutes (E : Env) (st st' : Topology) :
  final_sub E st = Ok st' →
  ∃ m,
    st' = set_prist_mol st (AddHs E m)
    ∧ mol_bonds m = mol_bonds (heavy_mol st)
    ∧ length (mol_atoms m) = length (mol_atoms (heavy_mol st))
    ∧ ∀ i z, mol_atoms (heavy_mol st) !! i = Some z →
             mol_atoms m !! i = substitute E z.
Proof.
  unfold final_sub. intros H. inv_bind H. injection H as <-.
  rename x into atoms. exists (mkMol atoms (mol_bonds (heavy_mol st))).
  apply mapM_Ok_Forall2 in Hx.
  split; [reflexivity|]. split; [reflexivity|]. cbn [mol_atoms]. split.
  - symmetry. exact (Forall2_length _ _ _ Hx).
  - intros i z Hi. destruct (Forall2_lookup_l _ _ _ _ _ Hx Hi) as (t & -> & Ht).
    rewrite final_sub_atom in Ht. destruct (substitute E z); [|discriminate Ht].
    by injection Ht as ->.
Qed.

Lemma Cage_final_sub : final_sub Cage.env Cage.joined = Ok Cage.built.
Proof. vm_compute. reflexivity. Defined.

Lemma final_sub_substitutes_witness :
  ∃ m, Cage.built = set_prist_mol Cage.joined (AddHs Cage.env m)
       ∧ mol_bonds m = mol_bonds (heavy_mol Cage.joined)
       ∧ length (mol_atoms m) = length (mol_atoms (heavy_mol Cage.joined))
       ∧ ∀ i z, mol_atoms (heavy_mol Cage.joined) !! i = Some z →
                mol_atoms m !! i = substitute Cage.env z.
Proof.
  exact (final_sub_substitutes Cage.env Cage.joined Cage.built Cage_final_sub).
Defined.

Lemma registered_target_Some (E : Env) (z t : nat) :
  registered_target E z = Some t →
  ∃ fg, fg ∈ functional_group_list E
        ∧ heavy_atomic_num fg = z ∧ target_atomic_num fg = t.
Proof.
  unfold registered_target. intros H.
  apply fmap_Some in H as ([i fg] & Hfind & ->).
  apply list_find_Some in Hfind as (Hi & Hz & _). exists fg.
  split; [by eapply list_elem_of_lookup_2|]. by split.
Qed.

(** X15.  When no target element of the registry is itself a
    placeholder element, the molecule a successful [final_sub] hands to
    [chem.AddHs] has no placeholder atom left. *)
Theorem final_sub_no_placeholder_left (E : Env) (st st' : Topology) :
  final_sub E st = Ok st' →
  (∀ fg, fg ∈ functional_group_list E →
         target_atomic_num fg ∉ heavy_atomic_nums E) →
  ∃ m, prist_mol st' = AddHs E m
       ∧ mol_bonds m = mol_bonds (heavy_mol st)
       ∧ heavy_indices E 0 (mol_atoms m) = [].
Proof.
  unfold final_sub. intros H Htargets. inv_bind H. injection H as <-.
  rename x into atoms. exists (mkMol atoms (mol_bonds (heavy_mol st))).
  apply mapM_Ok_Forall2 in Hx.
  split; [reflexivity|]. split; [reflexivity|]. cbn [mol_atoms].
  apply elem_of_nil_inv. intros h Hh.
  apply elem_of_heavy_indices in Hh as (i & t & _ & Hi & Ht).
  destruct (Forall2_lookup_r _ _ _ _ _ Hx Hi) as (z & _ & Hz).
  rewrite final_sub_atom in Hz. unfold substitute in Hz.
  case_bool_decide as Hheavy.
  - destruct (registered_target E z) as [t'|] eqn:Hreg; [|discriminate Hz].
    injection Hz as ->.
    apply registered_target_Some in Hreg as (fg & Hfg & _ & <-).
    exact (Htargets fg Hfg Ht).
  - injection Hz as ->. exact (Hheavy Ht).
Qed.

Lemma Cage_targets (fg : FGInfo) :
  fg ∈ functional_group_list Cage.env →
  target_atomic_num fg ∉ heavy_atomic_nums Cage.env.
Proof.
  cbn. rewrite !elem_of_cons, !elem_of_nil.
  intros [->|[->|[]]]; cbn; lia.
Qed.

Lemma final_sub_no_placeholder_left_witness :
  ∃ m, prist_mol Cage.built = AddHs Cage.env m
       ∧ mol_bonds m = mol_bonds (heavy_mol Cage.joined)
       ∧ heavy_indices Cage.env 0 (mol_atoms m) = [].
Proof.
  exact (final_sub_no_placeholder_left Cage.env Cage.joined Cage.built
           Cage_final_sub Cage_targets).
Defined.

(** ** The ids [place_mols] records *)

Lemma placeholder_grow (E : Env) (s s' : Topology) (extra : list nat) (h : nat) :
  mol_atoms (heavy_mol s') = mol_atoms (heavy_mol s) ++ extra →
  placeholder E s h → placeholder E s' h.
Proof.
  intros Hm (z & Hz & Hh). exists z. split; [|exact Hh].
  rewrite Hm. by apply lookup_app_l_Some.
Qed.

Lemma placed_one_atoms (E : Env) (bb : nat) (s s' : Topology) :
  placed_one E bb s s' →
  mol_atoms (heavy_mol s') =
  mol_atoms (heavy_mol s) ++ mol_atoms (bb_heavy_mol E bb).
Proof. intros (_ & -> & _). reflexivity. Qed.

Lemma collected_placeholder (E : Env) (n : nat) (s : Topology) (h : nat) :
  h ∈ collect_heavy_ids E n 0 (mol_atoms (heavy_mol s)) [] →
  placeholder E s h.
Proof.
  rewrite collect_heavy_ids_lastn by (cbn; lia). cbn [app].
  intros Hh%elem_of_lastn.
  apply elem_of_heavy_indices in Hh as (i & z & -> & Hi & Hz).
  by exists z.
Qed.

Lemma place_on_A_pairs (E : Env) (n bb : nat) (s s' : Topology) (p : nat) :
  place_on_A E n bb s p = Ok s' →
  ∀ a v, (a, v) ∈ atom_position_pairs (sites s' p) →
         a ∈ heavy_ids (sites s' p) ∧ v ∈ connected (sites s' p).
Proof.
  unfold place_on_A. intros H. inv_bind H.
  apply place_mol_Ok in Hx as ->. cbn [fst snd] in H.
  rewrite sorted_collect_heavy_ids, bind_Ok_l in H.
  apply pair_heavy_ids_with_connected_Ok in H as (sorted_d & Hsort & ->).
  intros a v Hin. apply sorted_perm in Hsort.
  destruct (pair_steps_inv sorted_d _ matched_empty) as (_ & _ & Hfrom & _).
  cbn in Hin. rewrite !fn_lookup_insert in Hin. cbn in Hin.
  destruct (Hfrom _ Hin) as [Hnil|[d Hd]]; [by apply elem_of_nil in Hnil|].
  cbn [fst snd] in Hd. rewrite Hsort in Hd.
  apply elem_of_site_candidates in Hd as (Hh & Hc & _).
  cbn in Hh, Hc |- *. rewrite !fn_lookup_insert in Hh, Hc |- *.
  cbn in Hh, Hc |- *. rewrite fn_lookup_insert. by split.
Qed.

Lemma place_on_A_placed (E : Env) (n bb : nat) (s s' : Topology) (p : nat) :
  place_on_A E n bb s p = Ok s' →
  (heavy_ids_placed E s' p ∧ pairs_placed E s' p)
  ∧ ∀ q, q ≠ p →
      heavy_ids_placed E s q ∧ pairs_placed E s q →
      heavy_ids_placed E s' q ∧ pairs_placed E s' q.
Proof.
  intros H. pose proof (place_on_A_pairs E n bb s s' p H) as Hpairs.
  destruct (place_on_A_inv E n bb s s' p H) as (Hone & Hids & Hframe).
  pose proof (placed_one_atoms E bb s s' Hone) as Hatoms.
  assert (Hp : heavy_ids_placed E s' p).
  { intros h Hh. rewrite Hids in Hh. by eapply collected_placeholder. }
  split; [split; [exact Hp|]|].
  - intros a v Hav. destruct (Hpairs a v Hav) as [Ha Hv].
    split; [by apply Hp | exact Hv].
  - intros q Hq [Hold1 Hold2]. split.
    + intros h Hh. rewrite (Hframe q Hq) in Hh.
      eapply placeholder_grow; [exact Hatoms | by apply Hold1].
    + intros a v Hav. rewrite (Hframe q Hq) in Hav |- *.
      destruct (Hold2 a v Hav) as [Ha Hv].
      split; [by eapply placeholder_grow | exact Hv].
Qed.

Lemma place_on_B_placed (E : Env) (n lk : nat) (s s' : Topology) (p : nat) :
  place_on_B E n lk s p = Ok s' →
  heavy_ids_placed E s' p
  ∧ (∀ q, q ≠ p → heavy_ids_placed E s q → heavy_ids_placed E s' q)
  ∧ (∀ q, pairs_placed E s q → pairs_placed E s' q).
Proof.
  intros H.
  destruct (place_on_B_inv E n lk s s' p H) as (Hone & Hids & Hframe).
  destruct (place_on_B_site E n lk s s' p H) as (_ & Hc & _ & Hpairs).
  pose proof (placed_one_atoms E lk s s' Hone) as Hatoms.
  split; [|split].
  - intros h Hh. rewrite Hids in Hh. by eapply collected_placeholder.
  - intros q Hq Hold h Hh. rewrite (Hframe q Hq) in Hh.
    eapply placeholder_grow; [exact Hatoms | by apply Hold].
  - intros q Hold a v Hav.
    assert (Hsame : atom_position_pairs (sites s' q)
                    = atom_position_pairs (sites s q)
                    ∧ connected (sites s' q) = connected (sites s q)).
    { destruct (decide (q = p)) as [->|Hq]; [by split|].
      by rewrite (Hframe q Hq). }
    destruct Hsame as [Hsp Hsc]. rewrite Hsp in Hav. rewrite Hsc.
    destruct (Hold a v Hav) as [Ha Hv].
    split; [by eapply placeholder_grow | exact Hv].
Qed.

(** A loop whose body establishes [V] at the site it visits and keeps it
    at the others establishes it at all the sites visited. *)
Lemma place_loop_establishes (V : Topology -> nat -> Prop)
    (body : Topology -> nat -> result Topology) (ps : list nat)
    (st st' : Topology) :
  (∀ s p s', body s p = Ok s' →
     V s' p ∧ ∀ q, q ≠ p → V s q → V s' q) →
  for_each body ps st = Ok st' →
  ∀ q, q ∈ ps ∨ V st q → V st' q.
Proof.
  intros Hbody. revert st. induction ps as [|p ps IH]; intros st H q Hq.
  - injection H as <-. destruct Hq as [Hq|Hq]; [by apply elem_of_nil in Hq|done].
  - cbn [for_each] in H. inv_bind H. rename x into s1.
    destruct (Hbody _ _ _ Hx) as [Hp Hframe].
    apply (IH s1 H). rewrite elem_of_cons in Hq.
    destruct (decide (q = p)) as [->|Hne]; [by right|].
    destruct Hq as [[Heq|Hin]|HV]; [done | by left | right; by apply Hframe].
Qed.

Lemma place_mols_positions (E : Env) (st st' : Topology) :
  place_mols E st = Ok st' →
  positions_A st' = positions_A st ∧ positions_B st' = positions_B st.
Proof.
  intros H.
  destruct (place_mols_inv E st st' H) as (b1 & b2 & st_mid & _ & _ & HA & HB).
  cbn zeta in HA, HB.
  destruct (place_loop_inv E _ _ _ _ _
              (fun s p s' Hs => proj1 (place_on_A_inv E _ _ s s' p Hs)) HA)
    as (_ & _ & HA1 & HB1 & _).
  destruct (place_loop_inv E _ _ _ _ _
              (fun s p s' Hs => proj1 (place_on_B_inv E _ _ s s' p Hs)) HB)
    as (_ & _ & HA2 & HB2 & _).
  cbn [set_heavy_mol positions_A positions_B] in HA1, HB1.
  split; congruence.
Qed.

Lemma place_mols_layout (E : Env) (st st' : Topology) :
  place_mols E st = Ok st' → same_layout st st'.
Proof.
  intros H.
  destruct (place_mols_inv E st st' H) as (b1 & b2 & st_mid & _ & _ & HA & HB).
  cbn zeta in HA, HB.
  assert (Hmid : same_layout st st_mid).
  { refine (for_each_invariant _ (same_layout st) _ _ _ _ _ HA); [|done].
    intros s p s' _ Hs Hstep. apply (same_layout_trans _ _ _ Hs).
    by eapply place_on_A_layout. }
  refine (for_each_invariant _ (same_layout st) _ _ _ _ Hmid HB).
  intros s p s' _ Hs Hstep. apply (same_layout_trans _ _ _ Hs).
  by eapply place_on_B_layout.
Qed.

Lemma place_mols_flushed (E : Env) (st st' : Topology) (p : nat) :
  place_mols E st = Ok st' →
  p ∈ positions_A st ++ positions_B st → distances (sites st' p) = [].
Proof.
  intros H Hp.
  destruct (place_mols_inv E st st' H) as (b1 & b2 & st_mid & _ & _ & HA & HB).
  cbn zeta in HA, HB.
  destruct (place_loop_inv E _ _ _ _ _
              (fun s p s' Hs => proj1 (place_on_A_inv E _ _ s s' p Hs)) HA)
    as (_ & _ & _ & HposB & _).
  cbn [set_heavy_mol positions_B] in HposB. rewrite HposB in HB.
  pose proof (place_loop_establishes
    (fun s q => distances (sites s q) = []) _ _ _ _
    (fun s p s' Hs =>
       conj (proj2 (proj2 (place_on_A_site E _ _ s s' p Hs)))
            (fun q Hq (Hold : distances (sites s q) = []) =>
               eq_trans
                 (f_equal distances
                    (proj2 (proj2 (place_on_A_inv E _ _ s s' p Hs)) q Hq))
                 Hold)) HA) as HdA.
  pose proof (place_loop_establishes
    (fun s q => distances (sites s q) = []) _ _ _ _
    (fun s p s' Hs =>
       conj (proj1 (proj2 (proj2 (place_on_B_site E _ _ s s' p Hs))))
            (fun q Hq (Hold : distances (sites s q) = []) =>
               eq_trans
                 (f_equal distances
                    (proj2 (proj2 (place_on_B_inv E _ _ s s' p Hs)) q Hq))
                 Hold)) HB) as HdB.
  cbn beta in HdA, HdB. apply HdB.
  apply elem_of_app in Hp as [Hp|Hp]; [right; apply HdA; by left | by left].
Qed.

Lemma place_mols_placed (E : Env) (st st' : Topology) :
  place_mols E st = Ok st' →
  (∀ q, q ∈ positions_A st ++ positions_B st → heavy_ids_placed E st' q)
  ∧ (∀ p, p ∈ positions_A st → pairs_placed E st' p).
Proof.
  intros H.
  destruct (place_mols_inv E st st' H) as (b1 & b2 & st_mid & _ & _ & HA & HB).
  cbn zeta in HA, HB.
  destruct (place_loop_inv E _ _ _ _ _
              (fun s p s' Hs => proj1 (place_on_A_inv E _ _ s s' p Hs)) HA)
    as (_ & _ & _ & HposB & _).
  cbn [set_heavy_mol positions_B] in HposB. rewrite HposB in HB.
  pose proof (place_loop_establishes
    (fun s q => heavy_ids_placed E s q ∧ pairs_placed E s q) _ _ _ _
    (fun s p s' Hs => place_on_A_placed E _ _ s s' p Hs) HA) as HVA.
  pose proof (place_loop_establishes (heavy_ids_placed E) _ _ _ _
    (fun s p s' Hs =>
       conj (proj1 (place_on_B_placed E _ _ s s' p Hs))
            (proj1 (proj2 (place_on_B_placed E _ _ s s' p Hs)))) HB) as HVB.
  cbn beta in HVA. split.
  - intros q Hq. apply HVB.
    apply elem_of_app in Hq as [Hq|Hq]; [right | by left].
    apply HVA. by left.
  - intros p Hp.
    refine (for_each_invariant _ (fun s => pairs_placed E s p) _ _ _ _ _ HB).
    + intros s q s' _ Hold Hs.
      by apply (proj2 (proj2 (place_on_B_placed E _ _ s s' q Hs))).
    + apply HVA. by left.
Qed.

(** X16.  After a successful [place_mols] every heavy id recorded at a
    site of [positions_A] or [positions_B] is the id of an atom of the
    assembled molecule with a placeholder element, and every pair
    recorded at a site of [positions_A] joins such an atom to a neighbour
    of the site. *)
Theorem place_mols_ids_placed (E : Env) (st st' : Topology) :
  place_mols E st = Ok st' →
  (∀ q h, q ∈ positions_A st ++ positions_B st →
     h ∈ heavy_ids (sites st' q) →
     ∃ z, mol_atoms (heavy_mol st') !! h = Some z
          ∧ z ∈ heavy_atomic_nums E)
  ∧ (∀ p a v, p ∈ positions_A st →
       (a, v) ∈ atom_position_pairs (sites st' p) →
       (∃ z, mol_atoms (heavy_mol st') !! a = Some z
             ∧ z ∈ heavy_atomic_nums E)
       ∧ v ∈ connected (sites st p)).
Proof.
  intros H. destruct (place_mols_placed E st st' H) as [Hids Hpairs].
  pose proof (place_mols_layout E st st' H) as Hlayout. split.
  - intros q h Hq Hh. exact (Hids q Hq h Hh).
  - intros p a v Hp Hav. destruct (Hpairs p Hp a v Hav) as [Ha Hv].
    split; [exact Ha|]. by rewrite <- (proj2 (Hlayout p)).
Qed.

Lemma place_mols_ids_placed_witness :
  ∃ z, mol_atoms (heavy_mol Cage.placed) !! 8 = Some z
       ∧ z ∈ heavy_atomic_nums Cage.env.
Proof.
  destruct (place_mols_ids_placed Cage.env Cage.start Cage.placed
              Cage_place_mols) as [Hids _].
  apply (Hids 2 8).
  - apply list_elem_of_In, (nth_error_In _ 2). vm_compute. reflexivity.
  - apply list_elem_of_In, (nth_error_In _ 0). vm_compute. reflexivity.
Defined.

(** ** Completion of [build] *)







Lemma Cage_NoDup_start : NoDup (positions_A Cage.start).
Proof.
  cbn. apply NoDup_cons. split.
  - rewrite elem_of_cons, elem_of_nil. lia.
  - apply NoDup_singleton.
Qed.


(** ** Failure of [join_mols] *)








(** ** Ties in [pair_heavy_ids_with_connected] *)

Lemma tuple_lt_obj_spec (x y : Q * nat * nat) :
  match tuple_lt_obj x y with
  | Ok true => key_lt x y
  | Ok false => obj_le y x
  | Raise e => e = TypeError ∧ key_eq x y ∧ x.2 ≠ y.2
  end.
Proof.
  destruct x as [[d1 h1] p1], y as [[d2 h2] p2].
  unfold tuple_lt_obj, float_eq, float_lt, key_lt, key_eq, obj_le.
  cbn [fst snd].
  destruct (Qeq_bool d1 d2) eqn:Hd; cbn [negb].
  - apply Qeq_bool_iff in Hd. destruct (h1 =? h2) eqn:Hh; cbn [negb].
    + apply Nat.eqb_eq in Hh. destruct (p1 =? p2) eqn:Hp; cbn [negb].
      * apply Nat.eqb_eq in Hp. right. unfold key_eq. cbn [fst snd].
        split; [split|]; [by symmetry | by symmetry | by symmetry].
      * apply Nat.eqb_neq in Hp. by repeat split.
    + apply Nat.eqb_neq in Hh. destruct (h1 <? h2) eqn:Hlt.
      * apply Nat.ltb_lt in Hlt. right. by split.
      * apply Nat.ltb_ge in Hlt. left. unfold key_lt. cbn [fst snd]. right.
        split; [by symmetry | lia].
  - apply Qeq_bool_neq in Hd. destruct (Qle_bool d2 d1) eqn:Hle; cbn [negb].
    + apply Qle_bool_iff in Hle. left. unfold key_lt. cbn [fst snd]. left.
      apply Qle_lt_or_eq in Hle as [Hlt|Heq]; [exact Hlt|].
      exfalso. apply Hd. by symmetry.
    + left. apply Qnot_le_lt. intros Hle'. apply Qle_bool_iff in Hle'.
      congruence.
Qed.

Lemma key_lt_trans (x y z : Q * nat * nat) :
  key_lt x y → key_lt y z → key_lt x z.
Proof.
  unfold key_lt. intros [H1|[H1 H1']] [H2|[H2 H2']].
  - left. lra.
  - left. lra.
  - left. lra.
  - right. split; [lra | lia].
Qed.

Lemma obj_le_trans (x y z : Q * nat * nat) :
  obj_le x y → obj_le y z → obj_le x z.
Proof.
  unfold obj_le, key_eq. intros [H1|[[H1 H1'] H1'']] [H2|[[H2 H2'] H2'']].
  - left. by eapply key_lt_trans.
  - left. unfold key_lt in *. rewrite <- H2, <- H2'. exact H1.
  - left. unfold key_lt in *. rewrite H1, H1'. exact H2.
  - right. split; [split|]; [lra | congruence | congruence].
Qed.

Lemma obj_le_tie (x y : Q * nat * nat) :
  obj_le x y → key_eq x y → x.2 = y.2.
Proof.
  unfold obj_le, key_lt, key_eq. intros [[H|[_ H]]|[_ H]] [Hd Hh].
  - lra.
  - lia.
  - exact H.
Qed.

Lemma insort_obj_sorted (x : Q * nat * nat) (l r : list (Q * nat * nat)) :
  StronglySorted obj_le l → insort tuple_lt_obj x l = Ok r →
  StronglySorted obj_le r.
Proof.
  revert r. induction l as [|y l IH]; intros r Hs H; cbn [insort] in H.
  - injection H as <-. by repeat constructor.
  - pose proof (tuple_lt_obj_spec x y) as Hxy.
    apply StronglySorted_inv in Hs as [Hs Hall].
    destruct (tuple_lt_obj x y) as [[|]|e]; cbn [bind] in H; try discriminate.
    + injection H as <-. constructor; [by constructor|].
      assert (Hle : obj_le x y) by (by left).
      constructor; [exact Hle|].
      eapply Forall_impl; [exact Hall|]. intros z Hz.
      by apply (obj_le_trans x y z).
    + destruct (insort tuple_lt_obj x l) as [r'|e] eqn:Hr; cbn [bind] in H;
        try discriminate.
      injection H as <-. constructor; [by apply IH|].
      rewrite (insort_perm _ _ _ _ Hr). by constructor.
Qed.

Lemma sort_into_obj_sorted (acc l r : list (Q * nat * nat)) :
  StronglySorted obj_le acc → sort_into tuple_lt_obj acc l = Ok r →
  StronglySorted obj_le r.
Proof.
  revert acc. induction l as [|x l IH]; intros acc Hs H; cbn [sort_into] in H.
  - by injection H as <-.
  - destruct (insort tuple_lt_obj x acc) as [acc'|e] eqn:Hacc; cbn [bind] in H;
      try discriminate.
    apply (IH acc'); [|exact H]. by apply (insort_obj_sorted x acc).
Qed.

Lemma StronglySorted_related {A} (R : A -> A -> Prop) (l : list A) (x y : A) :
  StronglySorted R l → x ∈ l → y ∈ l → x = y ∨ R x y ∨ R y x.
Proof.
  induction 1 as [|z l Hs IH Hall]; intros Hx Hy.
  - by apply elem_of_nil in Hx.
  - rewrite Forall_forall in Hall.
    apply elem_of_cons in Hx as [->|Hx], Hy as [->|Hy]; auto.
Qed.

(** What [sorted] has ordered without an exception has no tie. *)
Lemma sorted_obj_no_tie (l r : list (Q * nat * nat)) (x y : Q * nat * nat) :
  sorted tuple_lt_obj l = Ok r → x ∈ l → y ∈ l → key_eq x y → x.2 = y.2.
Proof.
  intros H Hx Hy Heq.
  assert (Hs : StronglySorted obj_le r).
  { apply (sort_into_obj_sorted [] l r); [constructor | exact H]. }
  apply sorted_perm in H. rewrite <- H in Hx, Hy.
  destruct (StronglySorted_related obj_le r x y Hs Hx Hy) as [->|[Hle|Hle]].
  - reflexivity.
  - by apply obj_le_tie.
  - symmetry. apply obj_le_tie; [exact Hle|].
    destruct Heq as [Hd Hh]. split; [by symmetry | by symmetry].
Qed.

Section SortingRaises.
Context {A : Type} (lt : A -> A -> result bool).

Lemma insort_raises (x : A) (l : list A) (e : exn) :
  insort lt x l = Raise e → ∃ y, y ∈ l ∧ lt x y = Raise e.
Proof.
  induction l as [|y l IH]; cbn [insort]; intros H; [discriminate H|].
  destruct (lt x y) as [[|]|e'] eqn:Hxy; cbn [bind] in H.
  - discriminate H.
  - destruct (insort lt x l) as [r|e'] eqn:Hr; cbn [bind] in H;
      [discriminate H|].
    injection H as ->. destruct (IH eq_refl) as (z & Hz & Hxz).
    exists z. split; [by apply list_elem_of_further | exact Hxz].
  - injection H as ->. exists y. split; [apply list_elem_of_here | exact Hxy].
Qed.

Lemma sort_into_raises (acc l : list A) (e : exn) :
  sort_into lt acc l = Raise e →
  ∃ x y, x ∈ acc ++ l ∧ y ∈ acc ++ l ∧ lt x y = Raise e.
Proof.
  revert acc. induction l as [|x l IH]; intros acc H; cbn [sort_into] in H.
  - discriminate H.
  - destruct (insort lt x acc) as [acc'|e'] eqn:Hacc; cbn [bind] in H.
    + destruct (IH acc' H) as (a & b & Ha & Hb & Hab). exists a, b.
      assert (Hin : ∀ z, z ∈ acc' ++ l → z ∈ acc ++ x :: l).
      { intros z. rewrite !elem_of_app, (insort_perm _ _ _ _ Hacc),
          !elem_of_cons. tauto. }
      split; [by apply Hin|]. split; [by apply Hin | exact Hab].
    + injection H as ->. apply insort_raises in Hacc as (y & Hy & Hxy).
      exists x, y. rewrite !elem_of_app, !elem_of_cons. auto.
Qed.

End SortingRaises.

(** X19.  [pair_heavy_ids_with_connected] fails exactly when a heavy atom
    of the site is at the same distance from two different neighbours,
    and then with [TypeError], from ordering two [Vertex] objects. *)
Theorem pair_heavy_ids_with_connected_raises (E : Env) (st : Topology)
    (vertex : nat) (e : exn) :
  pair_heavy_ids_with_connected E st vertex = Raise e ↔
  e = TypeError ∧ tie E (sites st vertex).
Proof.
  unfold pair_heavy_ids_with_connected.
  set (v := sites st vertex).
  assert (Hraise : ∀ e', sorted tuple_lt_obj (site_candidates E v) = Raise e' →
            e' = TypeError ∧ tie E v).
  { intros e' H. apply sort_into_raises in H as (x & y & Hx & Hy & Hxy).
    cbn [app] in Hx, Hy. destruct x as [[d1 h1] p1], y as [[d2 h2] p2].
    apply elem_of_site_candidates in Hx as (Hh1 & Hp1 & ->).
    apply elem_of_site_candidates in Hy as (Hh2 & Hp2 & ->).
    pose proof (tuple_lt_obj_spec (atom_site_distance E h1 p1, h1, p1)
                  (atom_site_distance E h2 p2, h2, p2)) as Hspec.
    rewrite Hxy in Hspec. destruct Hspec as (-> & [Hd Hh] & Hp).
    cbn [fst snd] in Hd, Hh, Hp. subst h2. split; [reflexivity|].
    by exists h1, p1, p2. }
  split.
  - intros H. destruct (sorted tuple_lt_obj _) as [r|e'] eqn:Hsort.
    + rewrite bind_Ok_l in H.
      destruct (foldl pair_step _ r) as [[pairs ids] pos]. discriminate H.
    + rewrite bind_Raise_l in H. injection H as ->. by apply Hraise.
  - intros (-> & h & p & q & Hh & Hp & Hq & Hne & Hd).
    destruct (sorted tuple_lt_obj _) as [r|e'] eqn:Hsort.
    + exfalso. apply Hne.
      apply (sorted_obj_no_tie _ r (atom_site_distance E h p, h, p)
               (atom_site_distance E h q, h, q) Hsort).
      * by apply elem_of_site_candidates.
      * by apply elem_of_site_candidates.
      * by split.
    + rewrite bind_Raise_l. f_equal. by destruct (Hraise e' eq_refl).
Qed.

(** ** Bonds join neighbouring blocks *)

Lemma place_loop_pairs_own (E : Env) (n bb : nat) (ps : list nat)
    (st st' : Topology) :
  for_each (place_on_A E n bb) ps st = Ok st' →
  ∀ p, p ∈ ps →
    ∀ a v, (a, v) ∈ atom_position_pairs (sites st' p) →
           a ∈ heavy_ids (sites st' p) ∧ v ∈ connected (sites st' p).
Proof.
  intros H p Hp.
  apply (place_loop_establishes
           (fun s q => ∀ a v, (a, v) ∈ atom_position_pairs (sites s q) →
                        a ∈ heavy_ids (sites s q) ∧ v ∈ connected (sites s q))
           (place_on_A E n bb) ps st st'); [|exact H|by left].
  intros s q s' Hs. split; [by eapply place_on_A_pairs|].
  intros q' Hq' Hold.
  destruct (place_on_A_inv E n bb s s' q Hs) as (_ & _ & Hframe).
  by rewrite (Hframe q' Hq').
Qed.

(** X20.  After [place_mols] and [join_mols], when the sites of
    [positions_A] are distinct and none of them is also in [positions_B],
    every bond formed joins a heavy atom recorded at a site of
    [positions_A] to a heavy atom recorded at one of the neighbours of
    that site. *)
Theorem formed_bonds_join_neighbours (E : Env) (st st1 st2 : Topology) :
  place_mols E st = Ok st1 →
  join_mols E st1 = Ok st2 →
  NoDup (positions_A st) →
  (∀ p, p ∈ positions_A st → p ∉ positions_B st) →
  ∀ a b t, (a, b, t) ∈ formed_bonds st1 st2 →
    ∃ p v, p ∈ positions_A st
           ∧ v ∈ connected (sites st p)
           ∧ a ∈ heavy_ids (sites st1 p)
           ∧ b ∈ heavy_ids (sites st1 v).
Proof.
  intros Hplace Hjoin Hnd Hdisj a b t Hin.
  destruct (place_mols_positions E st st1 Hplace) as [HA HB].
  pose proof (place_mols_layout E st st1 Hplace) as Hlayout.
  destruct (join_mols_inv E st1 st2 Hjoin)
    as (new & L & HL & Hnew & Hmol & _).
  rewrite (formed_bonds_app st1 st2 new) in Hin by (by rewrite Hmol).
  destruct (accepted_candidate E st1 st2 L a b Hjoin) as (p & v & Hp & Hav & Hb).
  - by rewrite HA.
  - rewrite HA. intros p Hp. apply (place_mols_flushed E st st1 p Hplace).
    apply elem_of_app. by left.
  - exact HL.
  - rewrite <- Hnew. apply list_elem_of_fmap. by exists (a, b, t).
  - rewrite HA in Hp. exists p, v. split; [exact Hp|].
    destruct (place_mols_inv E st st1 Hplace)
      as (b1 & b2 & st_mid & _ & _ & HlA & HlB).
    cbn zeta in HlA, HlB.
    destruct (place_loop_inv E _ _ _ _ _
                (fun s p s' Hs => proj1 (place_on_A_inv E _ _ s s' p Hs)) HlA)
      as (_ & _ & _ & HposB & _).
    cbn [set_heavy_mol positions_B] in HposB. rewrite HposB in HlB.
    destruct (place_loop_sites (fun _ => True) _ _ _ _
                (fun s q s' Hs =>
                   conj I (proj2 (proj2 (place_on_B_inv E _ _ s s' q Hs)))) HlB)
      as [_ Hother].
    pose proof (Hother p (Hdisj p Hp)) as Hsame.
    destruct (place_loop_pairs_own E _ _ _ _ _ HlA p Hp a v) as [Ha Hv].
    { by rewrite <- Hsame. }
    rewrite <- Hsame in Ha, Hv. rewrite (proj2 (Hlayout p)) in Hv.
    by split; [|split].
Qed.

Lemma Cage_disjoint (p : nat) :
  p ∈ positions_A Cage.start → p ∉ positions_B Cage.start.
Proof.
  cbn. rewrite !elem_of_cons, !elem_of_nil. intros [->|[->|[]]]; lia.
Qed.

Lemma formed_bonds_join_neighbours_witness :
  ∃ p v, p ∈ positions_A Cage.start
         ∧ v ∈ connected (sites Cage.start p)
         ∧ 1 ∈ heavy_ids (sites Cage.placed p)
         ∧ 8 ∈ heavy_ids (sites Cage.placed v).
Proof.
  apply (formed_bonds_join_neighbours Cage.env Cage.start Cage.placed
           Cage.joined Cage_place_mols Cage_join_mols Cage_NoDup_start
           Cage_disjoint 1 8 DOUBLE).
  apply list_elem_of_In, (nth_error_In _ 2). vm_compute. reflexivity.
Defined.

(** ** Nearest first *)

(** X21.  [pair_heavy_ids_with_connected] pairs nearest first: a heavy
    atom [h] of the site and a neighbour [p] that are not paired with one
    another have lost to a pair that takes [h] or takes [p] and comes
    earlier in the order of (distance, heavy id). *)
Theorem pair_heavy_ids_with_connected_nearest_first (E : Env)
    (st st' : Topology) (vertex : nat) :
  pair_heavy_ids_with_connected E st vertex = Ok st' →
  let v := sites st vertex in
  let pairs := atom_position_pairs (sites st' vertex) in
  ∀ h p, h ∈ heavy_ids v → p ∈ connected v →
    (h, p) ∈ pairs
    ∨ ∃ h' p', (h', p') ∈ pairs
        ∧ (h' = h ∨ p' = p)
        ∧ ((atom_site_distance E h' p' < atom_site_distance E h p)%Q
           ∨ ((atom_site_distance E h' p' == atom_site_distance E h p)%Q
              ∧ h' < h)).
Proof.
  intros H. cbn zeta.
  apply pair_heavy_ids_with_connected_Ok in H as (sorted_d & Hsort & ->).
  cbn [set_site sites]. rewrite fn_lookup_insert.
  cbn [set_atom_position_pairs atom_position_pairs].
  set (v := sites st vertex) in *.
  assert (Hs : StronglySorted obj_le sorted_d).
  { apply (sort_into_obj_sorted [] _ _ ltac:(constructor) Hsort). }
  apply sorted_perm in Hsort. intros h p Hh Hp.
  set (c := (atom_site_distance E h p, h, p)).
  assert (Hc : c ∈ sorted_d).
  { rewrite Hsort. by apply elem_of_site_candidates. }
  apply list_elem_of_split in Hc as (l1 & l2 & Hsplit).
  rewrite Hsplit, foldl_app. cbn [foldl].
  destruct (pair_steps_inv l1 _ matched_empty) as (Hm1 & _ & Hfrom1 & _).
  set (acc1 := foldl pair_step ([], ∅, ∅) l1) in *.
  destruct (pair_step_inv acc1 (atom_site_distance E h p) h p Hm1)
    as (Hm2 & Hkeep2 & _ & _).
  fold c in Hm2, Hkeep2.
  destruct (pair_steps_inv l2 _ Hm2) as (_ & Hkeep & _ & _).
  assert (Hearlier : ∀ h' p', (h', p') ∈ acc1.1.1 →
            (h', p') ∈ (foldl pair_step (pair_step acc1 c) l2).1.1
            ∧ obj_le (atom_site_distance E h' p', h', p') c).
  { intros h' p' Hin. split; [by apply Hkeep, Hkeep2|].
    destruct (Hfrom1 _ Hin) as [Hnil|[d' Hd']];
      [by apply elem_of_nil in Hnil|].
    cbn [fst snd] in Hd'.
    assert (Hd : d' = atom_site_distance E h' p').
    { assert (Hcand : (d', h', p') ∈ site_candidates E v).
      { rewrite <- Hsort, Hsplit. apply elem_of_app. by left. }
      by apply elem_of_site_candidates in Hcand as (_ & _ & ->). }
    subst d'. rewrite Hsplit in Hs.
    apply (StronglySorted_app_1_elem_of _ _ _ _ _ Hs Hd').
    apply list_elem_of_here. }
  assert (Hblocked : ∀ h' p', (h', p') ∈ acc1.1.1 → h' = h ∨ p' = p →
            (h, p) ∈ (foldl pair_step (pair_step acc1 c) l2).1.1
            ∨ ∃ h'' p'', (h'', p'') ∈ (foldl pair_step (pair_step acc1 c) l2).1.1
                ∧ (h'' = h ∨ p'' = p)
                ∧ ((atom_site_distance E h'' p'' < atom_site_distance E h p)%Q
                   ∨ ((atom_site_distance E h'' p''
                       == atom_site_distance E h p)%Q ∧ h'' < h))).
  { intros h' p' Hin Hshare. destruct (Hearlier h' p' Hin) as [Hfinal Hle].
    destruct Hle as [Hlt|[[_ Heq] Heqp]]; cbn [fst snd] in *.
    - right. exists h', p'. by split; [|split].
    - subst h' p'. by left. }
  destruct Hm1 as (_ & _ & Hids & Hpos).
  destruct acc1 as [[prs ids] pos] eqn:Hacc1. cbn [fst snd] in *.
  destruct (decide (h ∈ ids)) as [Hhin|Hhout].
  { apply Hids, list_elem_of_fmap in Hhin as ([h' p'] & Heq & Hin).
    cbn in Heq. subst h'. apply (Hblocked h p' Hin). by left. }
  destruct (decide (p ∈ pos)) as [Hpin|Hpout].
  { apply Hpos, list_elem_of_fmap in Hpin as ([h' p'] & Heq & Hin).
    cbn in Heq. subst p'. apply (Hblocked h' p Hin). by right. }
  left. apply Hkeep. unfold c, pair_step.
  rewrite (bool_decide_eq_false_2 _ Hhout), (bool_decide_eq_false_2 _ Hpout).
  cbn. apply elem_of_app. right. apply list_elem_of_here.
Qed.

Lemma Cage_paired_again :
  pair_heavy_ids_with_connected Cage.env Cage.placed 0 = Ok Cage.paired_again.
Proof. vm_compute. reflexivity. Defined.

Lemma pair_heavy_ids_with_connected_nearest_first_witness :
  (1, 3) ∈ atom_position_pairs (sites Cage.paired_again 0)
  ∨ ∃ h' p', (h', p') ∈ atom_position_pairs (sites Cage.paired_again 0)
      ∧ (h' = 1 ∨ p' = 3)
      ∧ ((atom_site_distance Cage.env h' p' < atom_site_distance Cage.env 1 3)%Q
         ∨ ((atom_site_distance Cage.env h' p'
             == atom_site_distance Cage.env 1 3)%Q ∧ h' < 1)).
Proof.
  destruct Cage_vertex_0 as [Hh Hc].
  apply (pair_heavy_ids_with_connected_nearest_first Cage.env Cage.placed
           Cage.paired_again 0 Cage_paired_again 1 3).
  - rewrite Hh. apply list_elem_of_here.
  - rewrite Hc. apply list_elem_of_further, list_elem_of_here.
Defined.
